(** * Cleave ("Convert simply.") -- the batch queue of [src/App.tsx]

    A shallow embedding of the queue state machine held by the [App]
    component: file intake ([handleFiles]), removal ([removeItem],
    [clearQueue]), the batch run ([processBatch]) and the export path
    ([getExtension], [downloadFile], [downloadAll]).

    React state is modelled by explicit state passing over a [World.t].
    A handler that never awaits runs in one go, and so does every stretch
    of [processBatch] between two [await]s: within it
    [setQueue (prev => f prev)] is an update of the queue component, and
    what React has committed is what the world holds when the stretch
    ends.  [processBatch] is embedded twice: run to its end in one go
    ([processBatch]), for what a run leaves behind, and cut at its
    [await]s ([processBatchTask], [scheduled]), for what is seen and what
    may happen while it is suspended; when no other handler runs in
    between, the two are proved to end in the same world.  Everything
    outside the component (the conversion service, the annotation service,
    [Math.random], the browser's object-URL registry) is an oracle indexed
    by a logical clock that ticks at every call, so that two calls on the
    same file may answer differently. *)

From Stdlib Require Import QArith Ascii String.
From Stdlib.Strings Require Byte.
From stdpp Require Import gmap strings list pretty.

Local Open Scope string_scope.
Local Open Scope list_scope.

(** ** JavaScript string primitives used by the component *)

Module Js.

(** [s.startsWith(p)] *)
Definition startsWith (p s : string) : bool := String.prefix p s.

(** [s.split(sep)] for a one-character separator: never empty. *)
Fixpoint split (sep : ascii) (s : string) : list string :=
  match s with
  | EmptyString => [EmptyString]
  | String c rest =>
      if Ascii.eqb c sep then EmptyString :: split sep rest
      else match split sep rest with
           | [] => [String c EmptyString]
           | h :: t => String c h :: t
           end
  end.

(** [xs[i]]: [undefined] out of range. *)
Definition index {A} (xs : list A) (i : nat) : option A := nth_error xs i.

(** A value interpolated in a template literal; [undefined] prints as
    the word. *)
Definition interpolate (o : option string) : string :=
  match o with Some s => s | None => "undefined" end.

(** Truthiness of a string: every string but the empty one. *)
Definition truthy (s : string) : bool := negb (String.eqb s "").

End Js.

(** ** Data model ([./types], [File], [Blob]) *)

Module File.
Record t := mk { name : string; type : string; bytes : list Byte.byte }.
Definition size (f : t) : nat := length (bytes f).
End File.

Module Blob.
Record t := mk { type : string; bytes : list Byte.byte }.
Definition size (b : t) : nat := length (bytes b).
End Blob.

(** Modelled from the spec: the declaration of [AppStatus] lives in
    [./types], which is not part of the sources at hand; the four states
    are those the component compares against (and those of the
    specification's state machine). *)
Inductive AppStatus := IDLE | PROCESSING | COMPLETE | ERROR.

Definition AppStatus_eqb (a b : AppStatus) : bool :=
  match a, b with
  | IDLE, IDLE | PROCESSING, PROCESSING | COMPLETE, COMPLETE | ERROR, ERROR => true
  | _, _ => false
  end.

(** Modelled from the spec: [ProcessedResult] is declared in [./types];
    the fields are those of the object literal built by [processBatch]. *)
Module ProcessedResult.
Record t := mk {
  blob : Blob.t;
  url : string;
  size : nat;
  aiDescription : string;
  aiTags : list string
}.
End ProcessedResult.

(** Modelled from the spec: [QueueItem] is declared in [./types]; the
    fields are those written by [handleFiles] and [processBatch], with the
    two optional ones ([result], [error]) as options. *)
Module QueueItem.
Record t := mk {
  id : string;
  file : File.t;
  previewUrl : string;
  originalSize : nat;
  status : AppStatus;
  result : option ProcessedResult.t;
  error : option string
}.

(** [{ ...item, status: s }] *)
Definition withStatus (s : AppStatus) (i : t) : t :=
  mk (id i) (file i) (previewUrl i) (originalSize i) s (result i) (error i).

(** [{ ...i, status: AppStatus.COMPLETE, result }] *)
Definition withResult (r : ProcessedResult.t) (i : t) : t :=
  mk (id i) (file i) (previewUrl i) (originalSize i) COMPLETE (Some r) (error i).

(** [{ ...i, status: AppStatus.ERROR, error: "Failed" }] *)
Definition withError (msg : string) (i : t) : t :=
  mk (id i) (file i) (previewUrl i) (originalSize i) ERROR (result i) (Some msg).
End QueueItem.

(** Modelled from the spec: [ConversionSettings] is declared in
    [./types]; the fields are those of the initial state of the component.
    [format] is the MIME type of the output. *)
Module ConversionSettings.
Record t := mk {
  format : string;
  quality : Q;
  resizeRatio : Q;
  useAIAnalysis : bool;
  isVector : bool;
  colorCount : Z
}.
End ConversionSettings.

(** What [analyzeImage] resolves to. *)
Module Analysis.
Record t := mk { description : string; tags : list string }.
End Analysis.

(** ** The environment of the component

    Each service takes the value of the logical clock at the call; [None]
    is a thrown exception or a rejected promise. *)
Module Env.
Record t := mk {
  (** [processImageClientSide(file, format, quality, resizeRatio, isVector, colorCount)] *)
  processImageClientSide :
    nat -> File.t -> string -> Q -> Q -> bool -> Z -> option Blob.t;
  (** [blobToBase64(file)] *)
  blobToBase64 : nat -> File.t -> option string;
  (** [analyzeImage(base64, mimeType)] *)
  analyzeImage : nat -> string -> string -> option Analysis.t;
  (** [Math.random().toString(36).substr(2, 9)] *)
  randomId : nat -> string;
  (** the unique part of the URL minted by [URL.createObjectURL] *)
  objectUuid : nat -> string;
  (** [zip.generateAsync({ type: "blob" })] on a [JSZip] holding these
      entries *)
  generateAsync : nat -> gmap string Blob.t -> option Blob.t
}.
End Env.

(** ** The state threaded through the component *)
Module World.
Record t := mk {
  queue : list QueueItem.t;
  clock : nat;
  (** every URL minted by [URL.createObjectURL], latest first *)
  created : list string;
  (** every URL passed to [URL.revokeObjectURL], latest first *)
  revoked : list string;
  (** the lines written by [console.warn] and [console.error] *)
  console : list string
}.

Definition init : t := mk [] 0 [] [] [].
End World.

(** A state monad over the world. *)
Definition M (A : Type) : Type := World.t -> A * World.t.

Definition ret {A} (a : A) : M A := fun w => (a, w).

Definition bind {A B} (c : M A) (k : A -> M B) : M B :=
  fun w => let (a, w') := c w in k a w'.

Notation "'let*' x ':=' c 'in' k" := (bind c (fun x => k))
  (at level 10, x pattern, c at level 100, k at level 200).
Notation "c ';;' k" := (bind c (fun _ => k))
  (at level 100, k at level 200, right associativity).

Definition exec {A} (c : M A) (w : World.t) : World.t := snd (c w).

(** [setQueue(prev => f prev)] *)
Definition setQueue (f : list QueueItem.t -> list QueueItem.t) : M unit :=
  fun w => (tt, World.mk (f (World.queue w)) (World.clock w)
                         (World.created w) (World.revoked w) (World.console w)).

(** Reading the clock for a call to the outside, and ticking it. *)
Definition tick : M nat :=
  fun w => (World.clock w,
            World.mk (World.queue w) (S (World.clock w))
                     (World.created w) (World.revoked w) (World.console w)).

Definition revokeObjectURL (u : string) : M unit :=
  fun w => (tt, World.mk (World.queue w) (World.clock w)
                         (World.created w) (u :: World.revoked w) (World.console w)).

Definition consoleWarn (line : string) : M unit :=
  fun w => (tt, World.mk (World.queue w) (World.clock w)
                         (World.created w) (World.revoked w) (line :: World.console w)).

Definition consoleError (line : string) : M unit := consoleWarn line.

Fixpoint forEach {A} (xs : list A) (body : A -> M unit) : M unit :=
  match xs with
  | [] => ret tt
  | x :: rest => body x ;; forEach rest body
  end.

Fixpoint mapM {A B} (f : A -> M B) (xs : list A) : M (list B) :=
  match xs with
  | [] => ret []
  | x :: rest => let* y := f x in let* ys := mapM f rest in ret (y :: ys)
  end.

Definition idEq (a b : string) : bool := String.eqb a b.

Section Component.

Variable env : Env.t.

(** [URL.createObjectURL(_)]: a fresh [blob:] URL. *)
Definition createObjectURL : M string :=
  let* n := tick in
  let u := "blob:" +:+ Env.objectUuid env n in
  fun w => (u, World.mk (World.queue w) (World.clock w)
                        (u :: World.created w) (World.revoked w) (World.console w)).

(** [generateId] *)
Definition generateId : M string :=
  let* n := tick in ret (Env.randomId env n).

(** The object built for one accepted file in [handleFiles]. *)
Definition newItem (f : File.t) : M QueueItem.t :=
  let* i := generateId in
  let* u := createObjectURL in
  ret (QueueItem.mk i f u (File.size f) IDLE None None).

Definition isImage (f : File.t) : bool := Js.startsWith "image/" (File.type f).

(** [handleFiles(files)]; [None] is the [null] file list. *)
Definition handleFiles (files : option (list File.t)) : M unit :=
  match files with
  | None => ret tt
  | Some fs =>
      let* newItems := mapM newItem (List.filter isImage fs) in
      setQueue (fun prev => prev ++ newItems)
  end.

(** [if (u) URL.revokeObjectURL(u)] for an optional URL. *)
Definition revokeIfSet (u : option string) : M unit :=
  match u with
  | Some s => if Js.truthy s then revokeObjectURL s else ret tt
  | None => ret tt
  end.

Definition resultUrl (i : QueueItem.t) : option string :=
  option_map ProcessedResult.url (QueueItem.result i).

(** [removeItem(id)] *)
Definition removeItem (id : string) : M unit :=
  fun w =>
    let prev := World.queue w in
    let item := List.find (fun i => idEq (QueueItem.id i) id) prev in
    (revokeIfSet (option_map QueueItem.previewUrl item) ;;
     revokeIfSet (match item with Some i => resultUrl i | None => None end) ;;
     setQueue (fun _ => List.filter (fun i => negb (idEq (QueueItem.id i) id)) prev)) w.

(** [clearQueue()] *)
Definition clearQueue : M unit :=
  fun w =>
    (forEach (World.queue w) (fun item =>
       revokeIfSet (Some (QueueItem.previewUrl item)) ;;
       revokeIfSet (resultUrl item)) ;;
     setQueue (fun _ => [])) w.

(** The filter of the first line of [processBatch]. *)
Definition isPending (item : QueueItem.t) : bool :=
  AppStatus_eqb (QueueItem.status item) IDLE
  || AppStatus_eqb (QueueItem.status item) ERROR.

Definition itemsToProcess (queue : list QueueItem.t) : list QueueItem.t :=
  List.filter isPending queue.

Definition selected (items : list QueueItem.t) (item : QueueItem.t) : bool :=
  match List.find (fun i => idEq (QueueItem.id i) (QueueItem.id item)) items with
  | Some _ => true
  | None => false
  end.

(** The first [setQueue] of [processBatch]. *)
Definition markProcessing (items : list QueueItem.t) : M unit :=
  setQueue (fun prev =>
    List.map (fun item => if selected items item
                          then QueueItem.withStatus PROCESSING item else item) prev).

(** The inner [try]/[catch]: the optional annotation. *)
Definition annotate (s : ConversionSettings.t) (item : QueueItem.t)
  : M (string * list string) :=
  if ConversionSettings.useAIAnalysis s then
    let* n := tick in
    match Env.blobToBase64 env n (QueueItem.file item) with
    | Some base64Original =>
        let* n' := tick in
        match Env.analyzeImage env n' base64Original
                (File.type (QueueItem.file item)) with
        | Some analysis =>
            ret (Analysis.description analysis, Analysis.tags analysis)
        | None =>
            consoleWarn ("AI Analysis failed " +:+ QueueItem.id item) ;;
            ret ("", [])
        end
    | None =>
        consoleWarn ("AI Analysis failed " +:+ QueueItem.id item) ;;
        ret ("", [])
    end
  else ret ("", []).

Definition convert (s : ConversionSettings.t) (n : nat) (f : File.t)
  : option Blob.t :=
  Env.processImageClientSide env n f
    (ConversionSettings.format s) (ConversionSettings.quality s)
    (ConversionSettings.resizeRatio s) (ConversionSettings.isVector s)
    (ConversionSettings.colorCount s).

Definition updateById (id : string) (f : QueueItem.t -> QueueItem.t) : M unit :=
  setQueue (fun prev =>
    List.map (fun i => if idEq (QueueItem.id i) id then f i else i) prev).

(** One turn of the [for] loop of [processBatch]. *)
Definition processItem (s : ConversionSettings.t) (item : QueueItem.t) : M unit :=
  let* n := tick in
  match convert s n (QueueItem.file item) with
  | Some blob =>
      let* url := createObjectURL in
      let* ai := annotate s item in
      let result :=
        ProcessedResult.mk blob url (Blob.size blob) (fst ai) (snd ai) in
      updateById (QueueItem.id item) (QueueItem.withResult result)
  | None =>
      updateById (QueueItem.id item) (QueueItem.withError "Failed")
  end.

(** [processBatch()], run to its end without any other handler of the
    component running in between. *)
Definition processBatch (s : ConversionSettings.t) : M unit :=
  fun w =>
    let items := itemsToProcess (World.queue w) in
    if Nat.eqb (length items) 0 then ret tt w
    else (markProcessing items ;; forEach items (processItem s)) w.

End Component.

(** ** Export: file names, single download, archive *)

(** What ends up on the anchor element that is clicked. *)
Module Download.
Record t := mk { href : string; download : string }.
End Download.

(** [getExtension()]; [None] is [undefined]. *)
Definition getExtension (s : ConversionSettings.t) : option string :=
  let ext := Js.index (Js.split "/" (ConversionSettings.format s)) 1 in
  match ext with
  | Some e => if String.eqb e "svg+xml" then Some "svg" else ext
  | None => ext
  end.

(** [`${name.split('.')[0]}_converted.${ext}`] *)
Definition convertedName (name : string) (ext : option string) : string :=
  Js.interpolate (Js.index (Js.split "." name) 0) +:+ "_converted." +:+ Js.interpolate ext.

(** [downloadFile(item)]; [None] when the function returns before
    building the link. *)
Definition downloadFile (s : ConversionSettings.t) (item : QueueItem.t)
  : option Download.t :=
  match QueueItem.result item with
  | None => None
  | Some r =>
      Some (Download.mk (ProcessedResult.url r)
              (convertedName (File.name (QueueItem.file item)) (getExtension s)))
  end.

(** The table of a [JSZip] instance: [zip.file(name, data)] sets the
    entry of that name (the names given here are built from [File] names,
    which hold no slash, so no folder entry comes with them). *)
Definition zipFile (name : string) (data : Blob.t) (zip : gmap string Blob.t)
  : gmap string Blob.t := <[name := data]> zip.

Definition isCompleted (item : QueueItem.t) : bool :=
  AppStatus_eqb (QueueItem.status item) COMPLETE
  && match QueueItem.result item with Some _ => true | None => false end.

(** The [forEach] of [downloadAll], from a new [JSZip]. *)
Definition buildZip (ext : option string) (completedItems : list QueueItem.t)
  : gmap string Blob.t :=
  fold_left
    (fun zip item =>
       match QueueItem.result item with
       | Some r => zipFile (convertedName (File.name (QueueItem.file item)) ext)
                           (ProcessedResult.blob r) zip
       | None => zip
       end)
    completedItems ∅.

(** The archive handed to the browser: the name on the link, the
    entries of the [JSZip] instance and the blob generated from it. *)
Module Archive.
Record t := mk {
  download : string;
  files : gmap string Blob.t;
  content : Blob.t
}.
End Archive.

Section Exports.

Variable env : Env.t.

(** [downloadAll()]; the [isZipping] flag only drives the spinner and is
    left out.  [None] when nothing is handed to the browser: no completed
    item, or the generation of the archive throws. *)
Definition downloadAll (s : ConversionSettings.t) : M (option Archive.t) :=
  fun w =>
    let completedItems := List.filter isCompleted (World.queue w) in
    if Nat.eqb (length completedItems) 0 then ret None w
    else
      (let zip := buildZip (getExtension s) completedItems in
       let* n := tick in
       match Env.generateAsync env n zip with
       | Some content =>
           let* url := createObjectURL env in
           revokeObjectURL url ;;
           ret (Some (Archive.mk "cleave_batch.zip" zip content))
       | None =>
           consoleError "ZIP Error" ;;
           ret None
       end) w.

End Exports.

(** ** The handlers as actions of the user *)

Inductive Action :=
| AddFiles (files : option (list File.t))
| RemoveItem (id : string)
| ClearQueue
| ProcessBatch (s : ConversionSettings.t)
| DownloadAll (s : ConversionSettings.t).

Definition step (env : Env.t) (a : Action) : M unit :=
  match a with
  | AddFiles files => handleFiles env files
  | RemoveItem id => removeItem id
  | ClearQueue => clearQueue
  | ProcessBatch s => processBatch env s
  | DownloadAll s => downloadAll env s ;; ret tt
  end.

Definition run (env : Env.t) (acts : list Action) : M unit :=
  forEach acts (step env).

(** ** [processBatch] as the event loop runs it

    [processBatch] is an [async] function: it runs until it has made a
    call it awaits, is suspended, and resumes once the call has settled.
    While it is suspended React commits the state updates queued so far
    and the other handlers of the component may run.  The stretch of code
    between two suspensions runs without interruption, and the state it
    reads through a [setQueue] updater is the one its own earlier updates
    have produced. *)

(** What an [await] of [processBatch] waits for: the call, the item it was
    made for, and the tick at which it was made. *)
Inductive Call :=
| ConvertCall (item : QueueItem.t) (n : nat)
| Base64Call (item : QueueItem.t) (n : nat)
| AnalyzeCall (item : QueueItem.t) (n : nat).

(** An async handler cut at its [await]s: it has returned, or it is
    suspended on a call and resumes from the world it then finds. *)
#[warnings="-register-all"] Inductive Task :=
| Finished
| Suspended (call : Call) (resume : M Task).

Section AsyncComponent.

Variable env : Env.t.

(** The inner [try]/[catch] of [processBatch] with its two [await]s,
    followed by the rest [k] of the turn. *)
Definition annotateTask (s : ConversionSettings.t) (item : QueueItem.t)
    (k : string * list string -> M Task) : M Task :=
  if ConversionSettings.useAIAnalysis s then
    let* n := tick in
    ret (Suspended (Base64Call item n)
      (match Env.blobToBase64 env n (QueueItem.file item) with
       | Some base64Original =>
           let* n' := tick in
           ret (Suspended (AnalyzeCall item n')
             (match Env.analyzeImage env n' base64Original
                      (File.type (QueueItem.file item)) with
              | Some analysis =>
                  k (Analysis.description analysis, Analysis.tags analysis)
              | None =>
                  consoleWarn ("AI Analysis failed " +:+ QueueItem.id item) ;;
                  k ("", [])
              end))
       | None =>
           consoleWarn ("AI Analysis failed " +:+ QueueItem.id item) ;;
           k ("", [])
       end))
  else k ("", []).

(** The [for] loop of [processBatch]: each turn calls the conversion and
    is suspended on it; what follows the [await] runs when it resumes,
    and the [setQueue] of the turn is followed, without suspension, by
    the call of the next turn. *)
Fixpoint turns (s : ConversionSettings.t) (items : list QueueItem.t) : M Task :=
  match items with
  | [] => ret Finished
  | item :: rest =>
      let* n := tick in
      ret (Suspended (ConvertCall item n)
        (match convert env s n (QueueItem.file item) with
         | Some blob =>
             let* url := createObjectURL env in
             annotateTask s item (fun ai =>
               updateById (QueueItem.id item)
                 (QueueItem.withResult
                    (ProcessedResult.mk blob url (Blob.size blob) (fst ai) (snd ai))) ;;
               turns s rest)
         | None =>
             updateById (QueueItem.id item) (QueueItem.withError "Failed") ;;
             turns s rest
         end))
  end.

(** [processBatch()] up to its first [await], and what is left of it. *)
Definition processBatchTask (s : ConversionSettings.t) : M Task :=
  fun w =>
    let items := itemsToProcess (World.queue w) in
    if Nat.eqb (length items) 0 then ret Finished w
    else (markProcessing items ;; turns s items) w.

End AsyncComponent.

(** One suspension of a run, as the event loop sees it. *)
Module Suspension.
Record t := mk {
  (** the call awaited *)
  awaited : Call;
  (** the queue as last committed when the call was made: the updates
      queued by the stretch of code that made the call are committed only
      once it is suspended *)
  renderedAtCall : list QueueItem.t;
  (** the world committed at the suspension *)
  atYield : World.t;
  (** the world the handler resumes from, after the handlers that ran in
      the meantime *)
  atResume : World.t
}.
End Suspension.

(** The event loop: at each suspension of the task the handlers that
    [others] lists for it run, each to its end (they are meant to be the
    synchronous ones: [AddFiles], [RemoveItem], [ClearQueue]), then the
    task resumes. *)
Fixpoint schedule (env : Env.t) (t : Task) (rendered : list QueueItem.t)
    (others : list (list Action)) (w : World.t)
  : list Suspension.t * World.t :=
  match t with
  | Finished => ([], w)
  | Suspended call resume =>
      let w1 := exec (run env (hd [] others)) w in
      let (t', w2) := resume w1 in
      let (rest, final) := schedule env t' (World.queue w1) (tl others) w2 in
      (Suspension.mk call rendered w w1 :: rest, final)
  end.

(** A handler [c] called in world [w]: it runs to its first suspension or
    to its end, and the event loop takes over. *)
Definition launch (env : Env.t) (c : M Task) (rendered : list QueueItem.t)
    (others : list (list Action)) (w : World.t)
  : list Suspension.t * World.t :=
  let (t, w0) := c w in schedule env t rendered others w0.

(** A click on [Start Conversion] in world [w], with the handlers of
    [others] running at its suspensions: the suspensions of the run, and
    the world when [processBatch] has returned. *)
Definition scheduled (env : Env.t) (s : ConversionSettings.t)
    (others : list (list Action)) (w : World.t)
  : list Suspension.t * World.t :=
  launch env (processBatchTask env s) (World.queue w) others w.

(** ** A concrete environment, for running the model

    Conversion fails on empty files and, before tick 3, on files named
    [flaky.png]; annotation fails on [image/gif]; identifiers and URLs are
    numbered by the clock; archives are always generated. *)
Module Demo.

Definition convertOk (n : nat) (f : File.t) : bool :=
  negb (Nat.eqb (File.size f) 0)
  && negb (String.eqb (File.name f) "flaky.png" && Nat.ltb n 3).

Definition env : Env.t :=
  Env.mk
    (fun n f fmt _ _ _ _ =>
       if convertOk n f then Some (Blob.mk fmt (File.bytes f)) else None)
    (fun _ f => Some (File.name f))
    (fun _ b64 mime =>
       if String.eqb mime "image/gif" then None
       else Some (Analysis.mk ("about " +:+ b64) [mime]))
    (fun n => pretty n)
    (fun n => pretty n)
    (fun _ zip => Some (Blob.mk "application/zip" [])).

Definition settings (fmt : string) (ai : bool) : ConversionSettings.t :=
  ConversionSettings.mk fmt (4 # 5) 1 ai false 16.

Definition x1 : list Byte.byte := [Byte.x01].

Definition cat : File.t := File.mk "cat.photo.png" "image/png" x1.
Definition dog : File.t := File.mk "dog.gif" "image/gif" x1.
Definition bad : File.t := File.mk "bad.png" "image/png" [].
Definition flaky : File.t := File.mk "flaky.png" "image/png" x1.
Definition notes : File.t := File.mk "notes.txt" "text/plain" x1.

Definition jpeg : ConversionSettings.t := settings "image/jpeg" true.

(** Three images and a text file dropped on the empty queue. *)
Definition intake : list Action := [AddFiles (Some [cat; notes; bad; dog])].
Definition three : World.t := exec (run env intake) World.init.

Definition catItem : QueueItem.t :=
  QueueItem.mk "0" cat "blob:1" 1 IDLE None None.
Definition badItem : QueueItem.t :=
  QueueItem.mk "2" bad "blob:3" 0 IDLE None None.
Definition dogItem : QueueItem.t :=
  QueueItem.mk "4" dog "blob:5" 1 IDLE None None.

(** The item of [dog] when it is dropped on the queue of [two] during the
    first suspension of a run. *)
Definition lateDog : QueueItem.t :=
  QueueItem.mk "5" dog "blob:6" 1 IDLE None None.

(** ... then converted to JPEG with annotation on. *)
Definition converted : World.t := exec (processBatch env jpeg) three.

Definition catBlob : Blob.t := Blob.mk "image/jpeg" x1.

Definition catDone : QueueItem.t :=
  QueueItem.mk "0" cat "blob:1" 1 COMPLETE
    (Some (ProcessedResult.mk catBlob "blob:7" 1
             "about cat.photo.png" ["image/png"]))
    None.

(** One file whose conversion fails in the first run and succeeds in
    the second. *)
Definition retry : list Action :=
  [AddFiles (Some [flaky]); ProcessBatch jpeg; ProcessBatch jpeg].
Definition retried : World.t := exec (run env retry) World.init.

Definition flakyDone : QueueItem.t :=
  QueueItem.mk "0" flaky "blob:1" 1 COMPLETE
    (Some (ProcessedResult.mk catBlob "blob:4" 1 "about flaky.png" ["image/png"]))
    (Some "Failed").

(** A run over two queued files during whose first suspension a third
    file is dropped. *)
Definition two : list Action := [AddFiles (Some [cat; bad])].
Definition meanwhile : list (list Action) := [[AddFiles (Some [dog])]; []].

(** A queue, a run, a removal. *)
Definition session : list Action :=
  [AddFiles (Some [cat; bad]); ProcessBatch jpeg; RemoveItem "0"].

End Demo.

(** ** Observations on queues and runs *)

(** [queue.find(i => i.id === id)] *)
Definition getItem (id : string) (queue : list QueueItem.t) : option QueueItem.t :=
  List.find (fun i => idEq (QueueItem.id i) id) queue.

Definition ids (queue : list QueueItem.t) : list string :=
  List.map QueueItem.id queue.

(** The object URLs an item holds: its preview and, once converted, its
    output. *)
Definition handles (i : QueueItem.t) : list string :=
  QueueItem.previewUrl i ::
  match QueueItem.result i with
  | Some r => [ProcessedResult.url r]
  | None => []
  end.

Definition owned (queue : list QueueItem.t) : list string :=
  flat_map handles queue.

(** The world after the batch has marked its items and resolved the first
    [k] of them. *)
Definition stateAfter (env : Env.t) (s : ConversionSettings.t) (k : nat)
    (w : World.t) : World.t :=
  let items := itemsToProcess (World.queue w) in
  exec (markProcessing items ;; forEach (firstn k items) (processItem env s)) w.

(** The annotation service fails when called at tick [n] for [item]:
    either the encoding of the file or the remote call throws. *)
Definition annotationFails (env : Env.t) (item : QueueItem.t) (n : nat) : Prop :=
  match Env.blobToBase64 env n (QueueItem.file item) with
  | None => True
  | Some b64 =>
      Env.analyzeImage env (S n) b64 (File.type (QueueItem.file item)) = None
  end.

(** The items whose conversion the suspensions await, in order. *)
Definition convertCalls (trace : list Suspension.t) : list QueueItem.t :=
  flat_map (fun e => match Suspension.awaited e with
                     | ConvertCall item _ => [item]
                     | _ => []
                     end) trace.

Definition isIntake (a : Action) : Prop :=
  match a with AddFiles _ => True | _ => False end.

(** No two of the first [n] draws of [generateId] collide. *)
Definition collisionFree (env : Env.t) (n : nat) : Prop :=
  forall a b, a < n -> b < n -> Env.randomId env a = Env.randomId env b -> a = b.

(** ** The properties under study *)

(** The exclusivity of [result] and [error] as the specification words
    it: each is present exactly in its own terminal state. *)
Definition SpecExclusive (i : QueueItem.t) : Prop :=
  (is_Some (QueueItem.result i) <-> QueueItem.status i = COMPLETE)
  /\ (is_Some (QueueItem.error i) <-> QueueItem.status i = ERROR).

(** What the component maintains: [result] exactly in [COMPLETE]; [error]
    set in [ERROR], never set in [IDLE], and only ever to the one
    message. *)
Definition Lifecycle (i : QueueItem.t) : Prop :=
  (is_Some (QueueItem.result i) <-> QueueItem.status i = COMPLETE)
  /\ (QueueItem.status i = ERROR -> QueueItem.error i = Some "Failed")
  /\ (QueueItem.status i = IDLE -> QueueItem.error i = None)
  /\ (is_Some (QueueItem.error i) -> QueueItem.error i = Some "Failed").

(** The output formats of the specification and the MIME types the
    settings panel writes for them. *)
Inductive OutputFormat := JPEG | PNG | WEBP | AVIF | SVG.

Definition mimeOf (f : OutputFormat) : string :=
  match f with
  | JPEG => "image/jpeg"
  | PNG => "image/png"
  | WEBP => "image/webp"
  | AVIF => "image/avif"
  | SVG => "image/svg+xml"
  end.

(** The extension mapping as the specification words it. *)
Definition specExtension (f : OutputFormat) : string :=
  match f with
  | JPEG => "jpg"
  | PNG => "png"
  | WEBP => "webp"
  | AVIF => "avif"
  | SVG => "svg"
  end.

(** The extension mapping the component computes. *)
Definition subtypeExtension (f : OutputFormat) : string :=
  match f with
  | JPEG => "jpeg"
  | PNG => "png"
  | WEBP => "webp"
  | AVIF => "avif"
  | SVG => "svg"
  end.

(** The part of a file name before its first dot. *)
Definition baseName (name : string) : string :=
  Js.interpolate (Js.index (Js.split "." name) 0).

(** The (name, bytes) pairs of the completed results, in queue order. *)
Definition entries (ext : option string) (items : list QueueItem.t)
  : list (string * Blob.t) :=
  flat_map
    (fun item =>
       match QueueItem.result item with
       | Some r => [(convertedName (File.name (QueueItem.file item)) ext,
                     ProcessedResult.blob r)]
       | None => []
       end)
    items.

(** The bytes of the last entry of that name. *)
Definition lastEntry (name : string) (es : list (string * Blob.t)) : option Blob.t :=
  option_map snd (List.find (fun e => String.eqb (fst e) name) (rev es)).

(** The pair [annotate] returns when it starts at tick [n]. *)
Definition annotation (env : Env.t) (s : ConversionSettings.t)
    (item : QueueItem.t) (n : nat) : string * list string :=
  if ConversionSettings.useAIAnalysis s then
    match Env.blobToBase64 env n (QueueItem.file item) with
    | Some b64 =>
        match Env.analyzeImage env (S n) b64 (File.type (QueueItem.file item)) with
        | Some a => (Analysis.description a, Analysis.tags a)
        | None => ("", [])
        end
    | None => ("", [])
    end
  else ("", []).

(** The update [processItem] applies to the entries carrying the id of
    [item] when its turn starts at tick [n]. *)
Definition resolve (env : Env.t) (s : ConversionSettings.t)
    (item : QueueItem.t) (n : nat) : QueueItem.t -> QueueItem.t :=
  match convert env s n (QueueItem.file item) with
  | Some blob =>
      let ai := annotation env s item (S (S n)) in
      QueueItem.withResult
        (ProcessedResult.mk blob ("blob:" +:+ Env.objectUuid env (S n))
           (Blob.size blob) (fst ai) (snd ai))
  | None => QueueItem.withError "Failed"
  end.

(** ** Auxiliary notions used in the statements and proofs *)

Definition freshItem (i : QueueItem.t) : Prop :=
  QueueItem.status i = IDLE /\ QueueItem.result i = None
  /\ QueueItem.error i = None.

Definition updated (id : string) (f : QueueItem.t -> QueueItem.t)
    (i : QueueItem.t) : QueueItem.t :=
  if idEq (QueueItem.id i) id then f i else i.

(** The handles of an item that pass the truthiness test of [removeItem]
    and [clearQueue]. *)
Definition revocable (i : QueueItem.t) : list string :=
  List.filter Js.truthy (handles i).

(** Every handle of the item is a non-empty string. *)
Definition handleOk (i : QueueItem.t) : Prop :=
  Forall (fun u => Js.truthy u = true) (handles i).

Definition revokeAll (us : list string) (w : World.t) : World.t :=
  World.mk (World.queue w) (World.clock w) (World.created w)
           (rev us ++ World.revoked w) (World.console w).

(** Every id in the queue was drawn by [generateId] at an earlier tick. *)
Definition Minted (env : Env.t) (w : World.t) : Prop :=
  Forall (fun a => exists k, k < World.clock w /\ a = Env.randomId env k)
         (ids (World.queue w)).

(** Every URL minted so far is either revoked or held by a queued item,
    once. *)
Definition Ledger (w : World.t) : Prop :=
  World.created w ≡ₚ World.revoked w ++ owned (World.queue w).

Record WorldInv (env : Env.t) (w : World.t) : Prop := {
  inv_nodup : NoDup (ids (World.queue w));
  inv_minted : Minted env w;
  inv_lifecycle : Forall Lifecycle (World.queue w);
  inv_handles : Forall handleOk (World.queue w);
  inv_ledger : Ledger w
}.

(** What holds of a world [w1] met during a run started in [w0]: the
    entries of [w0] are still there, in place, changed at most where their
    id was selected, and everything queued behind them carries an id that
    was not selected. *)
Record During (env : Env.t) (w0 w1 : World.t) : Prop := {
  during_clock : World.clock w0 <= World.clock w1;
  during_minted : Minted env w1;
  during_old :
    exists g,
      firstn (length (World.queue w0)) (World.queue w1)
      = List.map g (World.queue w0)
      /\ (forall i, QueueItem.id (g i) = QueueItem.id i)
      /\ (forall i, ~ In (QueueItem.id i) (ids (itemsToProcess (World.queue w0)))
                    -> g i = i);
  during_new :
    Forall (fun i => ~ In (QueueItem.id i) (ids (itemsToProcess (World.queue w0))))
           (skipn (length (World.queue w0)) (World.queue w1))
}.

(** The entries queued behind those of [w0] are the same in [w2] as in
    [w1]. *)
Definition Extends (w0 w1 w2 : World.t) : Prop :=
  forall p i,
    length (World.queue w0) <= p ->
    nth_error (World.queue w1) p = Some i ->
    nth_error (World.queue w2) p = Some i.

(** A suspension on a call of the annotation, with the queue [q]
    committed and nothing running before the handler resumes. *)
Definition Waiting (q : list QueueItem.t) (e : Suspension.t) : Prop :=
  convertCalls [e] = []
  /\ World.queue (Suspension.atYield e) = q
  /\ Suspension.atResume e = Suspension.atYield e.

(** The suspension on the conversion of [item] called in world [w], when
    nothing runs before the handler resumes. *)
Definition convertEntry (item : QueueItem.t) (r : list QueueItem.t) (w : World.t)
  : Suspension.t :=
  Suspension.mk (ConvertCall item (World.clock w)) r (snd (tick w)) (snd (tick w)).

(** What a stretch of the run does to the world: the clock moves on and
    the entries are rewritten in place, those with an id outside [S] not
    at all. *)
Definition Frame (S : list string) (w1 w2 : World.t) : Prop :=
  World.clock w1 <= World.clock w2
  /\ exists u,
       World.queue w2 = List.map u (World.queue w1)
       /\ (forall i, QueueItem.id (u i) = QueueItem.id i)
       /\ (forall i, ~ In (QueueItem.id i) S -> u i = i).

(** A task all of whose stretches are such. *)
Inductive Framed (S : list string) : Task -> Prop :=
| Framed_Finished : Framed S Finished
| Framed_Suspended call resume :
    (forall w, Frame S w (snd (resume w))) ->
    (forall w, Framed S (fst (resume w))) ->
    Framed S (Suspended call resume).

Definition FramedM (S : list string) (c : M Task) : Prop :=
  forall w, Frame S w (snd (c w)) /\ Framed S (fst (c w)).

(** The settings of the batch runs among the actions, in order. *)
Definition runsOf (acts : list Action) : list ConversionSettings.t :=
  flat_map (fun a => match a with ProcessBatch s => [s] | _ => [] end) acts.

(** Every result held in the queue was produced by a conversion under
    settings of [S]. *)
Definition ConvertedBy (env : Env.t) (S : list ConversionSettings.t)
    (w : World.t) : Prop :=
  Forall (fun item =>
            forall r, QueueItem.result item = Some r ->
                      exists s n,
                        In s S
                        /\ convert env s n (QueueItem.file item)
                           = Some (ProcessedResult.blob r))
         (World.queue w).

(** ** What the view derives from the state, and the settings panel *)

(** [queue.some(item => item.status === AppStatus.PROCESSING)] *)
Definition isProcessing (queue : list QueueItem.t) : bool :=
  existsb (fun item => AppStatus_eqb (QueueItem.status item) PROCESSING) queue.

(** [queue.every(item => item.status === AppStatus.COMPLETE)] *)
Definition everyComplete (queue : list QueueItem.t) : bool :=
  forallb (fun item => AppStatus_eqb (QueueItem.status item) COMPLETE) queue.

(** [queue.length > 0 && queue.every(...)] *)
Definition isAllComplete (queue : list QueueItem.t) : bool :=
  Nat.ltb 0 (length queue) && everyComplete queue.

(** The button at the foot of the side bar, with its [disabled]
    attribute. *)
Inductive PrimaryButton :=
| DownloadAllButton (disabled : bool)
| StartButton (disabled : bool).

(** The primary action as rendered: nothing while the queue is empty (the
    workspace is not shown), else [Download All], disabled while zipping,
    when [isAllComplete], else [Start Conversion]. *)
Definition primaryButton (queue : list QueueItem.t) (isZipping : bool)
  : option PrimaryButton :=
  if Nat.ltb 0 (length queue) then
    Some (if isAllComplete queue then DownloadAllButton isZipping
          else StartButton (isProcessing queue || everyComplete queue))
  else None.

(** The [src] of the thumbnail of an item. *)
Definition thumbnailSrc (item : QueueItem.t) : string :=
  if AppStatus_eqb (QueueItem.status item) COMPLETE
  then match QueueItem.result item with
       | Some r => ProcessedResult.url r
       | None => QueueItem.previewUrl item
       end
  else QueueItem.previewUrl item.

(** Whether the row of an item carries the download button. *)
Definition showsDownload (item : QueueItem.t) : bool :=
  AppStatus_eqb (QueueItem.status item) COMPLETE.

(** The initial state of [settings]. *)
Definition initialSettings : ConversionSettings.t :=
  ConversionSettings.mk "image/jpeg" (4 # 5) 1 false false 16.

(** The formats of the grid of buttons shown in raster mode. *)
Definition rasterFormats : list string :=
  ["image/jpeg"; "image/png"; "image/webp"; "image/avif"].

(** What the user can do in the settings panel; the sliders carry the
    number parsed from the input. *)
Inductive SettingsAction :=
| ClickRaster
| ClickVector
| ClickFormat (fmt : string)
| SlideQuality (q : Q)
| SlideColors (n : Z)
| ToggleAI.

(** Whether the control of that action is rendered: the format buttons
    and the quality slider in raster mode only, the colour slider in
    vector mode only. *)
Definition rendered (s : ConversionSettings.t) (a : SettingsAction) : bool :=
  match a with
  | ClickFormat fmt =>
      negb (ConversionSettings.isVector s) && existsb (String.eqb fmt) rasterFormats
  | SlideQuality _ => negb (ConversionSettings.isVector s)
  | SlideColors _ => ConversionSettings.isVector s
  | ClickRaster | ClickVector | ToggleAI => true
  end.

(** The updaters passed to [setSettings]. *)
Definition applySetting (a : SettingsAction) (s : ConversionSettings.t)
  : ConversionSettings.t :=
  match a with
  | ClickRaster =>
      ConversionSettings.mk "image/jpeg" (ConversionSettings.quality s)
        (ConversionSettings.resizeRatio s) (ConversionSettings.useAIAnalysis s)
        false (ConversionSettings.colorCount s)
  | ClickVector =>
      ConversionSettings.mk "image/svg+xml" (ConversionSettings.quality s)
        (ConversionSettings.resizeRatio s) (ConversionSettings.useAIAnalysis s)
        true (ConversionSettings.colorCount s)
  | ClickFormat fmt =>
      ConversionSettings.mk fmt (ConversionSettings.quality s)
        (ConversionSettings.resizeRatio s) (ConversionSettings.useAIAnalysis s)
        (ConversionSettings.isVector s) (ConversionSettings.colorCount s)
  | SlideQuality q =>
      ConversionSettings.mk (ConversionSettings.format s) q
        (ConversionSettings.resizeRatio s) (ConversionSettings.useAIAnalysis s)
        (ConversionSettings.isVector s) (ConversionSettings.colorCount s)
  | SlideColors n =>
      ConversionSettings.mk (ConversionSettings.format s)
        (ConversionSettings.quality s) (ConversionSettings.resizeRatio s)
        (ConversionSettings.useAIAnalysis s) (ConversionSettings.isVector s) n
  | ToggleAI =>
      ConversionSettings.mk (ConversionSettings.format s)
        (ConversionSettings.quality s) (ConversionSettings.resizeRatio s)
        (negb (ConversionSettings.useAIAnalysis s))
        (ConversionSettings.isVector s) (ConversionSettings.colorCount s)
  end.

(** One interaction with the panel: a control that is not rendered cannot
    be used. *)
Definition settingsStep (s : ConversionSettings.t) (a : SettingsAction)
  : ConversionSettings.t :=
  if rendered s a then applySetting a s else s.

Definition settingsAfter (acts : list SettingsAction) : ConversionSettings.t :=
  fold_left settingsStep acts initialSettings.

(** [handleFileSelect(e)] on an input holding [files]; the reset of the
    input's value touches the DOM only. *)
Definition handleFileSelect (env : Env.t) (files : option (list File.t)) : M unit :=
  handleFiles env files.

(** [handleDrop(e)] for a drop carrying [files]. *)
Definition handleDrop (env : Env.t) (files : option (list File.t)) : M unit :=
  handleFiles env files.

(** ** Further notions for the properties of the handlers *)

(** No two of the first [n] object URLs minted collide. *)
Definition urlCollisionFree (env : Env.t) (n : nat) : Prop :=
  forall a b, a < n -> b < n -> Env.objectUuid env a = Env.objectUuid env b -> a = b.

(** The URL minted at tick [n]. *)
Definition urlAt (env : Env.t) (n : nat) : string :=
  "blob:" +:+ Env.objectUuid env n.

(** From [w] to [w'] the clock went forward and the URLs created were
    minted at distinct ticks in between. *)
Definition UrlDelta (env : Env.t) (w w' : World.t) : Prop :=
  World.clock w <= World.clock w'
  /\ exists ts,
       World.created w' = List.map (urlAt env) ts ++ World.created w
       /\ NoDup ts
       /\ Forall (fun t => World.clock w <= t /\ t < World.clock w') ts.

(** No item is left [PROCESSING]. *)
Definition Settled (w : World.t) : Prop :=
  Forall (fun i => QueueItem.status i <> PROCESSING) (World.queue w).

(** What a batch run leaves alone in an item. *)
Definition core (i : QueueItem.t) : string * File.t * string * nat :=
  (QueueItem.id i, QueueItem.file i, QueueItem.previewUrl i,
   QueueItem.originalSize i).

(** A result, if any, carries no annotation. *)
Definition Unannotated (i : QueueItem.t) : Prop :=
  forall r, QueueItem.result i = Some r ->
            ProcessedResult.aiDescription r = ""
            /\ ProcessedResult.aiTags r = [].

(** The batch runs of the action, if it is one, have annotation off. *)
Definition annotationOff (a : Action) : Prop :=
  match a with
  | ProcessBatch s => ConversionSettings.useAIAnalysis s = false
  | _ => True
  end.

(** [pieces.join(sep)] *)
Fixpoint join (sep : string) (pieces : list string) : string :=
  match pieces with
  | [] => ""
  | [p] => p
  | p :: rest => p +:+ sep +:+ join sep rest
  end.

(** The character occurs in the string. *)
Fixpoint occurs (c : ascii) (s : string) : bool :=
  match s with
  | EmptyString => false
  | String d rest => Ascii.eqb d c || occurs c rest
  end.

(** What the settings panel maintains. *)
Definition settingsOk (s : ConversionSettings.t) : Prop :=
  exists fmt,
    ConversionSettings.format s = mimeOf fmt
    /\ (ConversionSettings.isVector s = true <-> fmt = SVG)
    /\ ConversionSettings.resizeRatio s
       = ConversionSettings.resizeRatio initialSettings.

(** The world with its queue replaced. *)
Definition withQueue (q : list QueueItem.t) (w : World.t) : World.t :=
  World.mk q (World.clock w) (World.created w) (World.revoked w) (World.console w).

(** * Proofs *)

(** ** The state monad *)

Lemma exec_ret {A} (a : A) w : exec (ret a) w = w.
Proof. reflexivity. Qed.

Lemma exec_bind {A B} (c : M A) (k : A -> M B) w :
  exec (bind c k) w = exec (k (fst (c w))) (snd (c w)).
Proof. unfold exec, bind. destruct (c w); reflexivity. Qed.

Lemma exec_seq {A} (c : M unit) (k : M A) w :
  exec (c ;; k) w = exec k (exec c w).
Proof. apply exec_bind. Qed.

Lemma exec_discard {A} (c : M A) w : exec (c ;; ret tt) w = exec c w.
Proof. rewrite exec_bind. reflexivity. Qed.

Lemma exec_forEach_cons {A} (x : A) xs body w :
  exec (forEach (x :: xs) body) w = exec (forEach xs body) (exec (body x) w).
Proof. simpl. apply exec_seq. Qed.

Lemma exec_forEach_app {A} (xs ys : list A) body w :
  exec (forEach (xs ++ ys) body) w
  = exec (forEach ys body) (exec (forEach xs body) w).
Proof.
  revert w. induction xs as [|x xs IH]; intros w; [reflexivity|].
  rewrite <- app_comm_cons, !exec_forEach_cons. apply IH.
Qed.

Lemma run_app env (a b : list Action) w :
  exec (run env (a ++ b)) w = exec (run env b) (exec (run env a) w).
Proof. apply exec_forEach_app. Qed.

(** ** Lists *)

Lemma filter_sublist {A} (p : A -> bool) (l : list A) :
  sublist (List.filter p l) l.
Proof.
  induction l as [|x l IH]; simpl; [constructor|].
  destruct (p x); [apply sublist_skip | apply sublist_cons]; exact IH.
Qed.

Lemma find_app {A} (p : A -> bool) (l1 l2 : list A) :
  List.find p (l1 ++ l2)
  = match List.find p l1 with Some x => Some x | None => List.find p l2 end.
Proof.
  induction l1 as [|x l1 IH]; simpl; [reflexivity|].
  destruct (p x); [reflexivity | exact IH].
Qed.

Lemma AppStatus_eqb_eq a b : AppStatus_eqb a b = true <-> a = b.
Proof. destruct a, b; simpl; split; intros; congruence. Qed.

Lemma isPending_spec i :
  isPending i = true
  <-> QueueItem.status i = IDLE \/ QueueItem.status i = ERROR.
Proof.
  unfold isPending. rewrite orb_true_iff, !AppStatus_eqb_eq. reflexivity.
Qed.

Lemma idEq_eq a b : idEq a b = true <-> a = b.
Proof. apply String.eqb_eq. Qed.

Lemma idEq_refl a : idEq a a = true.
Proof. apply String.eqb_refl. Qed.

Lemma idEq_neq a b : idEq a b = false <-> a <> b.
Proof. apply String.eqb_neq. Qed.

Lemma append_String a (p r : string) : String a p +:+ r = String a (p +:+ r).
Proof. reflexivity. Qed.

Lemma startsWith_spec (p s : string) :
  Js.startsWith p s = true <-> exists rest, s = p +:+ rest.
Proof.
  unfold Js.startsWith. revert s.
  induction p as [|a p IH]; intros s.
  - split; [intros _; exists s; reflexivity | intros _; destruct s; reflexivity].
  - destruct s as [|b s]; simpl.
    + split; [discriminate | intros [rest H]; discriminate].
    + destruct (ascii_dec a b) as [->|Hne].
      * rewrite IH.
        split; intros [rest H]; exists rest; rewrite append_String in *; congruence.
      * split; [discriminate|]. intros [rest H]. rewrite append_String in H. congruence.
Qed.

(** ** Selection of the pending items *)

Lemma In_itemsToProcess q i :
  In i (itemsToProcess q)
  <-> In i q /\ (QueueItem.status i = IDLE \/ QueueItem.status i = ERROR).
Proof.
  unfold itemsToProcess. rewrite filter_In, isPending_spec. reflexivity.
Qed.

Lemma selected_In items i : In i items -> selected items i = true.
Proof.
  intros Hin. unfold selected.
  destruct (List.find _ items) eqn:E; [reflexivity|].
  apply (find_none _ _ E) in Hin. rewrite idEq_refl in Hin. discriminate.
Qed.

Lemma selected_ids items i :
  selected items i = true <-> In (QueueItem.id i) (ids items).
Proof.
  unfold selected, ids. split.
  - destruct (List.find _ items) as [x|] eqn:E; [|discriminate]. intros _.
    apply find_some in E as [Hin Heq]. apply idEq_eq in Heq.
    rewrite <- Heq. apply in_map, Hin.
  - intros Hin. apply in_map_iff in Hin as (x & Hx & Hin).
    destruct (List.find _ items) eqn:E; [reflexivity|].
    apply (find_none _ _ E) in Hin. apply idEq_neq in Hin. congruence.
Qed.

(** ** Intake *)

Lemma world_eta (w : World.t) :
  World.mk (World.queue w) (World.clock w) (World.created w)
           (World.revoked w) (World.console w) = w.
Proof. destruct w; reflexivity. Qed.

(** What minting the items of an intake does to the world. *)
Lemma mapM_newItem env (fs : list File.t) (w : World.t) :
  let its := fst (mapM (newItem env) fs w) in
  let w' := snd (mapM (newItem env) fs w) in
  List.map QueueItem.file its = fs
  /\ Forall freshItem its
  /\ World.queue w' = World.queue w
  /\ World.revoked w' = World.revoked w
  /\ World.clock w' = World.clock w + 2 * length fs
  /\ World.created w' = rev (List.map QueueItem.previewUrl its) ++ World.created w
  /\ Forall (fun i => exists u, QueueItem.previewUrl i = "blob:" +:+ u) its
  /\ ids its
     = List.map (fun k => Env.randomId env (World.clock w + 2 * k))
                (seq 0 (length fs)).
Proof.
  revert w. induction fs as [|f fs IH]; intros w; cbv zeta.
  - simpl. rewrite Nat.add_0_r. repeat split; constructor.
  - simpl mapM. unfold bind at 1. unfold newItem at 1, generateId, createObjectURL.
    unfold bind, tick, ret. simpl.
    match goal with |- context [mapM (newItem env) fs ?w1] =>
      specialize (IH w1); cbv zeta in IH; destruct (mapM (newItem env) fs w1) as [ys w2]
    end.
    simpl in *. destruct IH as (E1 & E2 & E3 & E4 & E5 & E6 & E7 & E8).
    repeat split.
    + f_equal. exact E1.
    + constructor; [repeat split | exact E2].
    + exact E3.
    + exact E4.
    + rewrite E5. lia.
    + rewrite E6. rewrite <- app_assoc. reflexivity.
    + constructor; [eexists; reflexivity | exact E7].
    + unfold ids in *. simpl. f_equal; [f_equal; lia|].
      rewrite E8. rewrite <- seq_shift, map_map.
      apply map_ext. intros k. f_equal. lia.
Qed.

Lemma handleFiles_queue env fs w :
  World.queue (exec (handleFiles env (Some fs)) w)
  = World.queue w ++ fst (mapM (newItem env) (List.filter isImage fs) w).
Proof.
  unfold handleFiles. rewrite exec_bind. unfold exec, setQueue. simpl.
  destruct (mapM_newItem env (List.filter isImage fs) w) as (_ & _ & E & _).
  rewrite E. reflexivity.
Qed.

(** C9 -- intake keeps exactly the files whose MIME type starts with
    [image/]: each becomes a new [IDLE] item, without result or error,
    appended after the items already queued and in the order of the
    input; other files leave no trace, and a batch without any image (or
    no file list at all) leaves the world as it was. *)
Theorem intake_filters_and_appends env (files : list File.t) (w : World.t) :
  let w' := exec (handleFiles env (Some files)) w in
  (exists newItems,
      World.queue w' = World.queue w ++ newItems
      /\ List.map QueueItem.file newItems = List.filter isImage files
      /\ Forall freshItem newItems)
  /\ (forall f, isImage f = true <-> exists rest, File.type f = "image/" +:+ rest)
  /\ (Forall (fun f => isImage f = false) files -> w' = w)
  /\ exec (handleFiles env None) w = w.
Proof.
  cbv zeta. repeat split.
  - exists (fst (mapM (newItem env) (List.filter isImage files) w)).
    destruct (mapM_newItem env (List.filter isImage files) w) as (E1 & E2 & _).
    split; [apply handleFiles_queue | split; assumption].
  - apply startsWith_spec.
  - apply startsWith_spec.
  - intros Hall.
    assert (List.filter isImage files = []) as E.
    { induction Hall as [|f fs Hf _ IH]; simpl; [reflexivity|].
      rewrite Hf. exact IH. }
    unfold handleFiles. rewrite E. simpl. unfold exec, bind, ret, setQueue. simpl.
    rewrite app_nil_r. apply world_eta.
Qed.

(** ** Export *)

Lemma getExtension_subtype s fmt :
  ConversionSettings.format s = mimeOf fmt ->
  getExtension s = Some (subtypeExtension fmt).
Proof.
  intros E. unfold getExtension. rewrite E. destruct fmt; reflexivity.
Qed.

Lemma In_entries ext items n b :
  In (n, b) (entries ext items)
  <-> exists item r,
        In item items /\ QueueItem.result item = Some r
        /\ n = convertedName (File.name (QueueItem.file item)) ext
        /\ b = ProcessedResult.blob r.
Proof.
  unfold entries. rewrite in_flat_map. split.
  - intros (item & Hin & He). destruct (QueueItem.result item) as [r|] eqn:Er.
    + destruct He as [He|[]]. inversion He; subst. exists item, r. auto.
    + destruct He.
  - intros (item & r & Hin & Er & -> & ->). exists item. split; [exact Hin|].
    rewrite Er. left. reflexivity.
Qed.

Lemma entries_length ext items :
  length (entries ext (List.filter isCompleted items))
  = length (List.filter isCompleted items).
Proof.
  induction items as [|x xs IH]; [reflexivity|]. simpl.
  destruct (isCompleted x) eqn:Ec; [|exact IH].
  unfold isCompleted in Ec. apply andb_true_iff in Ec as [_ Ec].
  unfold entries in *. simpl. destruct (QueueItem.result x); [|discriminate].
  simpl. f_equal. exact IH.
Qed.

Lemma buildZip_entries ext items :
  buildZip ext items = list_to_map (rev (entries ext items)).
Proof.
  unfold buildZip.
  enough (forall z : gmap string Blob.t,
    fold_left
      (fun zip item =>
         match QueueItem.result item with
         | Some r => zipFile (convertedName (File.name (QueueItem.file item)) ext)
                       (ProcessedResult.blob r) zip
         | None => zip
         end) items z
    = foldr (fun p => <[p.1 := p.2]>) z (rev (entries ext items))) as H
    by apply H.
  induction items as [|x xs IH]; intros z; [reflexivity|].
  simpl fold_left. rewrite IH. unfold entries. simpl flat_map.
  rewrite rev_app_distr, foldr_app. f_equal.
  destruct (QueueItem.result x); reflexivity.
Qed.

Lemma lookup_list_to_map_find (l : list (string * Blob.t)) n :
  (list_to_map l : gmap string Blob.t) !! n
  = option_map snd (List.find (fun e => String.eqb (fst e) n) l).
Proof.
  induction l as [|[k v] l IH]; simpl.
  - apply lookup_empty.
  - destruct (String.eqb k n) eqn:E.
    + apply String.eqb_eq in E as ->. apply lookup_insert_eq.
    + apply String.eqb_neq in E. rewrite lookup_insert_ne by exact E. exact IH.
Qed.

Lemma buildZip_lookup ext items n :
  buildZip ext items !! n = lastEntry n (entries ext items).
Proof. rewrite buildZip_entries. apply lookup_list_to_map_find. Qed.

Lemma lastEntry_is_Some n es :
  is_Some (lastEntry n es) <-> exists b, In (n, b) es.
Proof.
  unfold lastEntry. split.
  - intros [b Hb]. destruct (List.find _ (rev es)) as [[k v]|] eqn:E; [|discriminate].
    apply find_some in E as [Hin Hk]. apply String.eqb_eq in Hk. simpl in Hk. subst k.
    exists v. apply in_rev, Hin.
  - intros [b Hin]. destruct (List.find _ (rev es)) as [e|] eqn:E; [eexists; reflexivity|].
    apply in_rev in Hin. apply (find_none _ _ E) in Hin. simpl in Hin.
    rewrite String.eqb_refl in Hin. discriminate.
Qed.

Lemma downloadAll_result env s w :
  let zip := buildZip (getExtension s) (List.filter isCompleted (World.queue w)) in
  fst (downloadAll env s w)
  = if Nat.eqb (length (List.filter isCompleted (World.queue w))) 0 then None
    else match Env.generateAsync env (World.clock w) zip with
         | Some content => Some (Archive.mk "cleave_batch.zip" zip content)
         | None => None
         end.
Proof.
  cbv zeta. unfold downloadAll. destruct (Nat.eqb _ 0); [reflexivity|].
  unfold bind at 1, tick. simpl.
  destruct (Env.generateAsync env _ _); reflexivity.
Qed.

(** C8 -- when some item is completed and the generation of the archive
    does not throw, [downloadAll] hands over an archive that holds, under
    each name, the bytes of the last completed item of that name; when the
    names of the completed items are pairwise distinct its entries are
    exactly their (name, bytes) pairs, one per completed item. *)
Theorem archive_contents env s (w : World.t) (content : Blob.t) :
  let completed := List.filter isCompleted (World.queue w) in
  let es := entries (getExtension s) completed in
  completed <> [] ->
  Env.generateAsync env (World.clock w) (buildZip (getExtension s) completed)
  = Some content ->
  exists arch,
    fst (downloadAll env s w) = Some arch
    /\ Archive.content arch = content
    /\ length es = length completed
    /\ (forall n, Archive.files arch !! n = lastEntry n es)
    /\ (NoDup (List.map fst es) ->
        size (Archive.files arch) = length completed
        /\ map_to_list (Archive.files arch) ≡ₚ es).
Proof.
  cbv zeta. intros Hne Hgen.
  exists (Archive.mk "cleave_batch.zip"
            (buildZip (getExtension s) (List.filter isCompleted (World.queue w)))
            content).
  split.
  { rewrite downloadAll_result. cbv zeta. rewrite Hgen.
    destruct (List.filter isCompleted (World.queue w)); [congruence | reflexivity]. }
  clear Hne Hgen. split; [reflexivity|].
  split; [apply entries_length|]. simpl Archive.files.
  split; [intros n; apply buildZip_lookup|].
  intros Hnd.
  assert (map_to_list (buildZip (getExtension s) (List.filter isCompleted (World.queue w)))
          ≡ₚ entries (getExtension s) (List.filter isCompleted (World.queue w))) as Hp.
  { rewrite buildZip_entries.
    rewrite map_to_list_to_map.
    - symmetry. apply Permutation_rev.
    - change (NoDup (List.map fst
                (rev (entries (getExtension s)
                        (List.filter isCompleted (World.queue w)))))).
      rewrite map_rev, <- Permutation_rev. exact Hnd. }
  split; [|exact Hp].
  rewrite <- length_map_to_list, Hp. apply entries_length.
Qed.

(** ** One turn of the loop *)

Lemma annotate_run env s item w :
  fst (annotate env s item w) = annotation env s item (World.clock w)
  /\ World.queue (snd (annotate env s item w)) = World.queue w
  /\ World.created (snd (annotate env s item w)) = World.created w
  /\ World.revoked (snd (annotate env s item w)) = World.revoked w
  /\ World.clock w <= World.clock (snd (annotate env s item w)).
Proof.
  unfold annotate, annotation.
  destruct (ConversionSettings.useAIAnalysis s); [|simpl; auto].
  unfold bind, tick. simpl.
  destruct (Env.blobToBase64 env (World.clock w) (QueueItem.file item)); simpl.
  - destruct (Env.analyzeImage env _ _ _); simpl; repeat split; auto.
  - repeat split; auto.
Qed.

Lemma processItem_run env s item w :
  let w' := exec (processItem env s item) w in
  World.queue w'
  = List.map (updated (QueueItem.id item) (resolve env s item (World.clock w)))
             (World.queue w)
  /\ World.clock w < World.clock w'
  /\ World.revoked w' = World.revoked w
  /\ World.created w'
     = match convert env s (World.clock w) (QueueItem.file item) with
       | Some _ => ("blob:" +:+ Env.objectUuid env (S (World.clock w)))
                   :: World.created w
       | None => World.created w
       end.
Proof.
  cbv zeta. unfold processItem, resolve. rewrite !exec_bind.
  change (fst (tick w)) with (World.clock w).
  destruct (convert env s (World.clock w) (QueueItem.file item)) as [blob|].
  - rewrite !exec_bind.
    set (w1 := snd (createObjectURL env (snd (tick w)))).
    destruct (annotate_run env s item w1) as (E1 & E2 & E3 & E4 & E5).
    rewrite E1. unfold updateById, setQueue, exec. simpl.
    rewrite E2, E3, E4. subst w1. simpl in *. repeat split. lia.
  - unfold updateById, setQueue, exec. simpl. repeat split. lia.
Qed.

Lemma markProcessing_run items w :
  exec (markProcessing items) w
  = World.mk
      (List.map (fun item => if selected items item
                             then QueueItem.withStatus PROCESSING item else item)
                (World.queue w))
      (World.clock w) (World.created w) (World.revoked w) (World.console w).
Proof. reflexivity. Qed.

(** ** The run, cut after [k] items *)

Lemma stateAfter_0 env s w :
  stateAfter env s 0 w = exec (markProcessing (itemsToProcess (World.queue w))) w.
Proof. reflexivity. Qed.

Lemma firstn_S_nth {A} (l : list A) k x :
  nth_error l k = Some x -> firstn (S k) l = firstn k l ++ [x].
Proof.
  revert l. induction k as [|k IH]; intros [|y l] H; try discriminate.
  - injection H as ->. reflexivity.
  - change (y :: firstn (S k) l = y :: (firstn k l ++ [x])).
    f_equal. apply IH, H.
Qed.

Lemma stateAfter_S env s k item w :
  nth_error (itemsToProcess (World.queue w)) k = Some item ->
  stateAfter env s (S k) w = exec (processItem env s item) (stateAfter env s k w).
Proof.
  intros Hk. unfold stateAfter. cbv zeta.
  rewrite (firstn_S_nth _ _ _ Hk), !exec_seq, exec_forEach_app, exec_forEach_cons.
  reflexivity.
Qed.

Lemma stateAfter_all env s w :
  exec (processBatch env s) w
  = stateAfter env s (length (itemsToProcess (World.queue w))) w.
Proof.
  unfold processBatch, stateAfter, exec. cbv beta zeta.
  rewrite firstn_all.
  destruct (itemsToProcess (World.queue w)) as [|x l] eqn:E; [|reflexivity].
  simpl. unfold bind, markProcessing, setQueue, ret. simpl.
  rewrite map_id. symmetry. apply world_eta.
Qed.

(** ** Looking items up by id *)

Lemma getItem_Some a q i :
  getItem a q = Some i -> In i q /\ QueueItem.id i = a.
Proof.
  intros H. apply find_some in H as [Hin Heq]. split; [exact Hin|].
  apply idEq_eq, Heq.
Qed.

Lemma getItem_None a q : getItem a q = None <-> ~ In a (ids q).
Proof.
  unfold getItem, ids. split.
  - intros H Hin. apply in_map_iff in Hin as (i & <- & Hin).
    apply (find_none _ _ H) in Hin. rewrite idEq_refl in Hin. discriminate.
  - intros H. destruct (List.find _ q) as [i|] eqn:E; [|reflexivity].
    apply find_some in E as [Hin Heq]. apply idEq_eq in Heq. subst a.
    exfalso. apply H, in_map, Hin.
Qed.

Lemma getItem_map g a q :
  (forall i, QueueItem.id (g i) = QueueItem.id i) ->
  getItem a (List.map g q) = option_map g (getItem a q).
Proof.
  intros Hg. unfold getItem. induction q as [|x q IH]; simpl; [reflexivity|].
  rewrite Hg. destruct (idEq (QueueItem.id x) a); [reflexivity | exact IH].
Qed.

Lemma getItem_In_NoDup q i :
  NoDup (ids q) -> In i q -> getItem (QueueItem.id i) q = Some i.
Proof.
  unfold getItem, ids. induction q as [|x q IH]; intros Hnd Hin; [destruct Hin|].
  simpl in *. apply NoDup_cons in Hnd as [Hx Hnd].
  destruct Hin as [->|Hin]; [rewrite idEq_refl; reflexivity|].
  destruct (idEq (QueueItem.id x) (QueueItem.id i)) eqn:E; [|apply IH; assumption].
  apply idEq_eq in E. exfalso. apply Hx. rewrite E.
  apply list_elem_of_In, in_map, Hin.
Qed.

Lemma ids_map g q :
  (forall i, QueueItem.id (g i) = QueueItem.id i) -> ids (List.map g q) = ids q.
Proof.
  intros Hg. unfold ids. rewrite map_map. apply map_ext, Hg.
Qed.

Lemma updated_id a f i :
  (forall x, QueueItem.id (f x) = QueueItem.id x) ->
  QueueItem.id (updated a f i) = QueueItem.id i.
Proof. intros Hf. unfold updated. destruct (idEq _ a); [apply Hf | reflexivity]. Qed.

Lemma resolve_id env s item n i :
  QueueItem.id (resolve env s item n i) = QueueItem.id i.
Proof. unfold resolve. destruct (convert env s n _); reflexivity. Qed.

Lemma resolve_status env s item n i :
  QueueItem.status (resolve env s item n i)
  = match convert env s n (QueueItem.file item) with
    | Some _ => COMPLETE
    | None => ERROR
    end.
Proof. unfold resolve. destruct (convert env s n _); reflexivity. Qed.

Lemma mark_id items i :
  QueueItem.id (if selected items i then QueueItem.withStatus PROCESSING i else i)
  = QueueItem.id i.
Proof. destruct (selected items i); reflexivity. Qed.

Lemma ids_itemsToProcess_sublist q : sublist (ids (itemsToProcess q)) (ids q).
Proof.
  unfold ids, itemsToProcess. induction q as [|x q IH]; simpl; [constructor|].
  destruct (isPending x); simpl; [apply sublist_skip | apply sublist_cons]; exact IH.
Qed.

Lemma NoDup_ids_itemsToProcess q : NoDup (ids q) -> NoDup (ids (itemsToProcess q)).
Proof. intros H. exact (sublist_NoDup _ _ H (ids_itemsToProcess_sublist q)). Qed.

Lemma nth_error_ids_inj items :
  NoDup (ids items) ->
  forall j k a b,
    nth_error items j = Some a -> nth_error items k = Some b ->
    QueueItem.id a = QueueItem.id b -> j = k.
Proof.
  unfold ids. induction items as [|x l IH]; intros Hnd j k a b Ha Hb E.
  - destruct j; discriminate.
  - simpl in Hnd. apply NoDup_cons in Hnd as [Hx Hnd].
    destruct j as [|j], k as [|k]; simpl in *.
    + reflexivity.
    + injection Ha as ->. exfalso. apply Hx. rewrite E.
      apply list_elem_of_In, in_map. eapply nth_error_In, Hb.
    + injection Hb as ->. exfalso. apply Hx. rewrite <- E.
      apply list_elem_of_In, in_map. eapply nth_error_In, Ha.
    + f_equal. eapply IH; eauto.
Qed.

(** ** The queue along an uninterrupted run *)

Lemma nth_error_lt {A} (l : list A) j x :
  nth_error l j = Some x -> j < length l.
Proof. intros H. apply nth_error_Some. congruence. Qed.

Lemma nth_itemsToProcess_In q j item :
  nth_error (itemsToProcess q) j = Some item -> In item q.
Proof.
  intros H. apply nth_error_In in H. apply In_itemsToProcess in H as [H _]. exact H.
Qed.

(** The entry of the [j]-th selected item after [k] turns: resolved by
    its own turn when that turn is over, marked and waiting otherwise. *)
Lemma batch_item_at env s w :
  NoDup (ids (World.queue w)) ->
  forall k j item,
    k <= length (itemsToProcess (World.queue w)) ->
    nth_error (itemsToProcess (World.queue w)) j = Some item ->
    getItem (QueueItem.id item) (World.queue (stateAfter env s k w))
    = Some (if Nat.ltb j k
            then resolve env s item (World.clock (stateAfter env s j w))
                   (QueueItem.withStatus PROCESSING item)
            else QueueItem.withStatus PROCESSING item).
Proof.
  intros Hnd k. induction k as [|k IH]; intros j item Hk Hj.
  - rewrite stateAfter_0, markProcessing_run. simpl World.queue.
    rewrite getItem_map by (intros; apply mark_id).
    rewrite (getItem_In_NoDup _ _ Hnd (nth_itemsToProcess_In _ _ _ Hj)).
    simpl. rewrite (selected_In _ _ (nth_error_In _ _ Hj)). reflexivity.
  - destruct (nth_error (itemsToProcess (World.queue w)) k) as [itk|] eqn:Ek.
    2:{ apply nth_error_None in Ek. lia. }
    rewrite (stateAfter_S _ _ _ _ _ Ek).
    destruct (processItem_run env s itk (stateAfter env s k w)) as (Eq & _).
    rewrite Eq, getItem_map by (intros; apply updated_id; intros; apply resolve_id).
    rewrite (IH j item) by (lia || assumption). simpl option_map. f_equal.
    unfold updated.
    assert (QueueItem.id
              (if Nat.ltb j k
               then resolve env s item (World.clock (stateAfter env s j w))
                      (QueueItem.withStatus PROCESSING item)
               else QueueItem.withStatus PROCESSING item)
            = QueueItem.id item) as Hid.
    { destruct (Nat.ltb j k); [rewrite resolve_id|]; reflexivity. }
    rewrite Hid.
    destruct (idEq (QueueItem.id item) (QueueItem.id itk)) eqn:E.
    + apply idEq_eq in E.
      pose proof (nth_error_ids_inj _ (NoDup_ids_itemsToProcess _ Hnd)
                    _ _ _ _ Hj Ek E) as ->.
      assert (item = itk) as -> by congruence.
      rewrite Nat.ltb_irrefl. rewrite (proj2 (Nat.ltb_lt k (S k))) by lia.
      reflexivity.
    + apply idEq_neq in E.
      assert (j <> k) as Hjk by (intros ->; apply E; congruence).
      destruct (Nat.ltb_spec j k), (Nat.ltb_spec j (S k)); try reflexivity; lia.
Qed.

(** What the run never touches: the log of revocations, and the entries
    whose id is not among the selected ones. *)
Lemma run_frame_at env s w k :
  k <= length (itemsToProcess (World.queue w)) ->
  World.revoked (stateAfter env s k w) = World.revoked w
  /\ World.clock w <= World.clock (stateAfter env s k w)
  /\ exists g,
       World.queue (stateAfter env s k w) = List.map g (World.queue w)
       /\ (forall i, QueueItem.id (g i) = QueueItem.id i)
       /\ (forall i, ~ In (QueueItem.id i) (ids (itemsToProcess (World.queue w)))
                     -> g i = i).
Proof.
  induction k as [|k IH]; intros Hk.
  - rewrite stateAfter_0, markProcessing_run. simpl.
    split; [reflexivity|]. split; [lia|].
    eexists. split; [reflexivity|]. split; [intros; apply mark_id|].
    intros i Hi. destruct (selected _ i) eqn:E; [|reflexivity].
    apply selected_ids in E. contradiction.
  - destruct (nth_error (itemsToProcess (World.queue w)) k) as [itk|] eqn:Ek.
    2:{ apply nth_error_None in Ek. lia. }
    rewrite (stateAfter_S _ _ _ _ _ Ek).
    destruct (processItem_run env s itk (stateAfter env s k w)) as (Eq & Ec & Er & _).
    destruct IH as (IHr & IHc & g & IHq & IHid & IHfix); [lia|].
    rewrite Er, Eq. split; [exact IHr|]. split; [lia|].
    exists (fun i => updated (QueueItem.id itk)
                       (resolve env s itk (World.clock (stateAfter env s k w))) (g i)).
    split; [rewrite IHq, map_map; reflexivity|]. split.
    + intros i. rewrite updated_id by (intros; apply resolve_id). apply IHid.
    + intros i Hi. rewrite (IHfix i Hi). unfold updated.
      destruct (idEq _ _) eqn:E; [|reflexivity].
      apply idEq_eq in E. exfalso. apply Hi. rewrite E.
      apply in_map. eapply nth_error_In, Ek.
Qed.

Lemma stateAfter_clock_lt env s w k item :
  nth_error (itemsToProcess (World.queue w)) k = Some item ->
  World.clock (stateAfter env s k w) < World.clock (stateAfter env s (S k) w).
Proof.
  intros Ek. rewrite (stateAfter_S _ _ _ _ _ Ek).
  apply (processItem_run env s item (stateAfter env s k w)).
Qed.

(** C1 -- in an uninterrupted run over a queue with distinct ids, what
    becomes of a selected item depends on its own conversion only: it ends
    [ERROR] with the message [Failed] when the conversion called in its
    turn fails, [COMPLETE] with the converted bytes when it succeeds,
    whatever happened to the items before it. *)
Theorem batch_failure_isolation env s (w : World.t) (j : nat) (item : QueueItem.t) :
  NoDup (ids (World.queue w)) ->
  nth_error (itemsToProcess (World.queue w)) j = Some item ->
  exists final,
    getItem (QueueItem.id item) (World.queue (exec (processBatch env s) w))
    = Some final
    /\ ids (World.queue (exec (processBatch env s) w)) = ids (World.queue w)
    /\ match convert env s (World.clock (stateAfter env s j w))
               (QueueItem.file item) with
       | None =>
           QueueItem.status final = ERROR
           /\ QueueItem.error final = Some "Failed"
       | Some blob =>
           QueueItem.status final = COMPLETE
           /\ exists r, QueueItem.result final = Some r
                        /\ ProcessedResult.blob r = blob
       end.
Proof.
  intros Hnd Hj. eexists. split; [|split].
  - rewrite stateAfter_all.
    rewrite (batch_item_at env s w Hnd _ j item (le_n _) Hj).
    rewrite (proj2 (Nat.ltb_lt _ _)) by (eapply nth_error_lt, Hj).
    reflexivity.
  - rewrite stateAfter_all.
    destruct (run_frame_at env s w _ (le_n _)) as (_ & _ & g & Eq & Hid & _).
    rewrite Eq. apply ids_map, Hid.
  - unfold resolve.
    destruct (convert env s _ _); simpl; [|split; reflexivity].
    split; [reflexivity|]. eexists. split; reflexivity.
Qed.

Lemma annotation_failed env s item n :
  annotationFails env item n -> annotation env s item n = ("", []).
Proof.
  unfold annotationFails, annotation. intros H.
  destruct (ConversionSettings.useAIAnalysis s); [|reflexivity].
  destruct (Env.blobToBase64 env n _); [|reflexivity].
  rewrite H. reflexivity.
Qed.

(** C5 -- with annotation switched on, a selected item whose conversion
    succeeds while the annotation of its turn fails (the encoding of the
    file or the remote call throws) ends the run [COMPLETE], holding the
    converted bytes with an empty description and no tags; it is never
    [ERROR]. *)
Theorem annotation_failure_isolation env s (w : World.t) (j : nat)
    (item : QueueItem.t) (blob : Blob.t) :
  let n := World.clock (stateAfter env s j w) in
  NoDup (ids (World.queue w)) ->
  nth_error (itemsToProcess (World.queue w)) j = Some item ->
  ConversionSettings.useAIAnalysis s = true ->
  convert env s n (QueueItem.file item) = Some blob ->
  annotationFails env item (S (S n)) ->
  getItem (QueueItem.id item) (World.queue (exec (processBatch env s) w))
  = Some (QueueItem.mk (QueueItem.id item) (QueueItem.file item)
            (QueueItem.previewUrl item) (QueueItem.originalSize item)
            COMPLETE
            (Some (ProcessedResult.mk blob
                     ("blob:" +:+ Env.objectUuid env (S n))
                     (Blob.size blob) "" []))
            (QueueItem.error item)).
Proof.
  cbv zeta. intros Hnd Hj _ Hc Ha.
  rewrite stateAfter_all.
  rewrite (batch_item_at env s w Hnd _ j item (le_n _) Hj).
  rewrite (proj2 (Nat.ltb_lt _ _)) by (eapply nth_error_lt, Hj).
  unfold resolve. rewrite Hc, (annotation_failed env s item _ Ha). reflexivity.
Qed.

(** ** Removal and release *)

Lemma revocable_item i :
  revocable i
  = (if Js.truthy (QueueItem.previewUrl i) then [QueueItem.previewUrl i] else [])
    ++ match resultUrl i with
       | Some u => if Js.truthy u then [u] else []
       | None => []
       end.
Proof.
  unfold revocable, handles, resultUrl. simpl.
  destruct (Js.truthy (QueueItem.previewUrl i)); destruct (QueueItem.result i); simpl;
    try destruct (Js.truthy _); reflexivity.
Qed.

Lemma revoke_item_run i w :
  exec (revokeIfSet (resultUrl i)) (exec (revokeIfSet (Some (QueueItem.previewUrl i))) w)
  = revokeAll (revocable i) w.
Proof.
  rewrite revocable_item. unfold revokeIfSet, revokeAll.
  destruct (Js.truthy (QueueItem.previewUrl i)); destruct (resultUrl i) as [u|];
    try destruct (Js.truthy u); unfold exec, revokeObjectURL, ret; simpl;
    try reflexivity; try (symmetry; apply world_eta).
  all: destruct w; reflexivity.
Qed.

Lemma handleOk_revocable i : handleOk i -> revocable i = handles i.
Proof.
  unfold handleOk, revocable. generalize (handles i).
  induction 1 as [|u us Hu _ IH]; simpl; [reflexivity|]. rewrite Hu, IH. reflexivity.
Qed.

Lemma removeItem_run id w :
  exec (removeItem id) w
  = World.mk
      (List.filter (fun i => negb (idEq (QueueItem.id i) id)) (World.queue w))
      (World.clock w) (World.created w)
      (match getItem id (World.queue w) with
       | Some item => rev (revocable item)
       | None => []
       end ++ World.revoked w)
      (World.console w).
Proof.
  unfold removeItem, exec at 1. cbv beta zeta. fold (getItem id (World.queue w)).
  match goal with |- snd (?c w) = _ => change (snd (c w)) with (exec c w) end.
  rewrite !exec_seq.
  destruct (getItem id (World.queue w)) as [item|].
  - simpl option_map. rewrite revoke_item_run. reflexivity.
  - reflexivity.
Qed.

Lemma clear_loop_run (l : list QueueItem.t) w :
  exec (forEach l (fun item =>
          revokeIfSet (Some (QueueItem.previewUrl item)) ;;
          revokeIfSet (resultUrl item))) w
  = revokeAll (flat_map revocable l) w.
Proof.
  revert w. induction l as [|x l IH]; intros w.
  - unfold revokeAll. simpl. symmetry. apply world_eta.
  - rewrite exec_forEach_cons, exec_seq, revoke_item_run, IH. unfold revokeAll. simpl.
    rewrite rev_app_distr, <- app_assoc. reflexivity.
Qed.

Lemma clearQueue_run w :
  exec clearQueue w
  = World.mk [] (World.clock w) (World.created w)
      (rev (flat_map revocable (World.queue w)) ++ World.revoked w)
      (World.console w).
Proof.
  unfold clearQueue, exec at 1. cbv beta.
  match goal with |- snd (?c w) = _ => change (snd (c w)) with (exec c w) end.
  rewrite exec_seq, clear_loop_run. reflexivity.
Qed.

Lemma downloadAll_run env s w :
  exec (downloadAll env s) w = w
  \/ exists us c l,
       (us = [] \/ exists u, us = [u])
       /\ World.clock w <= c
       /\ exec (downloadAll env s) w
          = World.mk (World.queue w) c (us ++ World.created w)
                     (us ++ World.revoked w) l.
Proof.
  unfold downloadAll, exec. cbv beta zeta.
  destruct (Nat.eqb _ 0); [left; reflexivity|].
  right. unfold bind at 1, tick. simpl.
  destruct (Env.generateAsync env _ _).
  - eexists [_], _, _. split; [right; eexists; reflexivity|].
    split; [|reflexivity]. simpl. lia.
  - exists [], (S (World.clock w)), ("ZIP Error" :: World.console w).
    split; [left; reflexivity|]. split; [lia | reflexivity].
Qed.

(** ** What every reachable world satisfies *)

Lemma init_inv env : WorldInv env World.init.
Proof.
  split; simpl; constructor.
Qed.

Lemma truthy_blob u : Js.truthy ("blob:" +:+ u) = true.
Proof. reflexivity. Qed.

Lemma freshItem_Lifecycle i : freshItem i -> Lifecycle i.
Proof.
  intros (Es & Er & Ee). unfold Lifecycle. rewrite Es, Er, Ee.
  repeat split; try discriminate; intros H; try (destruct H; discriminate).
Qed.

Lemma ids_same_id a b q :
  NoDup (ids q) -> In a q -> In b q -> QueueItem.id a = QueueItem.id b -> a = b.
Proof.
  intros Hnd Ha Hb E.
  pose proof (getItem_In_NoDup q a Hnd Ha) as Ga.
  pose proof (getItem_In_NoDup q b Hnd Hb) as Gb.
  rewrite E in Ga. congruence.
Qed.

Lemma owned_cons x q : owned (x :: q) = handles x ++ owned q.
Proof. reflexivity. Qed.

Lemma owned_app q1 q2 : owned (q1 ++ q2) = owned q1 ++ owned q2.
Proof. unfold owned. apply flat_map_app. Qed.

Lemma owned_fresh its :
  Forall freshItem its -> owned its = List.map QueueItem.previewUrl its.
Proof.
  induction 1 as [|i its (_ & Er & _) _ IH]; [reflexivity|].
  rewrite owned_cons, IH. unfold handles. rewrite Er. reflexivity.
Qed.

Lemma owned_map_same g q :
  (forall i, handles (g i) = handles i) -> owned (List.map g q) = owned q.
Proof.
  intros Hg. induction q as [|x q IH]; [reflexivity|].
  rewrite map_cons, !owned_cons, Hg, IH. reflexivity.
Qed.

Lemma map_updated_absent a f q :
  ~ In a (ids q) -> List.map (updated a f) q = q.
Proof.
  unfold ids. induction q as [|x q IH]; simpl; intros H; [reflexivity|].
  unfold updated at 1. destruct (idEq (QueueItem.id x) a) eqn:E.
  - apply idEq_eq in E. exfalso. apply H. left. exact E.
  - rewrite IH; [reflexivity|]. intros Hin. apply H. right. exact Hin.
Qed.

Lemma ids_cons x q : ids (x :: q) = QueueItem.id x :: ids q.
Proof. reflexivity. Qed.

Lemma NoDup_ids_cons x q :
  NoDup (ids (x :: q)) -> ~ In (QueueItem.id x) (ids q) /\ NoDup (ids q).
Proof.
  rewrite ids_cons. intros H. apply NoDup_cons in H as [Hx Hnd].
  split; [|exact Hnd]. intros Hin. apply Hx, list_elem_of_In, Hin.
Qed.

(** Giving a result to the one entry of that id adds its URL to the
    handles held by the queue. *)
Lemma owned_resolved a r q :
  NoDup (ids q) -> In a (ids q) ->
  (forall i, In i q -> QueueItem.id i = a -> QueueItem.result i = None) ->
  owned (List.map (updated a (QueueItem.withResult r)) q)
  ≡ₚ ProcessedResult.url r :: owned q.
Proof.
  induction q as [|x q IH]; intros Hnd Hin Hnone; [destruct Hin|].
  apply NoDup_ids_cons in Hnd as [Hx Hnd].
  rewrite map_cons, !owned_cons. unfold updated at 1.
  destruct (idEq (QueueItem.id x) a) eqn:E.
  - apply idEq_eq in E. subst a.
    rewrite (map_updated_absent _ _ _ Hx).
    unfold handles. simpl.
    rewrite (Hnone x (or_introl eq_refl) eq_refl). simpl. apply perm_swap.
  - apply idEq_neq in E. destruct Hin as [Hin|Hin]; [contradiction|].
    rewrite IH; [|assumption|assumption|intros i Hi; apply Hnone; right; exact Hi].
    symmetry. apply Permutation_middle.
Qed.

Lemma filter_absent id q :
  ~ In id (ids q) ->
  List.filter (fun i => negb (idEq (QueueItem.id i) id)) q = q.
Proof.
  unfold ids. induction q as [|x q IH]; simpl; intros H; [reflexivity|].
  destruct (idEq (QueueItem.id x) id) eqn:E; simpl.
  - apply idEq_eq in E. exfalso. apply H. left. exact E.
  - rewrite IH; [reflexivity|]. intros Hin. apply H. right. exact Hin.
Qed.

(** Removing the one entry of that id gives its handles back. *)
Lemma owned_removed item q :
  NoDup (ids q) -> In item q ->
  owned q
  ≡ₚ handles item
     ++ owned (List.filter (fun i => negb (idEq (QueueItem.id i) (QueueItem.id item))) q).
Proof.
  induction q as [|x q IH]; intros Hnd Hin; [destruct Hin|].
  apply NoDup_ids_cons in Hnd as [Hx Hnd]. rewrite owned_cons.
  destruct Hin as [->|Hin].
  - simpl List.filter. rewrite idEq_refl. simpl negb. cbv iota.
    rewrite (filter_absent _ _ Hx). reflexivity.
  - simpl List.filter.
    destruct (idEq (QueueItem.id x) (QueueItem.id item)) eqn:E; simpl negb; cbv iota.
    + apply idEq_eq in E. exfalso. apply Hx. rewrite E. apply in_map, Hin.
    + rewrite owned_cons, (IH Hnd Hin), !app_assoc.
      apply Permutation_app_tail, Permutation_app_comm.
Qed.

Lemma ids_filter_sublist p q : sublist (ids (List.filter p q)) (ids q).
Proof.
  unfold ids. induction q as [|x q IH]; simpl; [constructor|].
  destruct (p x); simpl; [apply sublist_skip | apply sublist_cons]; exact IH.
Qed.

Lemma Forall_filter_keep {A} (P : A -> Prop) p (l : list A) :
  Forall P l -> Forall P (List.filter p l).
Proof.
  intros H. apply Forall_forall. intros x Hx.
  apply list_elem_of_In, filter_In in Hx as [Hx _].
  rewrite Forall_forall in H. apply H, list_elem_of_In, Hx.
Qed.

(** ** Intake keeps the invariant *)

Lemma handleFiles_run env fs w :
  let its := fst (mapM (newItem env) (List.filter isImage fs) w) in
  let w' := exec (handleFiles env (Some fs)) w in
  World.queue w' = World.queue w ++ its
  /\ World.clock w' = World.clock w + 2 * length (List.filter isImage fs)
  /\ World.created w' = rev (List.map QueueItem.previewUrl its) ++ World.created w
  /\ World.revoked w' = World.revoked w.
Proof.
  cbv zeta. unfold handleFiles. rewrite exec_bind. unfold exec, setQueue. simpl.
  destruct (mapM_newItem env (List.filter isImage fs) w)
    as (_ & _ & E3 & E4 & E5 & E6 & _).
  rewrite E3. auto.
Qed.

Lemma ids_app q1 q2 : ids (q1 ++ q2) = ids q1 ++ ids q2.
Proof. unfold ids. apply map_app. Qed.

Lemma handleFiles_inv env n files w :
  collisionFree env n ->
  World.clock (exec (handleFiles env files) w) <= n ->
  WorldInv env w -> WorldInv env (exec (handleFiles env files) w).
Proof.
  intros Hcf Hn Hinv. destruct files as [fs|]; [|exact Hinv].
  destruct (handleFiles_run env fs w) as (Eq & Ec & Ecr & Er).
  destruct (mapM_newItem env (List.filter isImage fs) w)
    as (_ & Hfresh & _ & _ & _ & _ & Hblob & Hids).
  set (its := fst (mapM (newItem env) (List.filter isImage fs) w)) in *.
  set (m := length (List.filter isImage fs)) in *.
  rewrite Ec in Hn. clearbody m its.
  destruct Hinv as [Hnd Hmint Hlife Hh Hled].
  assert (forall a, In a (ids its)
                    -> exists k, k < m /\ a = Env.randomId env (World.clock w + 2 * k))
    as Hnew.
  { intros a Ha. rewrite Hids in Ha. apply in_map_iff in Ha as (k & <- & Hk).
    apply in_seq in Hk. exists k. split; [lia | reflexivity]. }
  split.
  - rewrite Eq, ids_app. apply NoDup_app. split; [exact Hnd|]. split.
    + intros a Ha Ha'. apply list_elem_of_In in Ha, Ha'.
      unfold Minted in Hmint. rewrite Forall_forall in Hmint.
      destruct (Hmint a (proj2 (list_elem_of_In _ _) Ha)) as (k0 & Hk0 & E0).
      destruct (Hnew a Ha') as (k & Hk & E).
      assert (k0 = World.clock w + 2 * k) by (apply Hcf; [lia | lia | congruence]).
      lia.
    + rewrite Hids.
      apply (NoDup_fmap_2_strong
               (fun k => Env.randomId env (World.clock w + 2 * k))).
      * intros x y Hx Hy E.
        apply list_elem_of_In, in_seq in Hx. apply list_elem_of_In, in_seq in Hy.
        assert (World.clock w + 2 * x = World.clock w + 2 * y)
          by (apply Hcf; [lia | lia | exact E]).
        lia.
      * apply NoDup_seq.
  - unfold Minted in *. rewrite Eq, Ec, ids_app. apply Forall_app. split.
    + eapply Forall_impl; [exact Hmint|]. cbv beta. intros a (k & Hk & E).
      exists k. split; [lia | exact E].
    + apply Forall_forall. intros a Ha. apply list_elem_of_In in Ha.
      destruct (Hnew a Ha) as (k & Hk & E). exists (World.clock w + 2 * k).
      split; [lia | exact E].
  - rewrite Eq. apply Forall_app. split; [exact Hlife|].
    eapply Forall_impl; [exact Hfresh|]. apply freshItem_Lifecycle.
  - rewrite Eq. apply Forall_app. split; [exact Hh|].
    apply Forall_forall. intros i Hi.
    rewrite Forall_forall in Hfresh, Hblob.
    destruct (Hfresh i Hi) as (_ & Eres & _). destruct (Hblob i Hi) as [u Eu].
    unfold handleOk, handles. rewrite Eres, Eu. repeat constructor.
  - unfold Ledger in *. rewrite Ecr, Er, Eq, owned_app, (owned_fresh _ Hfresh).
    rewrite <- Permutation_rev, Hled, (app_assoc (World.revoked w)).
    apply Permutation_app_comm.
Qed.

(** ** Removal keeps the invariant *)

Lemma removeItem_inv env id w :
  WorldInv env w -> WorldInv env (exec (removeItem id) w).
Proof.
  intros [Hnd Hmint Hlife Hh Hled]. rewrite removeItem_run. split; simpl.
  - exact (sublist_NoDup _ _ Hnd (ids_filter_sublist _ _)).
  - unfold Minted in *. simpl.
    rewrite Forall_forall in Hmint. apply Forall_forall. intros a Ha.
    apply Hmint. eapply elem_of_sublist; [exact Ha | apply ids_filter_sublist].
  - apply Forall_filter_keep, Hlife.
  - apply Forall_filter_keep, Hh.
  - unfold Ledger in *. simpl.
    destruct (getItem id (World.queue w)) as [item|] eqn:G.
    + apply getItem_Some in G as [Hin <-].
      rewrite Forall_forall in Hh.
      rewrite (handleOk_revocable item (Hh item (proj2 (list_elem_of_In _ _) Hin))).
      rewrite Hled, (owned_removed item _ Hnd Hin).
      rewrite <- Permutation_rev, !app_assoc.
      apply Permutation_app_tail, Permutation_app_comm.
    + apply getItem_None in G. rewrite (filter_absent _ _ G). exact Hled.
Qed.

Lemma owned_revocable q : Forall handleOk q -> flat_map revocable q = owned q.
Proof.
  induction 1 as [|x q Hx _ IH]; [reflexivity|].
  rewrite owned_cons. simpl. rewrite (handleOk_revocable x Hx), IH. reflexivity.
Qed.

Lemma clearQueue_inv env w : WorldInv env w -> WorldInv env (exec clearQueue w).
Proof.
  intros [Hnd Hmint Hlife Hh Hled]. rewrite clearQueue_run.
  split; simpl; try constructor.
  unfold Ledger in *. simpl.
  rewrite (owned_revocable _ Hh), app_nil_r, Hled, <- Permutation_rev.
  apply Permutation_app_comm.
Qed.

Lemma downloadAll_inv env s w :
  WorldInv env w -> WorldInv env (exec (downloadAll env s) w).
Proof.
  intros Hinv.
  destruct (downloadAll_run env s w) as [->|(us & c & l & Hus & Hc & ->)];
    [exact Hinv|].
  destruct Hinv as [Hnd Hmint Hlife Hh Hled]. split; simpl; try assumption.
  - unfold Minted in *. simpl. eapply Forall_impl; [exact Hmint|].
    simpl. intros a (k & Hk & E). exists k. split; [lia | exact E].
  - unfold Ledger in *. simpl. rewrite Hled, app_assoc. reflexivity.
Qed.

(** ** A run keeps the invariant, at every turn *)

Lemma not_is_Some_None {A} (o : option A) : ~ is_Some o -> o = None.
Proof. destruct o; [intros H; exfalso; apply H; eexists; reflexivity | reflexivity]. Qed.

Lemma mark_Lifecycle i :
  Lifecycle i -> isPending i = true ->
  Lifecycle (QueueItem.withStatus PROCESSING i).
Proof.
  intros (Hr & He & Hi & Hm) Hp. apply isPending_spec in Hp.
  unfold Lifecycle. simpl. repeat split; try discriminate; try exact Hm.
  intros Hs. apply Hr in Hs. destruct Hp as [E|E]; congruence.
Qed.

Lemma resolve_Lifecycle env s item n i :
  Lifecycle i -> QueueItem.status i = PROCESSING ->
  Lifecycle (resolve env s item n i).
Proof.
  intros (Hr & He & Hi & Hm) Hp. unfold resolve, Lifecycle.
  destruct (convert env s n _); simpl.
  - repeat split; try discriminate; try exact Hm. intros _. eexists; reflexivity.
  - repeat split; try discriminate; try reflexivity.
    intros Hs. apply Hr in Hs. congruence.
Qed.

Lemma resolve_handleOk env s item n i :
  handleOk i -> handleOk (resolve env s item n i).
Proof.
  unfold handleOk, resolve, handles. intros H.
  destruct (convert env s n _); simpl; [|exact H].
  apply Forall_cons in H as [H _]. repeat constructor. exact H.
Qed.

Lemma selected_pending q i :
  NoDup (ids q) -> In i q -> selected (itemsToProcess q) i = true ->
  isPending i = true.
Proof.
  intros Hnd Hin Hsel. apply selected_ids in Hsel.
  apply in_map_iff in Hsel as (x & Ex & Hx).
  apply filter_In in Hx as [Hx Hp].
  rewrite <- (ids_same_id x i q Hnd Hx Hin Ex). exact Hp.
Qed.

Lemma Forall_map_in {A} (P : A -> Prop) (g : A -> A) (l : list A) :
  (forall x, In x l -> P (g x)) -> Forall P (List.map g l).
Proof.
  intros H. apply Forall_forall. intros y Hy.
  apply list_elem_of_In, in_map_iff in Hy as (x & <- & Hx). apply H, Hx.
Qed.

Lemma Forall_In {A} (P : A -> Prop) (l : list A) x : Forall P l -> In x l -> P x.
Proof. intros H Hx. rewrite Forall_forall in H. apply H, list_elem_of_In, Hx. Qed.

Lemma Minted_same env w w' :
  ids (World.queue w') = ids (World.queue w) ->
  World.clock w <= World.clock w' ->
  Minted env w -> Minted env w'.
Proof.
  unfold Minted. intros -> Hc H. eapply Forall_impl; [exact H|].
  cbv beta. intros a (k & Hk & E). exists k. split; [lia | exact E].
Qed.

Lemma stateAfter_inv env s w k :
  WorldInv env w ->
  k <= length (itemsToProcess (World.queue w)) ->
  WorldInv env (stateAfter env s k w).
Proof.
  intros Hinv. induction k as [|k IH]; intros Hk.
  - destruct Hinv as [Hnd Hmint Hlife Hh Hled].
    rewrite stateAfter_0, markProcessing_run. split; simpl.
    + rewrite ids_map by (intros; apply mark_id). exact Hnd.
    + eapply Minted_same; [| |exact Hmint]; simpl;
        [apply ids_map; intros; apply mark_id | lia].
    + apply Forall_map_in. intros i Hi.
      pose proof (Forall_In _ _ _ Hlife Hi) as Li.
      destruct (selected _ i) eqn:Es; [|exact Li].
      apply mark_Lifecycle; [exact Li|]. eapply selected_pending; eassumption.
    + apply Forall_map_in. intros i Hi.
      pose proof (Forall_In _ _ _ Hh Hi) as Li.
      destruct (selected _ i); exact Li.
    + unfold Ledger in *. simpl. rewrite owned_map_same; [exact Hled|].
      intros i. destruct (selected _ i); reflexivity.
  - destruct (nth_error (itemsToProcess (World.queue w)) k) as [itk|] eqn:Ek.
    2:{ apply nth_error_None in Ek. lia. }
    specialize (IH ltac:(lia)).
    pose proof (batch_item_at env s w (inv_nodup _ _ Hinv) k k itk ltac:(lia) Ek) as Hcur.
    rewrite Nat.ltb_irrefl in Hcur.
    rewrite (stateAfter_S _ _ _ _ _ Ek).
    destruct (processItem_run env s itk (stateAfter env s k w)) as (Eq & Ec & Er & Ecr).
    set (wk := stateAfter env s k w) in *.
    destruct IH as [Hnd Hmint Hlife Hh Hled].
    assert (forall i, In i (World.queue wk) ->
                      QueueItem.id i = QueueItem.id itk ->
                      QueueItem.status i = PROCESSING /\ QueueItem.result i = None)
      as Hturn.
    { intros i Hi E. pose proof (getItem_In_NoDup _ i Hnd Hi) as G.
      rewrite E, Hcur in G. injection G as <-. split; [reflexivity|].
      simpl. apply nth_error_In, In_itemsToProcess in Ek as [Hq Hp].
      destruct (Forall_In _ _ _ (inv_lifecycle _ _ Hinv) Hq) as (Hr & _).
      apply not_is_Some_None. intros Hs. apply Hr in Hs.
      destruct Hp as [E'|E']; congruence. }
    assert (ids (World.queue (exec (processItem env s itk) wk)) = ids (World.queue wk))
      as Eids.
    { rewrite Eq. apply ids_map. intros. apply updated_id. intros. apply resolve_id. }
    split.
    + rewrite Eids. exact Hnd.
    + eapply Minted_same; [exact Eids | lia | exact Hmint].
    + rewrite Eq. apply Forall_map_in. intros i Hi.
      pose proof (Forall_In _ _ _ Hlife Hi) as Li. unfold updated.
      destruct (idEq _ _) eqn:E; [|exact Li].
      apply idEq_eq in E. apply resolve_Lifecycle; [exact Li|]. apply (Hturn i Hi E).
    + rewrite Eq. apply Forall_map_in. intros i Hi.
      pose proof (Forall_In _ _ _ Hh Hi) as Li. unfold updated.
      destruct (idEq _ _); [apply resolve_handleOk|]; exact Li.
    + unfold Ledger in *. rewrite Er, Ecr, Eq. unfold resolve.
      destruct (convert env s (World.clock wk) (QueueItem.file itk)) as [blob|].
      * rewrite owned_resolved.
        -- simpl. rewrite Hled. apply Permutation_middle.
        -- exact Hnd.
        -- apply getItem_Some in Hcur as [Hin _].
           apply (in_map QueueItem.id) in Hin. exact Hin.
        -- intros i Hi E. apply (Hturn i Hi E).
      * rewrite owned_map_same; [exact Hled|].
        intros i. unfold updated. destruct (idEq _ _); reflexivity.
Qed.

Lemma processBatch_inv env s w :
  WorldInv env w -> WorldInv env (exec (processBatch env s) w).
Proof.
  intros H. rewrite stateAfter_all. apply stateAfter_inv; [exact H | lia].
Qed.

(** ** The clock only moves forward *)

Lemma step_clock env a w :
  World.clock w <= World.clock (exec (step env a) w).
Proof.
  destruct a as [files| id | | s | s]; cbn [step].
  - destruct files as [fs|]; [|cbn; lia].
    destruct (handleFiles_run env fs w) as (_ & E & _). rewrite E. lia.
  - rewrite removeItem_run. simpl. lia.
  - rewrite clearQueue_run. simpl. lia.
  - rewrite stateAfter_all. apply run_frame_at. lia.
  - rewrite exec_discard.
    destruct (downloadAll_run env s w) as [->|(us & c & l & _ & Hc & ->)];
      simpl; lia.
Qed.

Lemma run_clock env acts w :
  World.clock w <= World.clock (exec (run env acts) w).
Proof.
  revert w. induction acts as [|a acts IH]; intros w; [apply le_n|].
  unfold run. rewrite exec_forEach_cons.
  etransitivity; [apply (step_clock env a) | apply IH].
Qed.

Lemma step_inv env n a w :
  collisionFree env n ->
  World.clock (exec (step env a) w) <= n ->
  WorldInv env w -> WorldInv env (exec (step env a) w).
Proof.
  intros Hcf Hn Hinv. destruct a as [files| id | | s | s]; cbn [step] in *.
  - eapply handleFiles_inv; eassumption.
  - apply removeItem_inv, Hinv.
  - apply clearQueue_inv, Hinv.
  - apply processBatch_inv, Hinv.
  - rewrite exec_discard. apply downloadAll_inv, Hinv.
Qed.

Lemma run_inv env n acts w :
  collisionFree env n ->
  World.clock (exec (run env acts) w) <= n ->
  WorldInv env w -> WorldInv env (exec (run env acts) w).
Proof.
  intros Hcf. revert w. induction acts as [|a acts IH]; intros w Hn Hinv; [exact Hinv|].
  unfold run in *. rewrite exec_forEach_cons in *.
  apply IH; [exact Hn|]. eapply step_inv; [exact Hcf | | exact Hinv].
  etransitivity; [apply (run_clock env acts) | exact Hn].
Qed.

Lemma reachable_inv env acts :
  collisionFree env (World.clock (exec (run env acts) World.init)) ->
  WorldInv env (exec (run env acts) World.init).
Proof.
  intros Hcf. eapply run_inv; [exact Hcf | lia | apply init_inv].
Qed.

Lemma removeItem_absent id w :
  getItem id (World.queue w) = None -> exec (removeItem id) w = w.
Proof.
  intros G. rewrite removeItem_run, G.
  rewrite (filter_absent _ _ (proj1 (getItem_None _ _) G)). apply world_eta.
Qed.

Lemma removeItem_gone id w :
  ~ In id (ids (World.queue (exec (removeItem id) w))).
Proof.
  rewrite removeItem_run. simpl. unfold ids. intros H.
  apply in_map_iff in H as (i & E & Hi). apply filter_In in Hi as [_ Hi].
  rewrite E, idEq_refl in Hi. discriminate.
Qed.

(** C6 -- in every world reached from the empty queue by intakes,
    removals, clearings, uninterrupted batch runs and archive downloads,
    every URL minted so far is either revoked or held by a queued item,
    so the revocations number the mintings less the handles still held.
    Removing a queued id drops its item, leaves the others, and revokes
    its preview URL and then, when it has a result, its output URL;
    removing an id that is not queued changes nothing, hence removing
    twice is removing once; clearing empties the queue and leaves every
    minted URL revoked. *)
Theorem handle_release env (acts : list Action) :
  collisionFree env (World.clock (exec (run env acts) World.init)) ->
  let w := exec (run env acts) World.init in
  World.created w ≡ₚ World.revoked w ++ owned (World.queue w)
  /\ length (World.revoked w)
     = length (World.created w) - length (owned (World.queue w))
  /\ (forall id item,
        getItem id (World.queue w) = Some item ->
        let w' := exec (removeItem id) w in
        ~ In id (ids (World.queue w'))
        /\ (forall i, In i (World.queue w') <-> In i (World.queue w) /\ QueueItem.id i <> id)
        /\ World.revoked w' = rev (handles item) ++ World.revoked w
        /\ World.created w' = World.created w)
  /\ (forall id, getItem id (World.queue w) = None -> exec (removeItem id) w = w)
  /\ (forall id, exec (removeItem id) (exec (removeItem id) w) = exec (removeItem id) w)
  /\ (World.queue (exec clearQueue w) = []
      /\ World.created (exec clearQueue w) = World.created w
      /\ World.revoked (exec clearQueue w) ≡ₚ World.created w).
Proof.
  intros Hcf. cbv zeta. pose proof (reachable_inv env acts Hcf) as Hinv.
  set (w := exec (run env acts) World.init) in *.
  destruct Hinv as [Hnd Hmint Hlife Hh Hled]. unfold Ledger in Hled.
  split; [exact Hled|]. split.
  { apply Permutation_length in Hled. rewrite length_app in Hled. lia. }
  split.
  { intros id item G. split; [apply removeItem_gone|].
    rewrite removeItem_run, G. simpl. split; [|split; [|reflexivity]].
    - intros i. rewrite filter_In, negb_true_iff, idEq_neq. reflexivity.
    - apply getItem_Some in G as [Hin _].
      rewrite (handleOk_revocable _ (Forall_In _ _ _ Hh Hin)). reflexivity. }
  split; [intros id; apply removeItem_absent|]. split.
  { intros id. apply removeItem_absent, getItem_None, removeItem_gone. }
  rewrite clearQueue_run. simpl. split; [reflexivity|]. split; [reflexivity|].
  rewrite (owned_revocable _ Hh), <- Permutation_rev, Hled.
  apply Permutation_app_comm.
Qed.

(** ** Intakes during a run *)

Lemma Extends_refl w0 w1 : Extends w0 w1 w1.
Proof. intros p i _ H. exact H. Qed.

Lemma Extends_trans w0 w1 w2 w3 :
  Extends w0 w1 w2 -> Extends w0 w2 w3 -> Extends w0 w1 w3.
Proof. intros H12 H23 p i Hp H. apply H23, H12; assumption. Qed.

Lemma collisionFree_le env m n : m <= n -> collisionFree env n -> collisionFree env m.
Proof. intros Hmn H a b Ha Hb. apply H; lia. Qed.

Lemma During_length env w0 w1 :
  During env w0 w1 -> length (World.queue w0) <= length (World.queue w1).
Proof.
  intros [_ _ (g & Eg & _) _].
  apply (f_equal (@length _)) in Eg. rewrite length_firstn, length_map in Eg. lia.
Qed.

Lemma mark_During env w0 :
  Minted env w0 ->
  During env w0 (exec (markProcessing (itemsToProcess (World.queue w0))) w0).
Proof.
  intros Hm. rewrite markProcessing_run. split; simpl.
  - lia.
  - eapply Minted_same; [| |exact Hm]; simpl;
      [apply ids_map; intros; apply mark_id | lia].
  - eexists. split; [|split].
    + rewrite <- (length_map
        (fun item => if selected (itemsToProcess (World.queue w0)) item
                     then QueueItem.withStatus PROCESSING item else item)
        (World.queue w0)) at 1.
      apply firstn_all.
    + intros i. apply mark_id.
    + intros i Hi. cbv beta. destruct (selected _ i) eqn:E; [|reflexivity].
      apply selected_ids in E. contradiction.
  - rewrite <- (length_map
        (fun item => if selected (itemsToProcess (World.queue w0)) item
                     then QueueItem.withStatus PROCESSING item else item)
        (World.queue w0)) at 1.
    rewrite skipn_all. constructor.
Qed.

Lemma intake_ids env fs w a :
  In a (ids (fst (mapM (newItem env) (List.filter isImage fs) w))) ->
  exists k, k < length (List.filter isImage fs)
            /\ a = Env.randomId env (World.clock w + 2 * k).
Proof.
  destruct (mapM_newItem env (List.filter isImage fs) w)
    as (_ & _ & _ & _ & _ & _ & _ & Hids).
  rewrite Hids. intros Ha. apply in_map_iff in Ha as (k & <- & Hk).
  apply in_seq in Hk. exists k. split; [lia | reflexivity].
Qed.

Lemma selected_ids_minted env w0 a :
  Minted env w0 ->
  In a (ids (itemsToProcess (World.queue w0))) ->
  exists k, k < World.clock w0 /\ a = Env.randomId env k.
Proof.
  unfold Minted. intros Hm Ha. rewrite Forall_forall in Hm. apply Hm.
  eapply elem_of_sublist; [apply list_elem_of_In, Ha | apply ids_itemsToProcess_sublist].
Qed.

Lemma intake_During env n w0 w1 files :
  collisionFree env n ->
  World.clock (exec (handleFiles env files) w1) <= n ->
  Minted env w0 ->
  During env w0 w1 ->
  During env w0 (exec (handleFiles env files) w1)
  /\ Extends w0 w1 (exec (handleFiles env files) w1).
Proof.
  intros Hcf Hn Hm0 Hd. destruct files as [fs|]; [|split; [exact Hd | apply Extends_refl]].
  pose proof (During_length _ _ _ Hd) as Hlen.
  destruct Hd as [Hc Hm Hold Hnew].
  destruct (handleFiles_run env fs w1) as (Eq & Ec & _).
  pose proof (intake_ids env fs w1) as Hids.
  set (its := fst (mapM (newItem env) (List.filter isImage fs) w1)) in *.
  set (m := length (List.filter isImage fs)) in *.
  rewrite Ec in Hn. clearbody m its.
  split.
  - split.
    + lia.
    + unfold Minted in *. rewrite Eq, Ec, ids_app. apply Forall_app. split.
      * eapply Forall_impl; [exact Hm|]. cbv beta. intros a (k & Hk & E).
        exists k. split; [lia | exact E].
      * apply Forall_forall. intros a Ha. apply list_elem_of_In in Ha.
        destruct (Hids a Ha) as (k & Hk & E). exists (World.clock w1 + 2 * k).
        split; [lia | exact E].
    + rewrite Eq, firstn_app.
      replace (length (World.queue w0) - length (World.queue w1)) with 0 by lia.
      simpl firstn. rewrite app_nil_r. exact Hold.
    + rewrite Eq, skipn_app.
      replace (length (World.queue w0) - length (World.queue w1)) with 0 by lia.
      simpl (skipn 0 its). apply Forall_app. split; [exact Hnew|].
      apply Forall_forall. intros i Hi Hsel. apply list_elem_of_In in Hi.
      destruct (selected_ids_minted env w0 _ Hm0 Hsel) as (k0 & Hk0 & E0).
      destruct (Hids _ (in_map QueueItem.id _ _ Hi)) as (k & Hk & E).
      assert (k0 = World.clock w1 + 2 * k) by (apply Hcf; [lia | lia | congruence]).
      lia.
  - intros p i Hp Hi. rewrite Eq. rewrite nth_error_app1; [exact Hi|].
    eapply nth_error_lt, Hi.
Qed.

Lemma intakes_During env n w0 acts :
  collisionFree env n ->
  Minted env w0 ->
  Forall isIntake acts ->
  forall w1,
    World.clock (exec (run env acts) w1) <= n ->
    During env w0 w1 ->
    During env w0 (exec (run env acts) w1)
    /\ Extends w0 w1 (exec (run env acts) w1).
Proof.
  intros Hcf Hm0. induction 1 as [|a acts Ha _ IH]; intros w1 Hn Hd.
  - split; [exact Hd | apply Extends_refl].
  - unfold run in *. rewrite exec_forEach_cons in *.
    destruct a as [files| | | |]; try destruct Ha. cbn [step] in *.
    destruct (intake_During env n w0 w1 files Hcf) as [Hd1 He1];
      [etransitivity; [apply (run_clock env acts) | exact Hn] | exact Hm0 | exact Hd |].
    destruct (IH _ Hn Hd1) as [Hd2 He2].
    split; [exact Hd2 | eapply Extends_trans; eassumption].
Qed.

Lemma nth_error_firstn_lt {A} (l : list A) n p :
  p < n -> nth_error (firstn n l) p = nth_error l p.
Proof.
  revert n p. induction l as [|x l IH]; intros n p H.
  - destruct n; reflexivity.
  - destruct n; [lia|]. destruct p; simpl; [reflexivity | apply IH; lia].
Qed.

Lemma unselected_id w i :
  NoDup (ids (World.queue w)) -> In i (World.queue w) ->
  QueueItem.status i = COMPLETE \/ QueueItem.status i = PROCESSING ->
  ~ In (QueueItem.id i) (ids (itemsToProcess (World.queue w))).
Proof.
  intros Hnd Hin Hs Hsel. apply selected_ids in Hsel.
  apply (selected_pending _ _ Hnd Hin), isPending_spec in Hsel.
  destruct Hs as [E|E], Hsel as [E'|E']; congruence.
Qed.

(** ** The queue after some turns, entry by entry *)

Lemma In_nth_error_ex {A} (l : list A) x : In x l -> exists j, nth_error l j = Some x.
Proof. apply In_nth_error. Qed.

Lemma unpending_unselected q i :
  NoDup (ids q) -> In i q -> isPending i = false ->
  ~ In (QueueItem.id i) (ids (itemsToProcess q)).
Proof.
  intros Hnd Hin Hp Hsel. apply selected_ids in Hsel.
  rewrite (selected_pending _ _ Hnd Hin Hsel) in Hp. discriminate.
Qed.

(** The queue after [k] turns, entry by entry. *)
Lemma run_entries env s w k :
  NoDup (ids (World.queue w)) ->
  k <= length (itemsToProcess (World.queue w)) ->
  exists g,
    World.queue (stateAfter env s k w) = List.map g (World.queue w)
    /\ forall i, In i (World.queue w) ->
         (isPending i = false -> g i = i)
         /\ (isPending i = true ->
             exists j,
               nth_error (itemsToProcess (World.queue w)) j = Some i
               /\ g i = if Nat.ltb j k
                        then resolve env s i (World.clock (stateAfter env s j w))
                               (QueueItem.withStatus PROCESSING i)
                        else QueueItem.withStatus PROCESSING i).
Proof.
  intros Hnd Hk.
  destruct (run_frame_at env s w k Hk) as (_ & _ & g & Eq & Hid & Hfix).
  exists g. split; [exact Eq|]. intros i Hi. split.
  - intros Hp. apply Hfix. apply unpending_unselected; assumption.
  - intros Hp.
    assert (In i (itemsToProcess (World.queue w))) as Hin
      by (apply filter_In; split; assumption).
    destruct (In_nth_error_ex _ _ Hin) as [j Hj]. exists j. split; [exact Hj|].
    pose proof (batch_item_at env s w Hnd k j i Hk Hj) as G.
    rewrite Eq, getItem_map, (getItem_In_NoDup _ _ Hnd Hi) in G by exact Hid.
    simpl in G. injection G as G. exact G.
Qed.

(** ** The run as the event loop sees it *)

Lemma launch_seq env (c : M unit) (k : M Task) r others w :
  launch env (c ;; k) r others w = launch env k r others (exec c w).
Proof. unfold launch, bind, exec. destruct (c w). reflexivity. Qed.

Lemma launch_bind env {A} (c : M A) (k : A -> M Task) r others w :
  launch env (let* x := c in k x) r others w
  = launch env (k (fst (c w))) r others (snd (c w)).
Proof. unfold launch, bind. destruct (c w). reflexivity. Qed.

Lemma launch_Suspended env call resume r others w :
  launch env (ret (Suspended call resume)) r others w
  = let w1 := exec (run env (hd [] others)) w in
    let rest := launch env resume (World.queue w1) (tl others) w1 in
    (Suspension.mk call r w w1 :: fst rest, snd rest).
Proof.
  unfold launch, ret. cbn [schedule]. cbv zeta.
  destruct (resume _). destruct (schedule _ _ _ _ _). reflexivity.
Qed.

(** The suspensions of the annotation, then the rest of the turn. *)
Lemma launch_annotate env s item k r w :
  exists pre r',
    launch env (annotateTask env s item k) r [] w
    = (let rest := launch env (k (fst (annotate env s item w))) r' []
                     (snd (annotate env s item w)) in
       (pre ++ fst rest, snd rest))
    /\ Forall (Waiting (World.queue w)) pre.
Proof.
  remember (annotate env s item w) as aw eqn:Eaw.
  unfold annotate in Eaw. unfold annotateTask.
  destruct (ConversionSettings.useAIAnalysis s).
  2:{ subst aw. exists [], r. split; [|constructor]. cbn [ret fst snd].
      destruct (launch _ _ _ _ _); reflexivity. }
  rewrite launch_bind, launch_Suspended. cbv zeta.
  change (exec (run env (hd [] [])) ?x) with x. cbn [tl].
  unfold bind at 1 in Eaw. cbn [tick fst snd] in Eaw |- *.
  destruct (Env.blobToBase64 env (World.clock w) (QueueItem.file item)) as [b64|].
  - rewrite launch_bind, launch_Suspended. cbv zeta.
    change (exec (run env (hd [] [])) ?x) with x. cbn [tl].
    unfold bind at 1 in Eaw. cbn [tick fst snd World.clock] in Eaw |- *.
    destruct (Env.analyzeImage env _ b64 _) as [a|].
    + subst aw. eexists [_; _], _. split.
      * cbn [ret fst snd]. reflexivity.
      * repeat constructor.
    + subst aw. eexists [_; _], _. split.
      * rewrite launch_seq. reflexivity.
      * repeat constructor.
  - subst aw. eexists [_], _. split.
    + rewrite launch_seq. reflexivity.
    + repeat constructor.
Qed.

(** One turn: the suspension on the conversion, those on the annotation,
    then the turns that follow, from the world the whole turn leaves. *)
Lemma launch_turn env s item rest r w :
  exists pre r',
    launch env (turns env s (item :: rest)) r [] w
    = (let after := launch env (turns env s rest) r' []
                      (exec (processItem env s item) w) in
       (convertEntry item r w :: pre ++ fst after, snd after))
    /\ Forall (Waiting (World.queue w)) pre.
Proof.
  cbn [turns]. rewrite launch_bind, launch_Suspended. cbv zeta.
  change (exec (run env (hd [] [])) ?x) with x. cbn [tl].
  unfold processItem. rewrite exec_bind.
  change (fst (tick w)) with (World.clock w).
  destruct (convert env s (World.clock w) (QueueItem.file item)) as [blob|].
  - rewrite launch_bind, exec_bind.
    set (w1 := snd (createObjectURL env (snd (tick w)))).
    set (url := fst (createObjectURL env (snd (tick w)))).
    destruct (launch_annotate env s item
                (fun ai => updateById (QueueItem.id item)
                   (QueueItem.withResult
                      (ProcessedResult.mk blob url (Blob.size blob) (fst ai) (snd ai))) ;;
                   turns env s rest) (World.queue (snd (tick w))) w1)
      as (pre & r' & E & Hpre).
    exists pre, r'. split; [|exact Hpre].
    rewrite E. cbv zeta. rewrite launch_seq, exec_bind. reflexivity.
  - exists [], (World.queue (snd (tick w))). split; [|constructor].
    rewrite launch_seq. reflexivity.
Qed.

Lemma convertCalls_app a b : convertCalls (a ++ b) = convertCalls a ++ convertCalls b.
Proof. apply flat_map_app. Qed.

Lemma convertCalls_cons e l : convertCalls (e :: l) = convertCalls [e] ++ convertCalls l.
Proof. apply (convertCalls_app [e] l). Qed.

Lemma convertCalls_Waiting q l : Forall (Waiting q) l -> convertCalls l = [].
Proof.
  induction 1 as [|e l (He & _) _ IH]; [reflexivity|].
  rewrite convertCalls_cons, He, IH. reflexivity.
Qed.

Lemma Forall_firstn_keep {A} (P : A -> Prop) (l : list A) n :
  Forall P l -> Forall P (firstn n l).
Proof.
  intros H. revert n. induction H as [|x l Hx _ IH]; intros [|n]; simpl;
    constructor; auto.
Qed.

(** The suspensions of the loop over [items] started in [w], one by one:
    at each of them some [k] turns are over and the item of the next
    turn is the one last called. *)
Lemma turns_trace env s items :
  forall r w,
    let TF := launch env (turns env s items) r [] w in
    snd TF = exec (forEach items (processItem env s)) w
    /\ convertCalls (fst TF) = items
    /\ (forall p e,
          nth_error (fst TF) p = Some e ->
          exists k item,
            length (convertCalls (firstn (S p) (fst TF))) = S k
            /\ nth_error items k = Some item
            /\ World.queue (Suspension.atYield e)
               = World.queue (exec (forEach (firstn k items) (processItem env s)) w)
            /\ Suspension.atResume e = Suspension.atYield e
            /\ (forall it n,
                  Suspension.awaited e = ConvertCall it n ->
                  it = item
                  /\ n = World.clock
                           (exec (forEach (firstn k items) (processItem env s)) w)))
    /\ (forall e, nth_error (fst TF) 0 = Some e ->
          Suspension.renderedAtCall e = r
          /\ exists item, Suspension.awaited e = ConvertCall item (World.clock w)).
Proof.
  induction items as [|item rest IH]; intros r w; cbv zeta.
  { unfold launch. cbn. split; [reflexivity|]. split; [reflexivity|].
    split; intros; destruct p || idtac; discriminate. }
  destruct (launch_turn env s item rest r w) as (pre & r' & E & Hpre).
  rewrite E. cbv zeta. cbn [fst snd].
  specialize (IH r' (exec (processItem env s item) w)). cbv zeta in IH.
  destruct IH as (IHf & IHc & IHe & _).
  set (T' := fst (launch env (turns env s rest) r' [] (exec (processItem env s item) w))) in *.
  pose proof (convertCalls_Waiting _ _ Hpre) as Hpre0.
  split; [rewrite IHf, exec_forEach_cons; reflexivity|].
  split.
  { rewrite convertCalls_cons, convertCalls_app, Hpre0, IHc. reflexivity. }
  split.
  - intros [|p] e Hp.
    + injection Hp as <-. exists 0, item.
      split; [reflexivity|]. split; [reflexivity|]. split; [reflexivity|].
      split; [reflexivity|].
      intros it n Hc. injection Hc as <- <-. split; reflexivity.
    + cbn [nth_error] in Hp.
      change (firstn (S (S p)) (convertEntry item r w :: pre ++ T'))
        with (convertEntry item r w :: firstn (S p) (pre ++ T')).
      rewrite convertCalls_cons, firstn_app, convertCalls_app.
      rewrite (convertCalls_Waiting _ _ (Forall_firstn_keep _ _ (S p) Hpre)).
      destruct (Nat.lt_ge_cases p (length pre)) as [Hlt|Hge].
      * rewrite nth_error_app1 in Hp by exact Hlt.
        replace (S p - length pre) with 0 by lia.
        apply nth_error_In in Hp.
        destruct (Forall_In _ _ _ Hpre Hp) as (Hw1 & Hw2 & Hw3).
        exists 0, item.
        split; [reflexivity|]. split; [reflexivity|]. split; [exact Hw2|].
        split; [exact Hw3|].
        intros it n Hc. unfold convertCalls in Hw1. cbn [flat_map] in Hw1.
        rewrite Hc in Hw1. discriminate Hw1.
      * rewrite nth_error_app2 in Hp by exact Hge.
        replace (S p - length pre) with (S (p - length pre)) by lia.
        destruct (IHe _ _ Hp) as (k & it' & Hlen & Hk & Hq & Hr & Hcall).
        exists (S k), it'.
        split; [rewrite !length_app, Hlen; reflexivity|]. split; [exact Hk|].
        cbn [firstn]. rewrite exec_forEach_cons.
        split; [exact Hq|]. split; [exact Hr | exact Hcall].
  - intros e He. injection He as <-. split; [reflexivity|].
    exists item. reflexivity.
Qed.

Lemma stateAfter_exec env s k w :
  stateAfter env s k w
  = exec (forEach (firstn k (itemsToProcess (World.queue w))) (processItem env s))
      (exec (markProcessing (itemsToProcess (World.queue w))) w).
Proof. unfold stateAfter. cbv zeta. apply exec_seq. Qed.

Lemma scheduled_launch env s others w :
  scheduled env s others w
  = if Nat.eqb (length (itemsToProcess (World.queue w))) 0 then ([], w)
    else launch env (turns env s (itemsToProcess (World.queue w))) (World.queue w)
           others (exec (markProcessing (itemsToProcess (World.queue w))) w).
Proof.
  unfold scheduled, launch at 1, processBatchTask. cbv zeta.
  destruct (Nat.eqb _ 0); [reflexivity|].
  change (let (t, w0) := (markProcessing (itemsToProcess (World.queue w)) ;;
                          turns env s (itemsToProcess (World.queue w))) w in
          schedule env t (World.queue w) others w0)
    with (launch env (markProcessing (itemsToProcess (World.queue w)) ;;
                      turns env s (itemsToProcess (World.queue w)))
            (World.queue w) others w).
  apply launch_seq.
Qed.

(** The suspensions of an uninterrupted run, one by one. *)
Lemma scheduled_trace env s w :
  let items := itemsToProcess (World.queue w) in
  let TF := scheduled env s [] w in
  snd TF = exec (processBatch env s) w
  /\ convertCalls (fst TF) = items
  /\ (forall p e,
        nth_error (fst TF) p = Some e ->
        exists k item,
          length (convertCalls (firstn (S p) (fst TF))) = S k
          /\ nth_error items k = Some item
          /\ World.queue (Suspension.atYield e) = World.queue (stateAfter env s k w)
          /\ Suspension.atResume e = Suspension.atYield e
          /\ (forall it n,
                Suspension.awaited e = ConvertCall it n ->
                it = item /\ n = World.clock (stateAfter env s k w)))
  /\ (forall e, nth_error (fst TF) 0 = Some e ->
        Suspension.renderedAtCall e = World.queue w
        /\ exists item, Suspension.awaited e = ConvertCall item (World.clock w)).
Proof.
  cbv zeta. rewrite scheduled_launch.
  destruct (Nat.eqb (length (itemsToProcess (World.queue w))) 0) eqn:E0.
  { apply Nat.eqb_eq in E0. cbn [fst snd]. rewrite stateAfter_all, E0.
    destruct (itemsToProcess (World.queue w)) eqn:Ei; [|discriminate].
    split.
    { unfold stateAfter. rewrite Ei. cbn. destruct w; cbn. rewrite map_id. reflexivity. }
    split; [reflexivity|]. split; intros; destruct p || idtac; discriminate. }
  pose proof (turns_trace env s (itemsToProcess (World.queue w)) (World.queue w)
                (exec (markProcessing (itemsToProcess (World.queue w))) w)) as H.
  cbv zeta in H. destruct H as (Hf & Hc & He & H0).
  split.
  { rewrite Hf, stateAfter_all, stateAfter_exec, firstn_all. reflexivity. }
  split; [exact Hc|]. split; [|exact H0].
  intros p e Hp. destruct (He p e Hp) as (k & item & H1 & H2 & H3 & H4 & H5).
  exists k, item. rewrite stateAfter_exec. auto.
Qed.

Lemma trace_entry_at env s w e :
  In e (fst (scheduled env s [] w)) ->
  exists k, k < length (itemsToProcess (World.queue w))
            /\ World.queue (Suspension.atYield e) = World.queue (stateAfter env s k w).
Proof.
  intros He. apply In_nth_error in He as [p Hp].
  destruct (scheduled_trace env s w) as (_ & _ & H & _).
  destruct (H p e Hp) as (k & it & _ & Hk & Hq & _).
  exists k. split; [eapply nth_error_lt, Hk | exact Hq].
Qed.

(** The entry of a queued item once a run has returned. *)
Lemma processBatch_entry env s w p i :
  NoDup (ids (World.queue w)) ->
  nth_error (World.queue w) p = Some i ->
  exists i',
    nth_error (World.queue (exec (processBatch env s) w)) p = Some i'
    /\ QueueItem.id i' = QueueItem.id i
    /\ if isPending i
       then QueueItem.status i' = COMPLETE \/ QueueItem.status i' = ERROR
       else i' = i.
Proof.
  intros Hnd Hp. rewrite stateAfter_all.
  destruct (run_entries env s w _ Hnd (le_n _)) as (g & Eq & Hg).
  exists (g i). rewrite Eq, nth_error_map, Hp. split; [reflexivity|].
  destruct (Hg i (nth_error_In _ _ Hp)) as [Hno Hyes].
  destruct (isPending i).
  - destruct (Hyes eq_refl) as (j & Hj & ->).
    rewrite (proj2 (Nat.ltb_lt _ _)) by (eapply nth_error_lt, Hj).
    rewrite resolve_id, resolve_status. split; [reflexivity|].
    destruct (convert env s _ _); auto.
  - rewrite (Hno eq_refl). auto.
Qed.

(** C2 -- the batch run picks the items that are [IDLE] or [ERROR], in
    the order of the queue, never a [COMPLETE] or [PROCESSING] one.  These
    are the items it acts on: the conversions it calls are those of the
    picked items, in that order, and once it has returned (the ids being
    distinct) every picked entry is [COMPLETE] or [ERROR] while every
    other entry is as it was.  With nothing to pick it returns at once,
    without a suspension, with the world as it was. *)
Theorem pending_selection env s (w : World.t) :
  let items := itemsToProcess (World.queue w) in
  (forall i, In i items
             <-> In i (World.queue w)
                 /\ (QueueItem.status i = IDLE \/ QueueItem.status i = ERROR))
  /\ sublist items (World.queue w)
  /\ (forall i, In i items
                -> QueueItem.status i <> COMPLETE
                   /\ QueueItem.status i <> PROCESSING
                   /\ selected items i = true)
  /\ convertCalls (fst (scheduled env s [] w)) = items
  /\ snd (scheduled env s [] w) = exec (processBatch env s) w
  /\ (NoDup (ids (World.queue w)) ->
      forall p i,
        nth_error (World.queue w) p = Some i ->
        exists i',
          nth_error (World.queue (exec (processBatch env s) w)) p = Some i'
          /\ QueueItem.id i' = QueueItem.id i
          /\ if isPending i
             then QueueItem.status i' = COMPLETE \/ QueueItem.status i' = ERROR
             else i' = i)
  /\ (items = [] ->
      processBatch env s w = (tt, w) /\ scheduled env s [] w = ([], w)).
Proof.
  cbv zeta. destruct (scheduled_trace env s w) as (Hf & Hc & _).
  split; [|split; [|split; [|split; [|split; [|split]]]]].
  - intros i. apply In_itemsToProcess.
  - apply filter_sublist.
  - intros i H. split; [|split].
    + apply In_itemsToProcess in H as [_ [E|E]]; rewrite E; discriminate.
    + apply In_itemsToProcess in H as [_ [E|E]]; rewrite E; discriminate.
    + apply selected_In, H.
  - exact Hc.
  - exact Hf.
  - intros Hnd p i Hp. apply processBatch_entry; assumption.
  - intros E. split.
    + unfold processBatch. rewrite E. reflexivity.
    + rewrite scheduled_launch, E. reflexivity.
Qed.


(** ** The error message stays *)

Lemma resolve_error env s item n i :
  QueueItem.error (resolve env s item n i) = QueueItem.error i
  \/ QueueItem.error (resolve env s item n i) = Some "Failed".
Proof. unfold resolve. destruct (convert env s n _); simpl; auto. Qed.

(** The entry of a queued item after [k] turns carries the error message
    the item had, or the one of this run. *)
Lemma error_kept_at env s w k i :
  NoDup (ids (World.queue w)) ->
  k <= length (itemsToProcess (World.queue w)) ->
  In i (World.queue w) ->
  exists cur,
    getItem (QueueItem.id i) (World.queue (stateAfter env s k w)) = Some cur
    /\ (QueueItem.error cur = QueueItem.error i
        \/ QueueItem.error cur = Some "Failed").
Proof.
  intros Hnd Hk Hi.
  destruct (run_entries env s w k Hnd Hk) as (g & Eq & Hg).
  destruct (run_frame_at env s w k Hk) as (_ & _ & g' & Eq' & Hid' & _).
  exists (g i). split.
  - rewrite Eq', getItem_map, (getItem_In_NoDup _ _ Hnd Hi) by exact Hid'.
    simpl. f_equal.
    assert (List.map g' (World.queue w) = List.map g (World.queue w)) as Em
      by congruence.
    apply (proj1 map_ext_in_iff Em i Hi).
  - destruct (Hg i Hi) as [Hno Hyes]. destruct (isPending i).
    + destruct (Hyes eq_refl) as (j & _ & ->).
      destruct (Nat.ltb j k); [|left; reflexivity].
      destruct (resolve_error env s i (World.clock (stateAfter env s j w))
                  (QueueItem.withStatus PROCESSING i)) as [E|E];
        [left; rewrite E; reflexivity | right; exact E].
    + rewrite (Hno eq_refl). left. reflexivity.
Qed.

(** No handler clears the error message of an item it leaves queued. *)
Lemma step_keeps_error env a w i i' :
  WorldInv env w -> WorldInv env (exec (step env a) w) ->
  In i (World.queue w) -> is_Some (QueueItem.error i) ->
  In i' (World.queue (exec (step env a) w)) ->
  QueueItem.id i' = QueueItem.id i ->
  QueueItem.error i' = Some "Failed".
Proof.
  intros Hinv Hinv' Hi He Hi' Hid.
  pose proof (inv_nodup _ _ Hinv) as Hnd.
  assert (QueueItem.error i = Some "Failed") as Hf.
  { destruct (Forall_In _ _ _ (inv_lifecycle _ _ Hinv) Hi) as (_ & _ & _ & H).
    apply H, He. }
  assert (In i' (World.queue w) -> QueueItem.error i' = Some "Failed") as Hsame.
  { intros Hin. rewrite (ids_same_id _ _ _ Hnd Hin Hi Hid). exact Hf. }
  destruct a as [files| id | | s | s]; cbn [step] in *.
  - destruct files as [fs|]; [|apply Hsame, Hi'].
    assert (In i (World.queue (exec (handleFiles env (Some fs)) w))) as Hin.
    { rewrite handleFiles_queue. apply in_or_app. left. exact Hi. }
    rewrite (ids_same_id _ _ _ (inv_nodup _ _ Hinv') Hi' Hin Hid). exact Hf.
  - apply Hsame. rewrite removeItem_run in Hi'. simpl in Hi'.
    apply filter_In in Hi' as [Hi' _]. exact Hi'.
  - rewrite clearQueue_run in Hi'. destruct Hi'.
  - rewrite stateAfter_all in Hi'.
    destruct (error_kept_at env s w _ i Hnd (le_n _) Hi) as (cur & Hg & Hc).
    rewrite <- Hid in Hg.
    rewrite stateAfter_all in Hinv'.
    rewrite (getItem_In_NoDup _ _ (inv_nodup _ _ Hinv') Hi') in Hg.
    injection Hg as ->. destruct Hc as [Hc|Hc]; congruence.
  - apply Hsame. rewrite exec_discard in Hi'.
    destruct (downloadAll_run env s w) as [E|(us & c & l & _ & _ & E)];
      rewrite E in Hi'; exact Hi'.
Qed.

(** C4 (as the component has it) -- in every world reached from the empty
    queue by intakes, removals, clearings, uninterrupted batch runs and
    archive downloads, and at every turn and every suspension of a batch
    run started there, each item has a result exactly when it is
    [COMPLETE]; it has the error message [Failed] whenever it is [ERROR]
    and none while it is [IDLE].  The message is never cleared: an item
    that carries it still carries it after any handler that leaves it
    queued, and at every turn and every suspension of a further run,
    whether it is [PROCESSING] again or has become [COMPLETE]. *)
Theorem lifecycle_invariant env (acts : list Action) (a : Action) :
  let w := exec (run env acts) World.init in
  let w' := exec (step env a) w in
  collisionFree env (World.clock w') ->
  Forall Lifecycle (World.queue w)
  /\ (forall s k,
        k <= length (itemsToProcess (World.queue w)) ->
        Forall Lifecycle (World.queue (stateAfter env s k w)))
  /\ (forall s e,
        In e (fst (scheduled env s [] w)) ->
        Forall Lifecycle (World.queue (Suspension.atYield e)))
  /\ (forall i,
        In i (World.queue w) -> is_Some (QueueItem.error i) ->
        (forall i',
            In i' (World.queue w') -> QueueItem.id i' = QueueItem.id i ->
            QueueItem.error i' = Some "Failed")
        /\ (forall s k,
              k <= length (itemsToProcess (World.queue w)) ->
              exists cur,
                getItem (QueueItem.id i) (World.queue (stateAfter env s k w))
                = Some cur
                /\ QueueItem.error cur = Some "Failed")
        /\ (forall s e,
              In e (fst (scheduled env s [] w)) ->
              exists cur,
                getItem (QueueItem.id i) (World.queue (Suspension.atYield e))
                = Some cur
                /\ QueueItem.error cur = Some "Failed")).
Proof.
  cbv zeta. intros Hcf.
  assert (WorldInv env (exec (run env acts) World.init)) as Hinv.
  { apply reachable_inv. eapply collisionFree_le; [|exact Hcf]. apply step_clock. }
  assert (WorldInv env (exec (step env a) (exec (run env acts) World.init))) as Hinv'.
  { eapply step_inv; [exact Hcf | apply le_n | exact Hinv]. }
  set (w := exec (run env acts) World.init) in *.
  assert (forall i s k,
             In i (World.queue w) -> is_Some (QueueItem.error i) ->
             k <= length (itemsToProcess (World.queue w)) ->
             exists cur,
               getItem (QueueItem.id i) (World.queue (stateAfter env s k w))
               = Some cur
               /\ QueueItem.error cur = Some "Failed") as Hkept.
  { intros i s k Hi He Hk.
    destruct (Forall_In _ _ _ (inv_lifecycle _ _ Hinv) Hi) as (_ & _ & _ & H).
    destruct (error_kept_at env s w k i (inv_nodup _ _ Hinv) Hk Hi) as (cur & Hg & Hc).
    exists cur. split; [exact Hg|]. destruct Hc as [Hc|Hc]; [|exact Hc].
    rewrite Hc. apply H, He. }
  split; [apply Hinv|]. split; [|split].
  - intros s k Hk. apply (stateAfter_inv env s _ k Hinv Hk).
  - intros s e He. destruct (trace_entry_at env s w e He) as (k & Hk & ->).
    apply (stateAfter_inv env s _ k Hinv). lia.
  - intros i Hi He. split; [|split].
    + intros i' Hi' Hid. exact (step_keeps_error env a w i i' Hinv Hinv' Hi He Hi' Hid).
    + intros s k Hk. apply (Hkept i s k Hi He Hk).
    + intros s e Hin. destruct (trace_entry_at env s w e Hin) as (k & Hk & ->).
      apply (Hkept i s k Hi He). lia.
Qed.

(** ** Names of the downloads *)

Lemma step_ConvertedBy env S a w :
  WorldInv env w -> ConvertedBy env S w ->
  (forall s, a = ProcessBatch s -> In s S) ->
  ConvertedBy env S (exec (step env a) w).
Proof.
  intros Hinv Hc Ha. unfold ConvertedBy in *.
  destruct a as [files| id | | s | s]; cbn [step].
  - destruct files as [fs|]; [|exact Hc].
    rewrite handleFiles_queue. apply Forall_app. split; [exact Hc|].
    destruct (mapM_newItem env (List.filter isImage fs) w) as (_ & Hf & _).
    eapply Forall_impl; [exact Hf|]. cbv beta. intros i (_ & E & _) r Hr. congruence.
  - rewrite removeItem_run. simpl. apply Forall_filter_keep, Hc.
  - rewrite clearQueue_run. simpl. constructor.
  - rewrite stateAfter_all.
    destruct (run_entries env s w _ (inv_nodup _ _ Hinv) (le_n _)) as (g & Eq & Hg).
    rewrite Eq. apply Forall_map_in. intros i Hi r Hr.
    pose proof (Forall_In _ _ _ Hc Hi) as Hold. cbv beta in Hold.
    destruct (Hg i Hi) as [Hno Hyes]. destruct (isPending i).
    2:{ rewrite (Hno eq_refl) in Hr |- *. apply Hold, Hr. }
    destruct (Hyes eq_refl) as (j & Hj & E). rewrite E in Hr |- *.
    rewrite (proj2 (Nat.ltb_lt _ _)) in Hr |- * by (eapply nth_error_lt, Hj).
    unfold resolve in Hr |- *.
    destruct (convert env s _ (QueueItem.file i)) as [blob|] eqn:Ec; simpl in Hr |- *.
    + injection Hr as <-. exists s. eexists. split; [apply Ha; reflexivity | exact Ec].
    + apply Hold, Hr.
  - rewrite exec_discard.
    destruct (downloadAll_run env s w) as [->|(us & c & l & _ & _ & ->)]; exact Hc.
Qed.

Lemma run_ConvertedBy env S n acts :
  collisionFree env n ->
  (forall s, In s (runsOf acts) -> In s S) ->
  forall w,
    World.clock (exec (run env acts) w) <= n ->
    WorldInv env w -> ConvertedBy env S w ->
    ConvertedBy env S (exec (run env acts) w).
Proof.
  intros Hcf. induction acts as [|a acts IH]; intros HS w Hn Hinv Hc; [exact Hc|].
  unfold run in *. rewrite exec_forEach_cons in *.
  apply IH; [| exact Hn | |].
  - intros s Hs. apply HS. unfold runsOf. cbn [flat_map]. apply in_or_app. right. exact Hs.
  - eapply step_inv; [exact Hcf | | exact Hinv].
    etransitivity; [apply (run_clock env acts) | exact Hn].
  - apply step_ConvertedBy; [exact Hinv | exact Hc |].
    intros s ->. apply HS. left. reflexivity.
Qed.

Lemma reachable_ConvertedBy env acts :
  collisionFree env (World.clock (exec (run env acts) World.init)) ->
  ConvertedBy env (runsOf acts) (exec (run env acts) World.init).
Proof.
  intros Hcf. eapply run_ConvertedBy;
    [exact Hcf | auto | apply le_n | apply init_inv | constructor].
Qed.

(** C7 (as the component has it) -- in every world reached from the empty
    queue, an item with a result was converted by one of the batch runs so
    far; when the format selected at the time of the download is the one
    of that run, the name proposed for the item is the part of its file
    name before the first dot, then [_converted.], then the MIME subtype
    of the format ([jpeg], [png], [webp], [avif]) or [svg] for [svg+xml].
    The archive is named [cleave_batch.zip], and when the format selected
    is the one of every run so far its entry names are exactly the names
    so formed from the completed items. *)
Theorem download_naming env (fmt : OutputFormat) (acts : list Action)
    (now : ConversionSettings.t) :
  let w := exec (run env acts) World.init in
  collisionFree env (World.clock w) ->
  ConversionSettings.format now = mimeOf fmt ->
  getExtension now = Some (subtypeExtension fmt)
  /\ (forall item r,
        In item (World.queue w) -> QueueItem.result item = Some r ->
        exists s n,
          In s (runsOf acts)
          /\ convert env s n (QueueItem.file item) = Some (ProcessedResult.blob r)
          /\ (ConversionSettings.format s = ConversionSettings.format now ->
              downloadFile now item
              = Some (Download.mk (ProcessedResult.url r)
                        (baseName (File.name (QueueItem.file item))
                         +:+ "_converted." +:+ subtypeExtension fmt))))
  /\ (Forall (fun s => ConversionSettings.format s = ConversionSettings.format now)
             (runsOf acts) ->
      forall arch,
        fst (downloadAll env now w) = Some arch ->
        Archive.download arch = "cleave_batch.zip"
        /\ forall n,
             is_Some (Archive.files arch !! n)
             <-> exists item,
                   In item (World.queue w) /\ isCompleted item = true
                   /\ n = baseName (File.name (QueueItem.file item))
                          +:+ "_converted." +:+ subtypeExtension fmt).
Proof.
  cbv zeta. intros Hcf Hnow.
  pose proof (getExtension_subtype now fmt Hnow) as Hext.
  split; [exact Hext|]. split.
  - intros item r Hin Hr.
    destruct (Forall_In _ _ _ (reachable_ConvertedBy env acts Hcf) Hin r Hr)
      as (s & n & Hs & Hc).
    exists s, n. split; [exact Hs|]. split; [exact Hc|]. intros _.
    unfold downloadFile. rewrite Hr, Hext. reflexivity.
  - intros _ arch Ha. rewrite downloadAll_result in Ha. cbv zeta in Ha.
    destruct (Nat.eqb _ 0); [discriminate|].
    destruct (Env.generateAsync env _ _); [|discriminate].
    inversion Ha; subst arch; clear Ha.
    split; [reflexivity|]. intros n. simpl Archive.files.
    rewrite buildZip_lookup, lastEntry_is_Some, Hext. split.
    + intros [b Hin]. apply In_entries in Hin as (item & r & Hin & Hr & -> & _).
      apply filter_In in Hin as [Hin Hc]. exists item. auto.
    + intros (item & Hin & Hc & ->).
      assert (exists r, QueueItem.result item = Some r) as [r Hr].
      { unfold isCompleted in Hc. apply andb_true_iff in Hc as [_ Hc].
        destruct (QueueItem.result item); [eexists; reflexivity | discriminate]. }
      exists (ProcessedResult.blob r). apply In_entries. exists item, r.
      repeat split; try assumption. apply filter_In. auto.
Qed.

(** ** A run with intakes at its suspensions *)

Lemma Frame_same S w1 w2 :
  World.queue w2 = World.queue w1 -> World.clock w1 <= World.clock w2 -> Frame S w1 w2.
Proof.
  intros Eq Hc. split; [exact Hc|]. exists (fun i => i).
  rewrite Eq, map_id. auto.
Qed.

Lemma Frame_trans S w1 w2 w3 : Frame S w1 w2 -> Frame S w2 w3 -> Frame S w1 w3.
Proof.
  intros (Hc1 & u1 & E1 & Hid1 & Hfix1) (Hc2 & u2 & E2 & Hid2 & Hfix2).
  split; [lia|]. exists (fun i => u2 (u1 i)).
  split; [rewrite E2, E1, map_map; reflexivity|]. split.
  - intros i. rewrite Hid2. apply Hid1.
  - intros i Hi. rewrite (Hfix1 i Hi). apply Hfix2, Hi.
Qed.

Lemma Frame_update S a f w :
  In a S -> (forall i, QueueItem.id (f i) = QueueItem.id i) ->
  Frame S w (exec (updateById a f) w).
Proof.
  intros Ha Hf. split; [apply le_n|]. exists (updated a f).
  split; [reflexivity|]. split.
  - intros i. apply updated_id, Hf.
  - intros i Hi. unfold updated. destruct (idEq _ _) eqn:E; [|reflexivity].
    apply idEq_eq in E. congruence.
Qed.

Lemma FramedM_seq S (c : M unit) (k : M Task) :
  (forall w, Frame S w (exec c w)) -> FramedM S k -> FramedM S (c ;; k).
Proof.
  intros Hc Hk w. unfold bind. specialize (Hc w). unfold exec in Hc.
  destruct (c w) as [[] w1]. cbn [snd] in Hc. destruct (Hk w1) as [H1 H2].
  split; [eapply Frame_trans; eassumption | exact H2].
Qed.

Lemma FramedM_await S call (resume : nat -> M Task) :
  (forall n, FramedM S (resume n)) ->
  FramedM S (let* n := tick in ret (Suspended (call n) (resume n))).
Proof.
  intros H w. unfold bind, ret. cbn [tick fst snd]. split.
  - apply Frame_same; [reflexivity | cbn; lia].
  - constructor; intros w'; apply H.
Qed.

Lemma annotateTask_framed env S s item k :
  (forall ai, FramedM S (k ai)) -> FramedM S (annotateTask env s item k).
Proof.
  intros Hk. unfold annotateTask.
  destruct (ConversionSettings.useAIAnalysis s); [|apply Hk].
  assert (forall l, FramedM S (consoleWarn l ;; k ("", []))) as Hwarn.
  { intros l. apply FramedM_seq; [|apply Hk].
    intros w. apply Frame_same; [reflexivity | apply le_n]. }
  apply (FramedM_await S (Base64Call item)
           (fun n => match Env.blobToBase64 env n (QueueItem.file item) with
                     | Some b64 => _
                     | None => _
                     end)).
  intros n. destruct (Env.blobToBase64 env _ _) as [b64|]; [|apply Hwarn].
  apply (FramedM_await S (AnalyzeCall item)
           (fun n' => match Env.analyzeImage env n' b64 _ with
                      | Some a => _
                      | None => _
                      end)).
  intros n'. destruct (Env.analyzeImage env _ _ _); [apply Hk | apply Hwarn].
Qed.

Lemma turns_framed env S s items :
  (forall x, In x items -> In (QueueItem.id x) S) -> FramedM S (turns env s items).
Proof.
  induction items as [|item rest IH]; intros Hsub.
  { intros w. split; [apply Frame_same; [reflexivity | apply le_n] | constructor]. }
  specialize (IH (fun x Hx => Hsub x (or_intror Hx))).
  pose proof (Hsub item (or_introl eq_refl)) as Hin.
  cbn [turns].
  apply (FramedM_await S (ConvertCall item)
           (fun n => match convert env s n (QueueItem.file item) with
                     | Some blob => _
                     | None => _
                     end)).
  intros n. destruct (convert env s _ _) as [blob|].
  - assert (forall (c : M string) (k : string -> M Task),
               (forall w, Frame S w (snd (c w))) -> (forall u, FramedM S (k u)) ->
               FramedM S (let* u := c in k u)) as Hbind.
    { intros c k Hc Hk w. unfold bind. specialize (Hc w).
      destruct (c w) as [u w1]. cbn [snd] in Hc. destruct (Hk u w1) as [H1 H2].
      split; [eapply Frame_trans; eassumption | exact H2]. }
    apply Hbind.
    + intros w. apply Frame_same; [reflexivity | cbn; lia].
    + intros url. apply annotateTask_framed. intros ai.
      apply FramedM_seq; [|exact IH].
      intros w. apply Frame_update; [exact Hin | reflexivity].
  - apply FramedM_seq; [|exact IH].
    intros w. apply Frame_update; [exact Hin | reflexivity].
Qed.

Lemma Frame_During env w0 w1 w2 :
  During env w0 w1 ->
  Frame (ids (itemsToProcess (World.queue w0))) w1 w2 ->
  During env w0 w2 /\ Extends w0 w1 w2.
Proof.
  intros [Hc Hm (g & Eg & Hgid & Hgfix) Hnew] (Hc2 & u & Eq & Huid & Hufix).
  assert (skipn (length (World.queue w0)) (List.map u (World.queue w1))
          = skipn (length (World.queue w0)) (World.queue w1)) as Etail.
  { rewrite skipn_map. rewrite <- (map_id (skipn _ (World.queue w1))) at 2.
    apply map_ext_in. intros i Hi. apply Hufix.
    exact (Forall_In _ _ _ Hnew Hi). }
  split.
  - split.
    + lia.
    + eapply Minted_same; [| |exact Hm]; [rewrite Eq; apply ids_map, Huid | lia].
    + exists (fun i => u (g i)). rewrite Eq, firstn_map, Eg, map_map.
      split; [reflexivity|]. split.
      * intros i. rewrite Huid. apply Hgid.
      * intros i Hi. rewrite (Hgfix i Hi). apply Hufix, Hi.
    + rewrite Eq, Etail. exact Hnew.
  - intros p i Hp Hi. rewrite Eq.
    rewrite <- (firstn_skipn (length (World.queue w0)) (List.map u (World.queue w1))).
    rewrite <- (firstn_skipn (length (World.queue w0)) (World.queue w1)) in Hi.
    assert (length (firstn (length (World.queue w0)) (World.queue w1))
            = length (firstn (length (World.queue w0)) (List.map u (World.queue w1))))
      as El by (rewrite !length_firstn, length_map; reflexivity).
    rewrite nth_error_app2 in Hi.
    2:{ rewrite length_firstn. lia. }
    rewrite nth_error_app2.
    2:{ rewrite length_firstn, length_map. lia. }
    rewrite Etail, <- El. exact Hi.
Qed.

Lemma schedule_Suspended env call resume r others w :
  schedule env (Suspended call resume) r others w
  = let w1 := exec (run env (hd [] others)) w in
    let rest := schedule env (fst (resume w1)) (World.queue w1) (tl others)
                  (snd (resume w1)) in
    (Suspension.mk call r w w1 :: fst rest, snd rest).
Proof.
  cbn [schedule]. cbv zeta. destruct (resume _). cbn [fst snd].
  destruct (schedule _ _ _ _ _). reflexivity.
Qed.

Lemma schedule_clock env S t :
  Framed S t ->
  forall r others w,
    World.clock w <= World.clock (snd (schedule env t r others w)).
Proof.
  induction 1 as [|call resume Hf _ IH]; intros r others w; [apply le_n|].
  rewrite schedule_Suspended. cbv zeta. cbn [snd].
  etransitivity; [apply (run_clock env (hd [] others))|].
  etransitivity; [apply (Hf _)|]. apply IH.
Qed.

(** Along a run with intakes at its suspensions, what is queued behind the
    entries of the start stays as it is once it is there. *)
Lemma schedule_During env n w0 t :
  collisionFree env n ->
  Minted env w0 ->
  Framed (ids (itemsToProcess (World.queue w0))) t ->
  forall r others w,
    Forall (Forall isIntake) others ->
    World.clock (snd (schedule env t r others w)) <= n ->
    During env w0 w ->
    During env w0 (snd (schedule env t r others w))
    /\ Extends w0 w (snd (schedule env t r others w))
    /\ Forall (fun e => Extends w0 (Suspension.atResume e)
                          (snd (schedule env t r others w))
                        /\ During env w0 (Suspension.atYield e)
                        /\ During env w0 (Suspension.atResume e))
              (fst (schedule env t r others w)).
Proof.
  intros Hcf Hm0.
  induction 1 as [|call resume Hf Hfr IH]; intros r others w Hoth Hn Hd.
  { cbn. split; [exact Hd|]. split; [apply Extends_refl | constructor]. }
  rewrite schedule_Suspended in *. cbv zeta in *. cbn [fst snd] in *.
  set (w1 := exec (run env (hd [] others)) w) in *.
  assert (Forall isIntake (hd [] others) /\ Forall (Forall isIntake) (tl others))
    as [Hhd Htl].
  { destruct Hoth; simpl; split; auto. }
  pose proof (schedule_clock env _ _ (Hfr w1) (World.queue w1) (tl others)
                (snd (resume w1))) as Hc2.
  pose proof (Hf w1) as Hfw.
  destruct (intakes_During env n w0 (hd [] others) Hcf Hm0 Hhd w) as [Hd1 He1];
    [fold w1; destruct Hfw as [Hfc _]; lia | exact Hd |].
  fold w1 in Hd1, He1.
  destruct (Frame_During env w0 w1 _ Hd1 Hfw) as [Hd2 He2].
  destruct (IH w1 (World.queue w1) (tl others) _ Htl Hn Hd2) as (Hd3 & He3 & Hall).
  split; [exact Hd3|]. split.
  - eapply Extends_trans; [exact He1|]. eapply Extends_trans; eassumption.
  - constructor; [|exact Hall]. cbn [Suspension.atResume Suspension.atYield].
    split; [eapply Extends_trans; eassumption|]. split; [exact Hd | exact Hd1].
Qed.

Lemma During_kept env w0 w1 p i :
  NoDup (ids (World.queue w0)) -> During env w0 w1 ->
  nth_error (World.queue w0) p = Some i ->
  QueueItem.status i = COMPLETE \/ QueueItem.status i = PROCESSING ->
  nth_error (World.queue w1) p = Some i.
Proof.
  intros Hnd Hd Hp Hs. destruct (during_old _ _ _ Hd) as (g & Eg & _ & Hgfix).
  rewrite <- (nth_error_firstn_lt _ (length (World.queue w0)))
    by (eapply nth_error_lt, Hp).
  rewrite Eg, nth_error_map, Hp. simpl. f_equal. apply Hgfix.
  apply (unselected_id w0 i Hnd (nth_error_In _ _ Hp) Hs).
Qed.

Lemma launch_framed env S c r others w :
  FramedM S c ->
  Frame S w (snd (c w))
  /\ Framed S (fst (c w))
  /\ launch env c r others w = schedule env (fst (c w)) r others (snd (c w)).
Proof.
  intros H. destruct (H w) as [H1 H2]. split; [exact H1|]. split; [exact H2|].
  unfold launch. destruct (c w). reflexivity.
Qed.

(** C10 -- a batch run started in a reachable world, with intakes going
    on while it is suspended, leaves in place and unchanged, at each of
    its suspensions and when it has returned, every item that was
    [COMPLETE] (or [PROCESSING]) when it started; it leaves in place and
    unchanged every item found queued behind the original ones when it
    resumes from any of its suspensions, that is every item enqueued
    after the snapshot; the original entries keep their ids. *)
Theorem batch_frame env s (acts : list Action) (others : list (list Action)) :
  let w := exec (run env acts) World.init in
  let trace := fst (scheduled env s others w) in
  let final := snd (scheduled env s others w) in
  collisionFree env (World.clock final) ->
  Forall (Forall isIntake) others ->
  (forall p i,
      nth_error (World.queue w) p = Some i ->
      QueueItem.status i = COMPLETE \/ QueueItem.status i = PROCESSING ->
      nth_error (World.queue final) p = Some i
      /\ forall m e,
           nth_error trace m = Some e ->
           nth_error (World.queue (Suspension.atYield e)) p = Some i
           /\ nth_error (World.queue (Suspension.atResume e)) p = Some i)
  /\ (forall m e p i,
        nth_error trace m = Some e ->
        length (World.queue w) <= p ->
        nth_error (World.queue (Suspension.atResume e)) p = Some i ->
        nth_error (World.queue final) p = Some i)
  /\ ids (firstn (length (World.queue w)) (World.queue final)) = ids (World.queue w).
Proof.
  cbv zeta. set (w := exec (run env acts) World.init).
  rewrite scheduled_launch.
  destruct (Nat.eqb (length (itemsToProcess (World.queue w))) 0) eqn:E0.
  { cbn [fst snd]. intros _ _. split.
    { intros p i Hp _. split; [exact Hp|]. intros [|m]; discriminate. }
    split; [intros [|m]; discriminate|].
    rewrite firstn_all. reflexivity. }
  set (items := itemsToProcess (World.queue w)) in *.
  set (w1 := exec (markProcessing items) w).
  destruct (launch_framed env (ids items) (turns env s items) (World.queue w) others w1)
    as (Hfr & Hfd & ->).
  { apply turns_framed. intros x Hx. apply in_map, Hx. }
  set (t := fst (turns env s items w1)) in *.
  set (w2 := snd (turns env s items w1)) in *.
  intros Hcf Hoth.
  pose proof (schedule_clock env _ t Hfd (World.queue w) others w2) as Hc2.
  assert (World.clock w <= World.clock w2) as Hc1 by (destruct Hfr as [H _]; exact H).
  pose proof (reachable_inv env acts
                (collisionFree_le _ _ _ (Nat.le_trans _ _ _ Hc1 Hc2) Hcf)) as Hinv.
  fold w in Hinv. destruct Hinv as [Hnd Hmint _ _ _].
  pose proof (mark_During env w Hmint) as Hd1. fold items w1 in Hd1.
  destruct (Frame_During env w w1 w2 Hd1 Hfr) as [Hd2 _].
  destruct (schedule_During env _ w t Hcf Hmint Hfd (World.queue w) others w2
              Hoth (le_n _) Hd2) as (Hdf & _ & Hall).
  split; [|split].
  - intros p i Hp Hs. split; [apply (During_kept env w _ p i Hnd Hdf Hp Hs)|].
    intros m e Hm.
    destruct (Forall_In _ _ _ Hall (nth_error_In _ _ Hm)) as (_ & Hy & Hr).
    split; [apply (During_kept env w _ p i Hnd Hy Hp Hs)
           | apply (During_kept env w _ p i Hnd Hr Hp Hs)].
  - intros m e p i Hm Hp Hi.
    destruct (Forall_In _ _ _ Hall (nth_error_In _ _ Hm)) as (He & _).
    apply (He p i Hp Hi).
  - destruct (during_old _ _ _ Hdf) as (g & Eg & Hgid & _).
    rewrite Eg. apply ids_map, Hgid.
Qed.

(** ** The model at work *)

Lemma demo_collisionFree n : collisionFree Demo.env n.
Proof.
  intros a b _ _ E. simpl in E. exact (pretty_nat_inj a b E).
Qed.

Lemma demo_three_queue :
  World.queue Demo.three = [Demo.catItem; Demo.badItem; Demo.dogItem].
Proof. vm_compute. reflexivity. Qed.

Lemma demo_three_NoDup : NoDup (ids (World.queue Demo.three)).
Proof.
  rewrite demo_three_queue. apply (bool_decide_unpack _). vm_compute. exact I.
Qed.

(** C4, as the specification words it, fails: the retried item is
    [COMPLETE] with a result and still carries the message of its failed
    first run. *)
Lemma exclusivity_counterexample :
  World.queue Demo.retried = [Demo.flakyDone]
  /\ QueueItem.status Demo.flakyDone = COMPLETE
  /\ QueueItem.error Demo.flakyDone = Some "Failed"
  /\ ~ Forall SpecExclusive (World.queue Demo.retried).
Proof.
  assert (World.queue Demo.retried = [Demo.flakyDone]) as E
    by (vm_compute; reflexivity).
  split; [exact E|]. split; [reflexivity|]. split; [reflexivity|].
  rewrite E. intros H. apply Forall_cons in H as [[_ [He _]] _].
  assert (QueueItem.status Demo.flakyDone = ERROR) as Hs
    by (apply He; eexists; reflexivity).
  discriminate Hs.
Qed.

(** C7, as the specification words it, fails: with JPEG selected the
    name proposed for an item converted to JPEG ends in [.jpeg], not in
    the [.jpg] of the specification's mapping. *)
Lemma extension_counterexample :
  ConversionSettings.format Demo.jpeg = mimeOf JPEG
  /\ In Demo.catDone (World.queue Demo.converted)
  /\ getExtension Demo.jpeg = Some "jpeg"
  /\ downloadFile Demo.jpeg Demo.catDone
     = Some (Download.mk "blob:7" "cat_converted.jpeg")
  /\ downloadFile Demo.jpeg Demo.catDone
     <> Some (Download.mk "blob:7"
                (baseName (File.name (QueueItem.file Demo.catDone))
                 +:+ "_converted." +:+ specExtension JPEG)).
Proof.
  split; [reflexivity|]. split; [vm_compute; left; reflexivity|].
  split; [reflexivity|]. split; [reflexivity|].
  vm_compute. discriminate.
Qed.

(** The extension is read from the settings of the moment: the same
    item, converted to JPEG, is offered as [.webp] once WEBP is
    selected. *)
Lemma extension_follows_settings :
  In Demo.catDone (World.queue Demo.converted)
  /\ downloadFile (Demo.settings (mimeOf WEBP) true) Demo.catDone
     = Some (Download.mk "blob:7" "cat_converted.webp").
Proof.
  split; [vm_compute; left; reflexivity | reflexivity].
Qed.

Lemma batch_failure_isolation_witness :
  NoDup (ids (World.queue Demo.three))
  /\ nth_error (itemsToProcess (World.queue Demo.three)) 1 = Some Demo.badItem
  /\ exists final,
       getItem "2" (World.queue (exec (processBatch Demo.env Demo.jpeg) Demo.three))
       = Some final
       /\ QueueItem.status final = ERROR
       /\ QueueItem.error final = Some "Failed".
Proof.
  assert (nth_error (itemsToProcess (World.queue Demo.three)) 1 = Some Demo.badItem)
    as Hj by (vm_compute; reflexivity).
  split; [exact demo_three_NoDup|]. split; [exact Hj|].
  destruct (batch_failure_isolation Demo.env Demo.jpeg Demo.three 1 Demo.badItem
              demo_three_NoDup Hj) as (final & Hget & _ & Hres).
  exists final. split; [exact Hget|].
  replace (convert Demo.env Demo.jpeg
             (World.clock (stateAfter Demo.env Demo.jpeg 1 Demo.three))
             (QueueItem.file Demo.badItem))
    with (@None Blob.t) in Hres by (vm_compute; reflexivity).
  exact Hres.
Defined.

Lemma annotation_failure_isolation_witness :
  NoDup (ids (World.queue Demo.three))
  /\ nth_error (itemsToProcess (World.queue Demo.three)) 2 = Some Demo.dogItem
  /\ ConversionSettings.useAIAnalysis Demo.jpeg = true
  /\ getItem "4" (World.queue (exec (processBatch Demo.env Demo.jpeg) Demo.three))
     = Some (QueueItem.mk "4" Demo.dog "blob:5" 1 COMPLETE
               (Some (ProcessedResult.mk Demo.catBlob "blob:12" 1 "" []))
               None).
Proof.
  assert (nth_error (itemsToProcess (World.queue Demo.three)) 2 = Some Demo.dogItem)
    as Hj by (vm_compute; reflexivity).
  split; [exact demo_three_NoDup|]. split; [exact Hj|]. split; [reflexivity|].
  assert (convert Demo.env Demo.jpeg
            (World.clock (stateAfter Demo.env Demo.jpeg 2 Demo.three))
            (QueueItem.file Demo.dogItem) = Some Demo.catBlob) as Hc
    by (vm_compute; reflexivity).
  assert (annotationFails Demo.env Demo.dogItem
            (S (S (World.clock (stateAfter Demo.env Demo.jpeg 2 Demo.three))))) as Ha
    by (vm_compute; reflexivity).
  pose proof (annotation_failure_isolation Demo.env Demo.jpeg Demo.three 2
                Demo.dogItem Demo.catBlob demo_three_NoDup Hj eq_refl Hc Ha) as H.
  vm_compute in H. vm_compute. exact H.
Defined.

Lemma handle_release_witness :
  collisionFree Demo.env (World.clock (exec (run Demo.env Demo.session) World.init))
  /\ World.created (exec (run Demo.env Demo.session) World.init)
     ≡ₚ World.revoked (exec (run Demo.env Demo.session) World.init)
        ++ owned (World.queue (exec (run Demo.env Demo.session) World.init)).
Proof.
  split; [apply demo_collisionFree|].
  exact (proj1 (handle_release Demo.env Demo.session (demo_collisionFree _))).
Defined.

Lemma archive_contents_witness :
  List.filter isCompleted (World.queue Demo.converted) <> []
  /\ exists arch,
       fst (downloadAll Demo.env Demo.jpeg Demo.converted) = Some arch
       /\ Archive.files arch !! "cat_converted.jpeg" = Some Demo.catBlob.
Proof.
  assert (List.filter isCompleted (World.queue Demo.converted) <> []) as Hne
    by (vm_compute; discriminate).
  split; [exact Hne|].
  destruct (archive_contents Demo.env Demo.jpeg Demo.converted
              (Blob.mk "application/zip" []) Hne eq_refl)
    as (arch & Ha & _ & _ & Hlook & _).
  exists arch. split; [exact Ha|]. rewrite Hlook. vm_compute. reflexivity.
Defined.


Lemma pending_selection_witness :
  NoDup (ids (World.queue Demo.converted))
  /\ convertCalls (fst (scheduled Demo.env Demo.jpeg [] Demo.converted))
     = itemsToProcess (World.queue Demo.converted).
Proof.
  split; [apply (bool_decide_unpack _); vm_compute; exact I|].
  exact (proj1 (proj2 (proj2 (proj2 (pending_selection Demo.env Demo.jpeg Demo.converted))))).
Defined.


Lemma lifecycle_invariant_witness :
  collisionFree Demo.env
    (World.clock (exec (step Demo.env (ProcessBatch Demo.jpeg))
                    (exec (run Demo.env [AddFiles (Some [Demo.flaky]);
                                         ProcessBatch Demo.jpeg])
                       World.init)))
  /\ In Demo.flakyDone
       (World.queue (exec (step Demo.env (ProcessBatch Demo.jpeg))
                       (exec (run Demo.env [AddFiles (Some [Demo.flaky]);
                                            ProcessBatch Demo.jpeg])
                          World.init)))
  /\ QueueItem.status Demo.flakyDone = COMPLETE
  /\ QueueItem.error Demo.flakyDone = Some "Failed".
Proof.
  split; [apply demo_collisionFree|].
  assert (In Demo.flakyDone
            (World.queue (exec (step Demo.env (ProcessBatch Demo.jpeg))
                            (exec (run Demo.env [AddFiles (Some [Demo.flaky]);
                                                 ProcessBatch Demo.jpeg])
                               World.init)))) as Hin
    by (vm_compute; left; reflexivity).
  split; [exact Hin|]. split; [reflexivity|].
  destruct (lifecycle_invariant Demo.env
              [AddFiles (Some [Demo.flaky]); ProcessBatch Demo.jpeg]
              (ProcessBatch Demo.jpeg) (demo_collisionFree _)) as (_ & _ & _ & H).
  destruct (H (QueueItem.mk "0" Demo.flaky "blob:1" 1 ERROR None (Some "Failed")))
    as (Hk & _).
  - vm_compute. left. reflexivity.
  - eexists. reflexivity.
  - exact (Hk Demo.flakyDone Hin eq_refl).
Defined.

Lemma download_naming_witness :
  collisionFree Demo.env
    (World.clock (exec (run Demo.env (Demo.intake ++ [ProcessBatch Demo.jpeg]))
                    World.init))
  /\ ConversionSettings.format Demo.jpeg = mimeOf JPEG
  /\ getExtension Demo.jpeg = Some "jpeg".
Proof.
  split; [apply demo_collisionFree|]. split; [reflexivity|].
  exact (proj1 (download_naming Demo.env JPEG (Demo.intake ++ [ProcessBatch Demo.jpeg])
                  Demo.jpeg (demo_collisionFree _) eq_refl)).
Defined.

Lemma batch_frame_witness :
  collisionFree Demo.env
    (World.clock (snd (scheduled Demo.env Demo.jpeg Demo.meanwhile
                         (exec (run Demo.env Demo.two) World.init))))
  /\ Forall (Forall isIntake) Demo.meanwhile
  /\ nth_error
       (World.queue (snd (scheduled Demo.env Demo.jpeg Demo.meanwhile
                            (exec (run Demo.env Demo.two) World.init))))
       2
     = Some Demo.lateDog.
Proof.
  assert (Forall (Forall isIntake) Demo.meanwhile) as Hoth
    by (repeat constructor).
  split; [apply demo_collisionFree|]. split; [exact Hoth|].
  destruct (batch_frame Demo.env Demo.jpeg Demo.two Demo.meanwhile
              (demo_collisionFree _) Hoth) as (_ & H & _).
  eapply (H 0 _ 2 Demo.lateDog); vm_compute; [reflexivity | lia | reflexivity].
Defined.

(** * Further properties of the component *)

(** ** The primary button *)

Lemma everyComplete_false q :
  everyComplete q = false ->
  exists i, In i q /\ QueueItem.status i <> COMPLETE.
Proof.
  unfold everyComplete. induction q as [|x q IH]; simpl; [discriminate|].
  destruct (AppStatus_eqb (QueueItem.status x) COMPLETE) eqn:E; simpl.
  - intros H. destruct (IH H) as (i & Hi & Hs). exists i. auto.
  - intros _. exists x. split; [left; reflexivity|].
    intros Hs. apply AppStatus_eqb_eq in Hs. congruence.
Qed.

Lemma everyComplete_true q :
  everyComplete q = true <-> Forall (fun i => QueueItem.status i = COMPLETE) q.
Proof.
  unfold everyComplete. rewrite forallb_forall, Forall_forall. split.
  - intros H i Hi. apply AppStatus_eqb_eq, H, list_elem_of_In, Hi.
  - intros H i Hi. apply AppStatus_eqb_eq, H, list_elem_of_In, Hi.
Qed.

Lemma isProcessing_false q :
  isProcessing q = false <-> Forall (fun i => QueueItem.status i <> PROCESSING) q.
Proof.
  unfold isProcessing. rewrite Forall_forall. split.
  - intros H i Hi Hs. apply list_elem_of_In in Hi.
    assert (existsb (fun item => AppStatus_eqb (QueueItem.status item) PROCESSING) q = true)
      as Ht by (apply existsb_exists; exists i; split; [exact Hi | apply AppStatus_eqb_eq, Hs]).
    congruence.
  - intros H. destruct (existsb _ q) eqn:E; [|reflexivity].
    apply existsb_exists in E as (i & Hi & Hs). apply AppStatus_eqb_eq in Hs.
    exfalso. exact (H i (proj2 (list_elem_of_In _ _) Hi) Hs).
Qed.

Lemma all_complete_nothing_pending q :
  Forall (fun i => QueueItem.status i = COMPLETE) q -> itemsToProcess q = [].
Proof.
  induction 1 as [|x q Hx _ IH]; [reflexivity|].
  unfold itemsToProcess in *. simpl. unfold isPending at 1. rewrite Hx. exact IH.
Qed.

(** X1 -- what the primary button offers: nothing on an empty queue;
    [Download All], disabled exactly while zipping, when every item is
    [COMPLETE], and then a batch run would select nothing; otherwise
    [Start Conversion], disabled exactly when some item is [PROCESSING]
    (the test on every item being [COMPLETE] never decides), and whenever
    it is enabled a batch run selects at least one item. *)
Theorem primary_button_offers (queue : list QueueItem.t) (isZipping : bool) :
  match primaryButton queue isZipping with
  | None => queue = []
  | Some (DownloadAllButton disabled) =>
      disabled = isZipping /\ queue <> []
      /\ Forall (fun i => QueueItem.status i = COMPLETE) queue
      /\ itemsToProcess queue = []
  | Some (StartButton disabled) =>
      disabled = isProcessing queue
      /\ (disabled = false -> itemsToProcess queue <> [])
  end.
Proof.
  unfold primaryButton, isAllComplete.
  destruct queue as [|x q]; [reflexivity|].
  change (Nat.ltb 0 (length (x :: q))) with true. cbv iota. rewrite andb_true_l.
  destruct (everyComplete (x :: q)) eqn:Ec.
  - apply everyComplete_true in Ec. repeat split; [discriminate | exact Ec|].
    apply all_complete_nothing_pending, Ec.
  - rewrite orb_false_r. split; [reflexivity|]. intros Hp.
    apply isProcessing_false in Hp.
    destruct (everyComplete_false _ Ec) as (i & Hi & Hs).
    pose proof (Forall_In _ _ _ Hp Hi) as Hn. cbv beta in Hn.
    assert (In i (itemsToProcess (x :: q))) as Hin.
    { apply In_itemsToProcess. split; [exact Hi|].
      revert Hs Hn. destruct (QueueItem.status i); intros Hs Hn;
        [left; reflexivity | exfalso; apply Hn; reflexivity
         | exfalso; apply Hs; reflexivity | right; reflexivity]. }
    intros E. rewrite E in Hin. destruct Hin.
Qed.

(** ** The settings panel *)

Lemma rasterFormats_spec fmt :
  existsb (String.eqb fmt) rasterFormats = true ->
  exists f, fmt = mimeOf f /\ f <> SVG.
Proof.
  unfold rasterFormats. simpl. rewrite !orb_true_iff, !String.eqb_eq.
  intros [->|[->|[->|[->|H]]]]; try discriminate;
    [exists JPEG | exists PNG | exists WEBP | exists AVIF]; split; (reflexivity || discriminate).
Qed.

Lemma settingsStep_ok s a : settingsOk s -> settingsOk (settingsStep s a).
Proof.
  intros (fmt & Ef & Hv & Hr). unfold settingsStep.
  destruct (rendered s a) eqn:Er; [|exists fmt; auto].
  destruct a; simpl in *.
  - exists JPEG. repeat split; try discriminate; exact Hr.
  - exists SVG. repeat split; exact Hr.
  - apply andb_true_iff in Er as [Ev Ein].
    destruct (rasterFormats_spec _ Ein) as (f & -> & Hf).
    exists f. split; [reflexivity|]. split; [|exact Hr].
    apply negb_true_iff in Ev. rewrite Ev. split; [discriminate | contradiction].
  - exists fmt. auto.
  - exists fmt. auto.
  - exists fmt. auto.
Qed.

Lemma settingsSteps_ok acts s :
  settingsOk s -> settingsOk (fold_left settingsStep acts s).
Proof.
  revert s. induction acts as [|a acts IH]; intros s Hs; [exact Hs|].
  simpl. apply IH, settingsStep_ok, Hs.
Qed.

(** X2 -- whatever is done in the settings panel, starting from the
    initial settings: the format is the MIME type of one of the five
    output formats, it is [image/svg+xml] exactly in vector mode, so the
    extension of the download names is always defined (never the word
    [undefined]); and the resize ratio is still the initial one, there
    being no control for it. *)
Theorem settings_invariant (acts : list SettingsAction) :
  exists fmt,
    ConversionSettings.format (settingsAfter acts) = mimeOf fmt
    /\ (ConversionSettings.isVector (settingsAfter acts) = true <-> fmt = SVG)
    /\ getExtension (settingsAfter acts) = Some (subtypeExtension fmt)
    /\ ConversionSettings.resizeRatio (settingsAfter acts)
       = ConversionSettings.resizeRatio initialSettings.
Proof.
  assert (settingsOk (settingsAfter acts)) as (fmt & Ef & Hv & Hr).
  { apply settingsSteps_ok. exists JPEG. repeat split; discriminate. }
  exists fmt. repeat split; try apply Hv; try exact Ef; try exact Hr.
  apply getExtension_subtype, Ef.
Qed.

(** ** File names *)

Lemma split_head c s :
  exists h t,
    Js.split c s = h :: t
    /\ occurs c h = false
    /\ (t = [] -> s = h)
    /\ (t <> [] -> exists rest, s = h +:+ String c rest).
Proof.
  induction s as [|d r (h & t & Es & Ho & Hnil & Hcons)].
  - exists "", []. repeat split; try reflexivity. intros H. congruence.
  - simpl. destruct (Ascii.eqb d c) eqn:E.
    + apply Ascii.eqb_eq in E. subst d. exists "", (Js.split c r).
      repeat split; try reflexivity.
      * intros H. rewrite Es in H. discriminate.
      * intros _. exists r. reflexivity.
    + rewrite Es. exists (String d h), t. repeat split.
      * simpl. rewrite E, Ho. reflexivity.
      * intros H. rewrite <- (Hnil H). reflexivity.
      * intros H. destruct (Hcons H) as [rest ->]. exists rest. reflexivity.
Qed.

Lemma occurs_false_split c s : occurs c s = false -> Js.split c s = [s].
Proof.
  induction s as [|d r IH]; [reflexivity|]. simpl.
  destruct (Ascii.eqb d c); simpl; [discriminate|].
  intros H. rewrite (IH H). reflexivity.
Qed.

Lemma append_length (a b : string) :
  String.length (a +:+ b) = String.length a + String.length b.
Proof. induction a as [|c a IH]; [reflexivity|]. rewrite append_String. simpl. rewrite IH. reflexivity. Qed.

Lemma append_cancel_r (a b s : string) : a +:+ s = b +:+ s -> a = b.
Proof.
  revert b. induction a as [|c a IH]; intros [|d b] H.
  - reflexivity.
  - apply (f_equal String.length) in H. rewrite !append_length in H. simpl in H. lia.
  - apply (f_equal String.length) in H. rewrite !append_length in H. simpl in H. lia.
  - rewrite !append_String in H. injection H as -> H. f_equal. apply IH, H.
Qed.

(** X3 -- the base of a download name is the part of the file name
    before its first dot: it holds no dot, the file name is it alone or it
    followed by a dot and the rest, and a file name without any dot is its
    own base; two file names get the same download name exactly when they
    have the same base, whatever comes after the first dot. *)
Theorem baseName_first_dot (name : string) :
  occurs "." (baseName name) = false
  /\ (name = baseName name
      \/ exists rest, name = baseName name +:+ String "." rest)
  /\ (occurs "." name = false -> baseName name = name)
  /\ (forall other ext,
        convertedName name ext = convertedName other ext
        <-> baseName name = baseName other).
Proof.
  destruct (split_head "." name) as (h & t & Es & Ho & Hnil & Hcons).
  assert (baseName name = h) as Eb by (unfold baseName; rewrite Es; reflexivity).
  split; [rewrite Eb; exact Ho|]. split; [|split].
  - rewrite Eb. destruct t as [|x t]; [left; apply Hnil; reflexivity|].
    right. apply Hcons. discriminate.
  - intros H. rewrite (occurs_false_split _ _ H) in Es. congruence.
  - intros other ext. unfold convertedName. split.
    + intros H. apply append_cancel_r in H. exact H.
    + intros H. unfold baseName in H. rewrite H. reflexivity.
Qed.

(** ** The archive under name collisions *)

Lemma size_list_to_map (l : list (string * Blob.t)) :
  size (list_to_map l : gmap string Blob.t) <= length l
  /\ (size (list_to_map l : gmap string Blob.t) = length l -> NoDup (l.*1)).
Proof.
  induction l as [|[k v] l [IHle IHnd]]; simpl.
  - split; [rewrite map_size_empty; lia | intros _; constructor].
  - destruct ((list_to_map l : gmap string Blob.t) !! k) as [v'|] eqn:E.
    + rewrite map_size_insert_Some by (eexists; exact E). split; [lia | intros H; lia].
    + rewrite map_size_insert_None by exact E. split; [lia|].
      intros H. constructor; [|apply IHnd; lia].
      apply not_elem_of_list_to_map. exact E.
Qed.

(** X4 -- the archive never holds more entries than there are completed
    results, and it holds as many exactly when their names are pairwise
    distinct: with two completed items of the same name, an entry is
    lost. *)
Theorem archive_collision_loses_entries (ext : option string)
    (items : list QueueItem.t) :
  size (buildZip ext items) <= length (entries ext items)
  /\ (size (buildZip ext items) = length (entries ext items)
      <-> NoDup (List.map fst (entries ext items))).
Proof.
  rewrite buildZip_entries.
  destruct (size_list_to_map (rev (entries ext items))) as [Hle Hnd].
  rewrite length_rev in Hle, Hnd. split; [exact Hle|]. split.
  - intros H. apply Hnd in H.
    change (NoDup (List.map fst (rev (entries ext items)))) in H.
    rewrite map_rev, <- Permutation_rev in H. exact H.
  - intros H. rewrite <- length_map_to_list, map_to_list_to_map.
    + apply length_rev.
    + change (NoDup (List.map fst (rev (entries ext items)))).
      rewrite map_rev, <- Permutation_rev. exact H.
Qed.

(** ** What a run leaves alone *)

Lemma core_map g q :
  (forall i, core (g i) = core i) -> List.map core (List.map g q) = List.map core q.
Proof. intros H. rewrite map_map. apply map_ext, H. Qed.

Lemma core_resolve env s item n i : core (resolve env s item n i) = core i.
Proof. unfold resolve. destruct (convert env s n _); reflexivity. Qed.

Lemma core_updated a f i : (forall x, core (f x) = core x) -> core (updated a f i) = core i.
Proof. intros H. unfold updated. destruct (idEq _ a); [apply H | reflexivity]. Qed.

Lemma processItem_core env s item w :
  List.map core (World.queue (exec (processItem env s item) w))
  = List.map core (World.queue w).
Proof.
  destruct (processItem_run env s item w) as (Eq & _). rewrite Eq.
  apply core_map. intros i. apply core_updated. intros. apply core_resolve.
Qed.

Lemma forEach_processItem_frame env s items w :
  List.map core (World.queue (exec (forEach items (processItem env s)) w))
  = List.map core (World.queue w)
  /\ World.revoked (exec (forEach items (processItem env s)) w) = World.revoked w
  /\ exists new,
       World.created (exec (forEach items (processItem env s)) w)
       = new ++ World.created w.
Proof.
  revert w. induction items as [|x items IH]; intros w.
  - repeat split. exists []. reflexivity.
  - rewrite exec_forEach_cons.
    destruct (IH (exec (processItem env s x) w)) as (Ec & Er & new & En).
    destruct (processItem_run env s x w) as (_ & _ & Er1 & Ecr1).
    rewrite Ec, Er, En, Er1, processItem_core, Ecr1.
    repeat split.
    destruct (convert env s _ _); [|exists new; reflexivity].
    eexists (new ++ [_]). rewrite <- app_assoc. reflexivity.
Qed.

(** X5 -- a batch run, on any queue at all, keeps the length and the
    order of the queue and the id, the file, the preview URL and the
    original size of every item; it revokes no URL and forgets none of
    those created before it. *)
Theorem batch_keeps_fields env s (w : World.t) :
  List.map core (World.queue (exec (processBatch env s) w))
  = List.map core (World.queue w)
  /\ length (World.queue (exec (processBatch env s) w)) = length (World.queue w)
  /\ World.revoked (exec (processBatch env s) w) = World.revoked w
  /\ exists new,
       World.created (exec (processBatch env s) w) = new ++ World.created w.
Proof.
  assert (List.map core (World.queue (exec (processBatch env s) w))
          = List.map core (World.queue w)
          /\ World.revoked (exec (processBatch env s) w) = World.revoked w
          /\ exists new,
               World.created (exec (processBatch env s) w) = new ++ World.created w)
    as (Ec & Er & En).
  { rewrite stateAfter_all. unfold stateAfter. cbv zeta.
    rewrite firstn_all, exec_seq.
    destruct (forEach_processItem_frame env s (itemsToProcess (World.queue w))
                (exec (markProcessing (itemsToProcess (World.queue w))) w))
      as (Ec & Er & new & En).
    rewrite Ec, Er, En, markProcessing_run. simpl.
    split; [|split; [reflexivity | exists new; reflexivity]].
    apply core_map. intros i. destruct (selected _ i); reflexivity. }
  split; [exact Ec|]. split; [|split; assumption].
  apply (f_equal (@length _)) in Ec. rewrite !length_map in Ec. exact Ec.
Qed.

(** ** A turn for an item that is gone *)

(** X6 -- when the item of a turn is no longer queued (it was removed
    while the run was suspended), the turn leaves the queue as it is: the
    item does not come back.  If its conversion succeeds, the URL created
    for the output is held by no queued item and is never revoked by the
    turn, so a ledger that balanced before is off by one after. *)
Theorem removed_item_turn env s (item : QueueItem.t) (w : World.t) :
  ~ In (QueueItem.id item) (ids (World.queue w)) ->
  World.queue (exec (processItem env s item) w) = World.queue w
  /\ World.revoked (exec (processItem env s item) w) = World.revoked w
  /\ match convert env s (World.clock w) (QueueItem.file item) with
     | Some _ =>
         World.created (exec (processItem env s item) w)
         = urlAt env (S (World.clock w)) :: World.created w
         /\ (Ledger w ->
             length (World.created (exec (processItem env s item) w))
             = S (length (World.revoked (exec (processItem env s item) w))
                  + length (owned (World.queue (exec (processItem env s item) w)))))
     | None =>
         World.created (exec (processItem env s item) w) = World.created w
     end.
Proof.
  intros Habs. destruct (processItem_run env s item w) as (Eq & _ & Er & Ecr).
  rewrite (map_updated_absent _ _ _ Habs) in Eq. rewrite Eq, Er, Ecr.
  split; [reflexivity|]. split; [reflexivity|].
  destruct (convert env s _ _); [|reflexivity].
  split; [reflexivity|]. intros Hled. unfold Ledger in Hled.
  apply Permutation_length in Hled. rewrite length_app in Hled. simpl. lia.
Qed.

(** ** Ids in reachable worlds, and removal under a repeated id *)

(** X7 -- as long as the ids drawn do not collide, the ids of the queued
    items are pairwise distinct in every world reached from the empty
    queue, and each of them was drawn by [generateId] at an earlier
    tick. *)
Theorem reachable_ids_unique env (acts : list Action) :
  collisionFree env (World.clock (exec (run env acts) World.init)) ->
  NoDup (ids (World.queue (exec (run env acts) World.init)))
  /\ Forall (fun a => exists k,
               k < World.clock (exec (run env acts) World.init)
               /\ a = Env.randomId env k)
            (ids (World.queue (exec (run env acts) World.init))).
Proof.
  intros Hcf. destruct (reachable_inv env acts Hcf) as [Hnd Hm _ _ _].
  split; [exact Hnd | exact Hm].
Qed.

Lemma owned_partition id q :
  owned q
  ≡ₚ owned (List.filter (fun i => negb (idEq (QueueItem.id i) id)) q)
     ++ owned (List.filter (fun i => idEq (QueueItem.id i) id) q).
Proof.
  induction q as [|x q IH]; [reflexivity|].
  rewrite owned_cons. simpl List.filter.
  destruct (idEq (QueueItem.id x) id); simpl negb; cbv iota; rewrite owned_cons, IH.
  - rewrite !app_assoc. apply Permutation_app_tail, Permutation_app_comm.
  - rewrite app_assoc. reflexivity.
Qed.

(** X8 -- [removeItem] on any queue, ids repeated or not: every item
    carrying the id leaves the queue and the others stay, in order, but
    only the handles of the first item carrying it are revoked; the
    handles of any further item with that id leave the queue
    unrevoked. *)
Theorem removeItem_repeated_id (id : string) (w : World.t) :
  let gone := List.filter (fun i => idEq (QueueItem.id i) id) (World.queue w) in
  let w' := exec (removeItem id) w in
  World.queue w'
  = List.filter (fun i => negb (idEq (QueueItem.id i) id)) (World.queue w)
  /\ owned (World.queue w) ≡ₚ owned (World.queue w') ++ owned gone
  /\ World.revoked w'
     = match gone with
       | first :: _ => rev (revocable first)
       | [] => []
       end ++ World.revoked w
  /\ World.created w' = World.created w.
Proof.
  cbv zeta. rewrite removeItem_run. simpl.
  split; [reflexivity|]. split; [apply owned_partition|]. split; [|reflexivity].
  f_equal. unfold getItem. induction (World.queue w) as [|x q IH]; [reflexivity|].
  simpl. destruct (idEq (QueueItem.id x) id); [reflexivity | exact IH].
Qed.

(** ** Statuses along and after a run *)

Lemma status_cases i :
  QueueItem.status i <> PROCESSING -> isPending i = false ->
  QueueItem.status i = COMPLETE.
Proof.
  unfold isPending. destruct (QueueItem.status i); simpl; intros H1 H2;
    congruence.
Qed.

Lemma processBatch_settles env s w :
  NoDup (ids (World.queue w)) -> Settled w ->
  Forall (fun i => QueueItem.status i = COMPLETE \/ QueueItem.status i = ERROR)
         (World.queue (exec (processBatch env s) w)).
Proof.
  intros Hnd Hs. rewrite stateAfter_all.
  destruct (run_entries env s w _ Hnd (le_n _)) as (g & Eq & Hg).
  rewrite Eq. apply Forall_map_in. intros i Hi.
  destruct (Hg i Hi) as [Hno Hyes]. destruct (isPending i) eqn:Hp.
  - destruct (Hyes eq_refl) as (j & Hj & ->).
    rewrite (proj2 (Nat.ltb_lt _ _)) by (eapply nth_error_lt, Hj).
    rewrite resolve_status. destruct (convert env s _ _); auto.
  - rewrite (Hno eq_refl). left. apply status_cases; [|exact Hp].
    exact (Forall_In _ _ _ Hs Hi).
Qed.

Lemma terminal_Settled w :
  Forall (fun i => QueueItem.status i = COMPLETE \/ QueueItem.status i = ERROR)
         (World.queue w) ->
  Settled w.
Proof.
  unfold Settled. intros H. eapply Forall_impl; [exact H|].
  cbv beta. intros i [E|E]; rewrite E; discriminate.
Qed.

Lemma step_settled env a w :
  NoDup (ids (World.queue w)) -> Settled w -> Settled (exec (step env a) w).
Proof.
  intros Hnd Hs. destruct a as [files| id | | s | s]; cbn [step].
  - destruct files as [fs|]; [|exact Hs].
    unfold Settled. rewrite handleFiles_queue. apply Forall_app. split; [exact Hs|].
    destruct (mapM_newItem env (List.filter isImage fs) w) as (_ & Hf & _).
    eapply Forall_impl; [exact Hf|]. cbv beta. intros i (E & _). rewrite E. discriminate.
  - unfold Settled. rewrite removeItem_run. simpl. apply Forall_filter_keep, Hs.
  - unfold Settled. rewrite clearQueue_run. simpl. constructor.
  - apply terminal_Settled, processBatch_settles; assumption.
  - rewrite exec_discard.
    destruct (downloadAll_run env s w) as [->|(us & c & l & _ & _ & ->)]; exact Hs.
Qed.

Lemma run_settled env n acts w :
  collisionFree env n ->
  World.clock (exec (run env acts) w) <= n ->
  WorldInv env w -> Settled w -> Settled (exec (run env acts) w).
Proof.
  intros Hcf. revert w. induction acts as [|a acts IH]; intros w Hn Hinv Hs; [exact Hs|].
  unfold run in *. rewrite exec_forEach_cons in *.
  apply IH; [exact Hn| |].
  - eapply step_inv; [exact Hcf | | exact Hinv].
    etransitivity; [apply (run_clock env acts) | exact Hn].
  - apply step_settled; [apply Hinv | exact Hs].
Qed.

Lemma reachable_settled env acts :
  collisionFree env (World.clock (exec (run env acts) World.init)) ->
  Settled (exec (run env acts) World.init).
Proof.
  intros Hcf. eapply run_settled; [exact Hcf | lia | apply init_inv | constructor].
Qed.

Lemma pending_of_terminal q :
  Forall (fun i => QueueItem.status i = COMPLETE \/ QueueItem.status i = ERROR) q ->
  itemsToProcess q
  = List.filter (fun i => AppStatus_eqb (QueueItem.status i) ERROR) q.
Proof.
  unfold itemsToProcess. induction 1 as [|x q Hx _ IH]; [reflexivity|].
  simpl. rewrite IH. unfold isPending. destruct Hx as [E|E]; rewrite E; reflexivity.
Qed.

Lemma processBatch_nothing env s w :
  itemsToProcess (World.queue w) = [] -> processBatch env s w = (tt, w).
Proof. intros E. unfold processBatch. rewrite E. reflexivity. Qed.

(** X9 -- with every handler run to its end before the next one starts
    (none runs while a batch run is suspended): in every world reached
    from the empty queue no item is [PROCESSING], and right after a batch
    run started there every item is [COMPLETE] or [ERROR]; the next run
    then selects exactly the [ERROR] items, and when there is none it
    returns the world as it is: running again after a run without failure
    changes nothing. *)
Theorem run_settles_queue env (acts : list Action) (s s' : ConversionSettings.t) :
  collisionFree env (World.clock (exec (run env acts) World.init)) ->
  let w := exec (run env acts) World.init in
  let w' := exec (processBatch env s) w in
  isProcessing (World.queue w) = false
  /\ isProcessing (World.queue w') = false
  /\ Forall (fun i => QueueItem.status i = COMPLETE \/ QueueItem.status i = ERROR)
            (World.queue w')
  /\ itemsToProcess (World.queue w')
     = List.filter (fun i => AppStatus_eqb (QueueItem.status i) ERROR)
                   (World.queue w')
  /\ (Forall (fun i => QueueItem.status i <> ERROR) (World.queue w') ->
      processBatch env s' w' = (tt, w')).
Proof.
  intros Hcf. cbv zeta.
  pose proof (reachable_inv env acts Hcf) as Hinv.
  pose proof (reachable_settled env acts Hcf) as Hs.
  pose proof (processBatch_settles env s _ (inv_nodup _ _ Hinv) Hs) as Ht.
  split; [apply isProcessing_false, Hs|].
  split; [apply isProcessing_false, terminal_Settled, Ht|].
  split; [exact Ht|]. split; [apply pending_of_terminal, Ht|].
  intros Hne. apply processBatch_nothing.
  rewrite (pending_of_terminal _ Ht). clear Ht.
  induction Hne as [|x q Hx _ IH]; [reflexivity|]. simpl.
  destruct (AppStatus_eqb (QueueItem.status x) ERROR) eqn:E; [|exact IH].
  apply AppStatus_eqb_eq in E. contradiction.
Qed.

(** X10 -- at every suspension of an uninterrupted run over a queue
    with distinct ids some item is [PROCESSING]: the view committed there
    shows the [Start Conversion] button, disabled. *)
Theorem button_disabled_during_run env s (w : World.t) (isZipping : bool) :
  NoDup (ids (World.queue w)) ->
  forall p e,
    nth_error (fst (scheduled env s [] w)) p = Some e ->
    isProcessing (World.queue (Suspension.atYield e)) = true
    /\ primaryButton (World.queue (Suspension.atYield e)) isZipping
       = Some (StartButton true).
Proof.
  intros Hnd p e Hp.
  destruct (scheduled_trace env s w) as (_ & _ & H & _).
  destruct (H p e Hp) as (k & itk & _ & Ek & -> & _).
  pose proof (batch_item_at env s w Hnd k k itk
                (Nat.lt_le_incl _ _ (nth_error_lt _ _ _ Ek)) Ek) as G.
  rewrite Nat.ltb_irrefl in G. apply getItem_Some in G as [Hin _].
  assert (isProcessing (World.queue (stateAfter env s k w)) = true) as Hpr.
  { apply existsb_exists. eexists. split; [exact Hin | reflexivity]. }
  split; [exact Hpr|]. unfold primaryButton, isAllComplete.
  destruct (World.queue (stateAfter env s k w)) as [|x q] eqn:Eq; [destruct Hin|].
  change (Nat.ltb 0 (length (x :: q))) with true. cbv iota. rewrite andb_true_l.
  destruct (everyComplete (x :: q)) eqn:Ec.
  - apply everyComplete_true in Ec. pose proof (Forall_In _ _ _ Ec Hin) as Hc.
    discriminate Hc.
  - rewrite Hpr. reflexivity.
Qed.

(** X11 -- in every world reached from the empty queue, an item whose
    row shows the download button has a result: [downloadFile] builds its
    link, and the link points to the very URL its thumbnail shows; and
    when [Download All] is offered the completed items packed into the
    archive are all the items of the queue, in order. *)
Theorem download_button_has_link env (acts : list Action) (s : ConversionSettings.t) :
  collisionFree env (World.clock (exec (run env acts) World.init)) ->
  let q := World.queue (exec (run env acts) World.init) in
  (forall i, In i q -> showsDownload i = true ->
     exists d, downloadFile s i = Some d /\ Download.href d = thumbnailSrc i)
  /\ (isAllComplete q = true -> List.filter isCompleted q = q).
Proof.
  intros Hcf. cbv zeta. pose proof (reachable_inv env acts Hcf) as Hinv.
  pose proof (inv_lifecycle _ _ Hinv) as Hl.
  assert (forall i, In i (World.queue (exec (run env acts) World.init)) ->
                    QueueItem.status i = COMPLETE ->
                    exists r, QueueItem.result i = Some r) as Hres.
  { intros i Hi Hc. destruct (Forall_In _ _ _ Hl Hi) as (Hr & _).
    apply Hr in Hc. exact Hc. }
  split.
  - intros i Hi Hd. unfold showsDownload in Hd. apply AppStatus_eqb_eq in Hd.
    destruct (Hres i Hi Hd) as [r Hr]. unfold downloadFile, thumbnailSrc.
    rewrite Hr, Hd. eexists. split; reflexivity.
  - intros Hall. unfold isAllComplete in Hall. apply andb_true_iff in Hall as [_ Hall].
    apply everyComplete_true in Hall. apply forallb_filter_id, forallb_forall.
    intros i Hi. unfold isCompleted.
    rewrite (Forall_In _ _ _ Hall Hi). destruct (Hres i Hi (Forall_In _ _ _ Hall Hi)) as [r ->].
    reflexivity.
Qed.

(** ** Object URLs are minted once and never used after release *)

Lemma UrlDelta_refl env w : UrlDelta env w w.
Proof.
  split; [lia|]. exists []. repeat split; constructor.
Qed.

Lemma UrlDelta_same env w w' :
  World.clock w <= World.clock w' -> World.created w' = World.created w ->
  UrlDelta env w w'.
Proof.
  intros Hc E. split; [exact Hc|]. exists []. rewrite E. repeat split; constructor.
Qed.

Lemma UrlDelta_trans env w1 w2 w3 :
  UrlDelta env w1 w2 -> UrlDelta env w2 w3 -> UrlDelta env w1 w3.
Proof.
  intros (Hc1 & ts1 & E1 & Hn1 & Hr1) (Hc2 & ts2 & E2 & Hn2 & Hr2).
  split; [lia|]. exists (ts2 ++ ts1). split; [|split].
  - rewrite E2, E1, map_app, app_assoc. reflexivity.
  - apply NoDup_app. split; [exact Hn2|]. split; [|exact Hn1].
    intros t H2 H1. rewrite Forall_forall in Hr1, Hr2.
    specialize (Hr1 t H1). specialize (Hr2 t H2). lia.
  - apply Forall_app. split.
    + eapply Forall_impl; [exact Hr2|]. cbv beta. intros t Ht. lia.
    + eapply Forall_impl; [exact Hr1|]. cbv beta. intros t Ht. lia.
Qed.

Lemma UrlDelta_one env w w' :
  S (World.clock w) < World.clock w' ->
  World.created w' = urlAt env (S (World.clock w)) :: World.created w ->
  UrlDelta env w w'.
Proof.
  intros Hc E. split; [lia|]. exists [S (World.clock w)]. rewrite E.
  split; [reflexivity|]. split.
  - apply NoDup_singleton.
  - constructor; [lia | constructor].
Qed.

Lemma mapM_newItem_urls env (fs : list File.t) (w : World.t) :
  List.map QueueItem.previewUrl (fst (mapM (newItem env) fs w))
  = List.map (fun k => urlAt env (S (World.clock w + 2 * k))) (seq 0 (length fs)).
Proof.
  revert w. induction fs as [|f fs IH]; intros w; [reflexivity|].
  simpl mapM. unfold bind at 1. unfold newItem at 1, generateId, createObjectURL.
  unfold bind, tick, ret. simpl.
  match goal with |- context [mapM (newItem env) fs ?w1] =>
    specialize (IH w1); destruct (mapM (newItem env) fs w1) as [ys w2]
  end.
  simpl in *. f_equal; [unfold urlAt; f_equal; f_equal; lia|].
  rewrite IH, <- seq_shift, map_map. apply map_ext. intros k. f_equal. lia.
Qed.

Lemma handleFiles_delta env files w : UrlDelta env w (exec (handleFiles env files) w).
Proof.
  destruct files as [fs|]; [|apply UrlDelta_refl].
  destruct (handleFiles_run env fs w) as (_ & Ec & Ecr & _).
  rewrite (mapM_newItem_urls env (List.filter isImage fs) w) in Ecr.
  set (m := length (List.filter isImage fs)) in *. clearbody m.
  split; [lia|].
  exists (rev (List.map (fun k => S (World.clock w + 2 * k)) (seq 0 m))).
  split; [|split].
  - rewrite Ecr, map_rev, map_map. reflexivity.
  - rewrite <- Permutation_rev.
    apply (NoDup_fmap_2_strong (fun k => S (World.clock w + 2 * k))).
    + intros x y _ _ E. lia.
    + apply NoDup_seq.
  - rewrite Ec. apply Forall_forall. intros t Ht.
    apply list_elem_of_In, in_rev, in_map_iff in Ht as (k & <- & Hk).
    apply in_seq in Hk. lia.
Qed.

Lemma processItem_clock2 env s item w blob :
  convert env s (World.clock w) (QueueItem.file item) = Some blob ->
  S (World.clock w) < World.clock (exec (processItem env s item) w).
Proof.
  intros Hc. unfold processItem. rewrite !exec_bind.
  change (fst (tick w)) with (World.clock w). rewrite Hc, !exec_bind.
  set (w1 := snd (createObjectURL env (snd (tick w)))).
  destruct (annotate_run env s item w1) as (_ & _ & _ & _ & E5).
  apply Nat.lt_le_trans with (World.clock w1); [subst w1; simpl; lia|].
  exact E5.
Qed.

Lemma processItem_delta env s item w :
  UrlDelta env w (exec (processItem env s item) w).
Proof.
  destruct (processItem_run env s item w) as (_ & Hc & _ & Ecr).
  destruct (convert env s (World.clock w) (QueueItem.file item)) as [blob|] eqn:E.
  - apply UrlDelta_one; [eapply processItem_clock2, E | exact Ecr].
  - apply UrlDelta_same; [lia | exact Ecr].
Qed.

Lemma forEach_processItem_delta env s items w :
  UrlDelta env w (exec (forEach items (processItem env s)) w).
Proof.
  revert w. induction items as [|x items IH]; intros w; [apply UrlDelta_refl|].
  rewrite exec_forEach_cons.
  eapply UrlDelta_trans; [apply processItem_delta | apply IH].
Qed.

Lemma processBatch_delta env s w : UrlDelta env w (exec (processBatch env s) w).
Proof.
  rewrite stateAfter_all. unfold stateAfter. cbv zeta. rewrite firstn_all, exec_seq.
  eapply UrlDelta_trans; [|apply forEach_processItem_delta].
  apply UrlDelta_same; reflexivity.
Qed.

Lemma downloadAll_delta env s w : UrlDelta env w (exec (downloadAll env s) w).
Proof.
  unfold downloadAll, exec. cbv beta zeta.
  destruct (Nat.eqb _ 0); [apply UrlDelta_refl|].
  unfold bind at 1, tick. simpl.
  destruct (Env.generateAsync env _ _); simpl.
  - apply UrlDelta_one; simpl; [lia | reflexivity].
  - apply UrlDelta_same; simpl; [lia | reflexivity].
Qed.

Lemma step_delta env a w : UrlDelta env w (exec (step env a) w).
Proof.
  destruct a as [files| id | | s | s]; cbn [step].
  - apply handleFiles_delta.
  - rewrite removeItem_run. apply UrlDelta_same; reflexivity.
  - rewrite clearQueue_run. apply UrlDelta_same; reflexivity.
  - apply processBatch_delta.
  - rewrite exec_discard. apply downloadAll_delta.
Qed.

Lemma run_delta env acts w : UrlDelta env w (exec (run env acts) w).
Proof.
  revert w. induction acts as [|a acts IH]; intros w; [apply UrlDelta_refl|].
  unfold run. rewrite exec_forEach_cons.
  eapply UrlDelta_trans; [apply step_delta | apply IH].
Qed.

Lemma append_cancel_l (p a b : string) : p +:+ a = p +:+ b -> a = b.
Proof.
  induction p as [|c p IH]; [intros H; exact H|].
  rewrite !append_String. intros H. injection H as H. apply IH, H.
Qed.

Lemma thumbnailSrc_handle i : In (thumbnailSrc i) (handles i).
Proof.
  unfold thumbnailSrc, handles.
  destruct (AppStatus_eqb _ COMPLETE); [|left; reflexivity].
  destruct (QueueItem.result i); [right; left; reflexivity | left; reflexivity].
Qed.

(** X12 -- in every world reached from the empty queue, provided neither
    the ids nor the object URLs drawn collide: no URL has been revoked
    twice, no URL is held by two queued items (or twice by one), and every
    URL held by a queued item -- in particular the one its thumbnail
    shows -- has been created and has not been revoked. *)
Theorem no_use_after_release env (acts : list Action) :
  collisionFree env (World.clock (exec (run env acts) World.init)) ->
  urlCollisionFree env (World.clock (exec (run env acts) World.init)) ->
  let w := exec (run env acts) World.init in
  NoDup (World.revoked w)
  /\ NoDup (owned (World.queue w))
  /\ forall i, In i (World.queue w) ->
       (forall u, In u (handles i) ->
          In u (World.created w) /\ ~ In u (World.revoked w))
       /\ In (thumbnailSrc i) (World.created w)
       /\ ~ In (thumbnailSrc i) (World.revoked w).
Proof.
  intros Hcf Hucf. cbv zeta.
  pose proof (inv_ledger _ _ (reachable_inv env acts Hcf)) as Hled.
  destruct (run_delta env acts World.init) as (_ & ts & Ecr & Hnd & Hr).
  set (w := exec (run env acts) World.init) in *. unfold Ledger in Hled.
  simpl in Ecr. rewrite app_nil_r in Ecr.
  assert (NoDup (World.created w)) as Hc.
  { rewrite Ecr. apply (NoDup_fmap_2_strong (urlAt env)); [|exact Hnd].
    intros a b Ha Hb E. rewrite Forall_forall in Hr.
    apply Hucf; [apply (Hr a Ha) | apply (Hr b Hb)|].
    unfold urlAt in E. apply append_cancel_l in E. exact E. }
  rewrite Hled in Hc. apply NoDup_app in Hc as (Hrev & Hdisj & Hown).
  split; [exact Hrev|]. split; [exact Hown|].
  assert (forall i, In i (World.queue w) -> forall u, In u (handles i) ->
            In u (World.created w) /\ ~ In u (World.revoked w)) as Hh.
  { intros i Hi u Hu.
    assert (In u (owned (World.queue w))) as Ho
      by (unfold owned; apply in_flat_map; exists i; split; assumption).
    split.
    - apply list_elem_of_In. rewrite Hled. apply list_elem_of_In, in_or_app.
      right. exact Ho.
    - intros Hrv. apply (Hdisj u); apply list_elem_of_In; assumption. }
  intros i Hi. split; [apply Hh, Hi|]. apply (Hh i Hi), thumbnailSrc_handle.
Qed.

(** ** Annotation switched off *)

Lemma annotation_off env s item n :
  ConversionSettings.useAIAnalysis s = false -> annotation env s item n = ("", []).
Proof. unfold annotation. intros ->. reflexivity. Qed.

Lemma resolve_unannotated env s item n i :
  ConversionSettings.useAIAnalysis s = false ->
  Unannotated i -> Unannotated (resolve env s item n i).
Proof.
  intros Hoff Hi. unfold resolve. destruct (convert env s n _); [|exact Hi].
  rewrite (annotation_off env s item _ Hoff). intros r Hr. simpl in Hr.
  injection Hr as <-. split; reflexivity.
Qed.

Lemma forEach_processItem_unannotated env s items w :
  ConversionSettings.useAIAnalysis s = false ->
  Forall Unannotated (World.queue w) ->
  Forall Unannotated (World.queue (exec (forEach items (processItem env s)) w)).
Proof.
  intros Hoff. revert w. induction items as [|x items IH]; intros w H; [exact H|].
  rewrite exec_forEach_cons. apply IH.
  destruct (processItem_run env s x w) as (Eq & _). rewrite Eq.
  apply Forall_map_in. intros i Hi. pose proof (Forall_In _ _ _ H Hi) as Ui.
  unfold updated. destruct (idEq _ _); [|exact Ui].
  apply resolve_unannotated; assumption.
Qed.

Lemma processBatch_unannotated env s w :
  ConversionSettings.useAIAnalysis s = false ->
  Forall Unannotated (World.queue w) ->
  Forall Unannotated (World.queue (exec (processBatch env s) w)).
Proof.
  intros Hoff H. rewrite stateAfter_all. unfold stateAfter. cbv zeta.
  rewrite firstn_all, exec_seq.
  apply forEach_processItem_unannotated; [exact Hoff|].
  rewrite markProcessing_run. simpl. apply Forall_map_in. intros i Hi.
  pose proof (Forall_In _ _ _ H Hi) as Ui. destruct (selected _ i); exact Ui.
Qed.

Lemma step_unannotated env a w :
  annotationOff a ->
  Forall Unannotated (World.queue w) ->
  Forall Unannotated (World.queue (exec (step env a) w)).
Proof.
  intros Ha H. destruct a as [files| id | | s | s]; cbn [step].
  - destruct files as [fs|]; [|exact H].
    rewrite handleFiles_queue. apply Forall_app. split; [exact H|].
    destruct (mapM_newItem env (List.filter isImage fs) w) as (_ & Hf & _).
    eapply Forall_impl; [exact Hf|]. cbv beta. intros i (_ & E & _) r Hr. congruence.
  - rewrite removeItem_run. simpl. apply Forall_filter_keep, H.
  - rewrite clearQueue_run. simpl. constructor.
  - apply processBatch_unannotated; assumption.
  - rewrite exec_discard.
    destruct (downloadAll_run env s w) as [->|(us & c & l & _ & _ & ->)]; exact H.
Qed.

(** X13 -- as long as every batch run is started with annotation
    switched off, no queued item ever carries a description or a tag:
    every result has the empty description and no tags. *)
Theorem no_annotation_when_off env (acts : list Action) :
  Forall annotationOff acts ->
  Forall Unannotated (World.queue (exec (run env acts) World.init)).
Proof.
  intros Hacts.
  assert (Forall Unannotated (World.queue World.init)) as H0 by constructor.
  revert H0. generalize World.init.
  induction Hacts as [|a acts Ha _ IH]; intros w H; [exact H|].
  unfold run in *. rewrite exec_forEach_cons. apply IH, step_unannotated; assumption.
Qed.

(** ** Intakes compose; clearing is removing every item *)

Lemma mapM_app {A B} (f : A -> M B) (xs ys : list A) w :
  mapM f (xs ++ ys) w
  = (fst (mapM f xs w) ++ fst (mapM f ys (snd (mapM f xs w))),
     snd (mapM f ys (snd (mapM f xs w)))).
Proof.
  revert w. induction xs as [|x xs IH]; intros w.
  - simpl. destruct (mapM f ys w); reflexivity.
  - simpl. unfold bind. destruct (f x w) as [y w1]. rewrite IH.
    destruct (mapM f xs w1) as [ys1 w2]. simpl.
    destruct (mapM f ys w2) as [ys2 w3]. reflexivity.
Qed.

Lemma newItem_withQueue env f q w :
  newItem env f (withQueue q w)
  = (fst (newItem env f w), withQueue q (snd (newItem env f w))).
Proof. reflexivity. Qed.

Lemma mapM_newItem_withQueue env fs q w :
  mapM (newItem env) fs (withQueue q w)
  = (fst (mapM (newItem env) fs w), withQueue q (snd (mapM (newItem env) fs w))).
Proof.
  revert w. induction fs as [|f fs IH]; intros w; [reflexivity|].
  cbn [mapM]. unfold bind. rewrite newItem_withQueue.
  destruct (newItem env f w) as [y w1]. cbn [fst snd]. rewrite IH.
  destruct (mapM (newItem env) fs w1) as [ys w2]. reflexivity.
Qed.

(** X14 -- two intakes in a row are one intake of the two file lists put
    end to end: same items, ids and preview URLs, same world. *)
Theorem intake_composes env (fs1 fs2 : list File.t) (w : World.t) :
  exec (handleFiles env (Some fs2)) (exec (handleFiles env (Some fs1)) w)
  = exec (handleFiles env (Some (fs1 ++ fs2))) w
  /\ exec (handleFileSelect env (Some fs2)) (exec (handleDrop env (Some fs1)) w)
     = exec (handleFiles env (Some (fs1 ++ fs2))) w.
Proof.
  assert (exec (handleFiles env (Some fs2)) (exec (handleFiles env (Some fs1)) w)
          = exec (handleFiles env (Some (fs1 ++ fs2))) w) as E; [|split; exact E].
  unfold handleFiles. rewrite !exec_bind, List.filter_app, mapM_app.
  unfold exec, setQueue. simpl.
  destruct (mapM_newItem env (List.filter isImage fs1) w) as (_ & _ & Eq1 & _).
  destruct (mapM (newItem env) (List.filter isImage fs1) w) as [a w1]. simpl in *.
  change (World.mk (World.queue w1 ++ a) (World.clock w1) (World.created w1)
            (World.revoked w1) (World.console w1))
    with (withQueue (World.queue w1 ++ a) w1).
  rewrite mapM_newItem_withQueue. simpl.
  destruct (mapM_newItem env (List.filter isImage fs2) w1) as (_ & _ & Eq2 & _).
  destruct (mapM (newItem env) (List.filter isImage fs2) w1) as [b w2]. simpl in *.
  rewrite Eq2, Eq1, app_assoc. reflexivity.
Qed.

Lemma remove_all_run (q : list QueueItem.t) c cr rv cs :
  NoDup (ids q) ->
  exec (forEach (ids q) removeItem) (World.mk q c cr rv cs)
  = World.mk [] c cr (rev (flat_map revocable q) ++ rv) cs.
Proof.
  revert rv. induction q as [|x q IH]; intros rv Hnd; [reflexivity|].
  apply NoDup_ids_cons in Hnd as [Hx Hnd].
  rewrite ids_cons, exec_forEach_cons, removeItem_run. simpl.
  unfold getItem. simpl. rewrite idEq_refl. simpl.
  rewrite (filter_absent _ _ Hx), (IH _ Hnd).
  rewrite rev_app_distr, <- app_assoc. reflexivity.
Qed.

(** X15 -- on a queue with distinct ids, removing the items one after
    the other, in the order of the queue, is clearing the queue: same
    empty queue, same URLs revoked in the same order. *)
Theorem clear_is_remove_all (w : World.t) :
  NoDup (ids (World.queue w)) ->
  exec (forEach (ids (World.queue w)) removeItem) w = exec clearQueue w.
Proof.
  intros Hnd. rewrite clearQueue_run. destruct w as [q c cr rv cs]. simpl in *.
  apply remove_all_run, Hnd.
Qed.

(** X16 -- [downloadAll] never changes the queue, whether the archive is
    generated or not; every URL it creates it also revokes; and with no
    completed item it does nothing at all. *)
Theorem downloadAll_frame env s (w : World.t) :
  World.queue (exec (downloadAll env s) w) = World.queue w
  /\ (exists us,
        World.created (exec (downloadAll env s) w) = us ++ World.created w
        /\ World.revoked (exec (downloadAll env s) w) = us ++ World.revoked w)
  /\ (List.filter isCompleted (World.queue w) = [] ->
      downloadAll env s w = (None, w)).
Proof.
  split; [|split].
  - destruct (downloadAll_run env s w) as [->|(us & c & l & _ & _ & ->)]; reflexivity.
  - destruct (downloadAll_run env s w) as [->|(us & c & l & _ & _ & ->)].
    + exists []. split; reflexivity.
    + exists us. split; reflexivity.
  - intros E. unfold downloadAll. rewrite E. reflexivity.
Qed.

(** ** The extension on any format string *)

Lemma occurs_append c (a b : string) :
  occurs c (a +:+ String c b) = true.
Proof.
  induction a as [|d a IH].
  - simpl. rewrite Ascii.eqb_refl. reflexivity.
  - rewrite append_String. simpl. rewrite IH. apply orb_true_r.
Qed.

(** X17 -- on any format string: the extension is undefined exactly when
    the format holds no slash, and is then printed as the word
    [undefined] in the download name; it is never [svg+xml]. *)
Theorem getExtension_edge (s : ConversionSettings.t) (name : string) :
  (getExtension s = None <-> occurs "/" (ConversionSettings.format s) = false)
  /\ (getExtension s = None ->
      convertedName name (getExtension s)
      = baseName name +:+ "_converted.undefined")
  /\ getExtension s <> Some "svg+xml".
Proof.
  unfold getExtension.
  destruct (split_head "/" (ConversionSettings.format s))
    as (h & t & Es & Ho & Hnil & Hcons).
  rewrite Es. unfold Js.index. simpl nth_error. split; [|split].
  - destruct t as [|e t]; simpl.
    + split; [intros _|reflexivity]. rewrite (Hnil eq_refl). exact Ho.
    + destruct (Hcons ltac:(discriminate)) as [rest ->].
      rewrite occurs_append.
      destruct (String.eqb e "svg+xml"); split; discriminate.
  - destruct t as [|e t]; simpl; [reflexivity|].
    destruct (String.eqb e "svg+xml"); discriminate.
  - destruct t as [|e t]; simpl; [discriminate|].
    destruct (String.eqb e "svg+xml") eqn:E; [discriminate|].
    apply String.eqb_neq in E. congruence.
Qed.

(** ** The further properties at work *)

Lemma demo_urlCollisionFree n : urlCollisionFree Demo.env n.
Proof.
  intros a b _ _ E. simpl in E. exact (pretty_nat_inj a b E).
Qed.

Lemma removed_item_turn_witness :
  ~ In (QueueItem.id Demo.dogItem)
       (ids (World.queue (exec (run Demo.env Demo.two) World.init)))
  /\ World.queue (exec (processItem Demo.env Demo.jpeg Demo.dogItem)
                    (exec (run Demo.env Demo.two) World.init))
     = World.queue (exec (run Demo.env Demo.two) World.init).
Proof.
  assert (~ In (QueueItem.id Demo.dogItem)
            (ids (World.queue (exec (run Demo.env Demo.two) World.init)))) as H.
  { vm_compute. intros [H|[H|[]]]; discriminate H. }
  split; [exact H|].
  exact (proj1 (removed_item_turn Demo.env Demo.jpeg Demo.dogItem _ H)).
Defined.

Lemma reachable_ids_unique_witness :
  collisionFree Demo.env (World.clock (exec (run Demo.env Demo.session) World.init))
  /\ NoDup (ids (World.queue (exec (run Demo.env Demo.session) World.init))).
Proof.
  split; [apply demo_collisionFree|].
  exact (proj1 (reachable_ids_unique Demo.env Demo.session (demo_collisionFree _))).
Defined.

Lemma run_settles_queue_witness :
  collisionFree Demo.env (World.clock (exec (run Demo.env Demo.intake) World.init))
  /\ isProcessing
       (World.queue (exec (processBatch Demo.env Demo.jpeg)
                       (exec (run Demo.env Demo.intake) World.init)))
     = false.
Proof.
  split; [apply demo_collisionFree|].
  exact (proj1 (proj2 (run_settles_queue Demo.env Demo.intake Demo.jpeg Demo.jpeg
                         (demo_collisionFree _)))).
Defined.

Lemma button_disabled_during_run_witness :
  NoDup (ids (World.queue Demo.three))
  /\ exists e,
       nth_error (fst (scheduled Demo.env Demo.jpeg [] Demo.three)) 1 = Some e
       /\ isProcessing (World.queue (Suspension.atYield e)) = true.
Proof.
  split; [exact demo_three_NoDup|].
  destruct (nth_error (fst (scheduled Demo.env Demo.jpeg [] Demo.three)) 1)
    as [e|] eqn:E; [|vm_compute in E; discriminate E].
  exists e. split; [reflexivity|].
  exact (proj1 (button_disabled_during_run Demo.env Demo.jpeg Demo.three false
                  demo_three_NoDup 1 e E)).
Defined.

Lemma download_button_has_link_witness :
  collisionFree Demo.env
    (World.clock (exec (run Demo.env (Demo.intake ++ [ProcessBatch Demo.jpeg]))
                    World.init))
  /\ (isAllComplete
        (World.queue (exec (run Demo.env (Demo.intake ++ [ProcessBatch Demo.jpeg]))
                        World.init)) = true ->
      List.filter isCompleted
        (World.queue (exec (run Demo.env (Demo.intake ++ [ProcessBatch Demo.jpeg]))
                        World.init))
      = World.queue (exec (run Demo.env (Demo.intake ++ [ProcessBatch Demo.jpeg]))
                       World.init)).
Proof.
  split; [apply demo_collisionFree|].
  exact (proj2 (download_button_has_link Demo.env
                  (Demo.intake ++ [ProcessBatch Demo.jpeg]) Demo.jpeg
                  (demo_collisionFree _))).
Defined.

Lemma no_use_after_release_witness :
  collisionFree Demo.env (World.clock (exec (run Demo.env Demo.session) World.init))
  /\ urlCollisionFree Demo.env
       (World.clock (exec (run Demo.env Demo.session) World.init))
  /\ NoDup (World.revoked (exec (run Demo.env Demo.session) World.init)).
Proof.
  split; [apply demo_collisionFree|]. split; [apply demo_urlCollisionFree|].
  exact (proj1 (no_use_after_release Demo.env Demo.session
                  (demo_collisionFree _) (demo_urlCollisionFree _))).
Defined.

Lemma no_annotation_when_off_witness :
  Forall annotationOff
    [AddFiles (Some [Demo.cat; Demo.dog]); ProcessBatch (Demo.settings "image/png" false)]
  /\ Forall Unannotated
       (World.queue
          (exec (run Demo.env
                   [AddFiles (Some [Demo.cat; Demo.dog]);
                    ProcessBatch (Demo.settings "image/png" false)])
             World.init)).
Proof.
  assert (Forall annotationOff
            [AddFiles (Some [Demo.cat; Demo.dog]);
             ProcessBatch (Demo.settings "image/png" false)]) as H.
  { constructor; [exact I|]. constructor; [reflexivity | constructor]. }
  split; [exact H|].
  exact (no_annotation_when_off Demo.env _ H).
Defined.

Lemma clear_is_remove_all_witness :
  NoDup (ids (World.queue Demo.three))
  /\ exec (forEach (ids (World.queue Demo.three)) removeItem) Demo.three
     = exec clearQueue Demo.three.
Proof.
  split; [exact demo_three_NoDup|].
  exact (clear_is_remove_all Demo.three demo_three_NoDup).
Defined.
